(** * tcshows: the build pipeline of [build.js]

    A shallow embedding of the CSV parser, the Bandcamp page scrapers, the
    cache-first fetch loop and the show aggregation of [build.js], with the
    properties the specification states about them.

    Strings are sequences of code units; the development works with code
    units below 256 ([ascii]), read as Latin-1. *)

From Stdlib Require Import Ascii String List ZArith Lia Bool.
From Stdlib Require Import Sorting.Permutation Sorting.Sorted.
From stdpp Require Import base option list gmap strings.
Import ListNotations.

Set Default Proof Using "Type".

(** ** JavaScript strings *)

Abbreviation jsstring := (list ascii).

Definition str (s : string) : jsstring := list_ascii_of_string s.

Definition dquote : ascii := ascii_of_nat 34.
Definition LF : ascii := ascii_of_nat 10.
Definition CR : ascii := ascii_of_nat 13.

(** Truthiness of a string value: the empty string is the only falsy one. *)
Definition truthy_str (s : jsstring) : bool :=
  match s with [] => false | _ :: _ => true end.

(** ** parseCSV *)

Module CSV.

(** The four loop variables of [parseCSV]. *)
Record state := mkState {
  rows : list (list jsstring);
  current : list jsstring;
  field : jsstring;
  inQuotes : bool
}.

Definition init : state := mkState [] [] [] false.

Definition add_char (c : ascii) (st : state) : state :=
  mkState (rows st) (current st) (field st ++ [c]) (inQuotes st).

Definition toggle (st : state) : state :=
  mkState (rows st) (current st) (field st) (negb (inQuotes st)).

Definition end_field (st : state) : state :=
  mkState (rows st) (current st ++ [field st]) [] (inQuotes st).

Definition end_row (st : state) : state :=
  mkState (rows st ++ [current st ++ [field st]]) [] [] (inQuotes st).

(** The [for] loop: [csv] is the text from index [i] on; the escaped quote
    branch does [i++] and so continues two characters further. *)
Fixpoint loop (csv : jsstring) (st : state) : state :=
  match csv with
  | [] => st
  | char :: rest =>
      if Ascii.eqb char dquote then
        match rest with
        | next :: rest' =>
            if inQuotes st && Ascii.eqb next dquote
            then loop rest' (add_char dquote st)
            else loop rest (toggle st)
        | [] => loop rest (toggle st)
        end
      else if Ascii.eqb char ","%char && negb (inQuotes st) then
        loop rest (end_field st)
      else if Ascii.eqb char LF && negb (inQuotes st) then
        loop rest (end_row st)
      else if Ascii.eqb char CR then
        loop rest st
      else
        loop rest (add_char char st)
  end.

(** The flush after the loop: [if (field || current.length)]. *)
Definition flush (st : state) : list (list jsstring) :=
  if truthy_str (field st) || negb (Nat.eqb (length (current st)) 0)
  then rows st ++ [current st ++ [field st]]
  else rows st.

Definition parseCSV (csv : jsstring) : list (list jsstring) :=
  flush (loop csv init).

(** What follows a closed field: anything but a further quote. *)
Definition not_quote_next (rest : jsstring) : Prop :=
  match rest with [] => True | c :: _ => c <> dquote end.

End CSV.


(** ** Regular expressions

    The fragment of JavaScript regular expressions that [build.js] uses:
    literal characters, character classes, greedy and lazy repetition of a
    character class, one capturing group, the end-of-input assertion.
    Matching is the backtracking search of the language specification, in
    continuation-passing style. *)

Module Regex.

Inductive regex :=
| Eps
| Class (p : ascii -> bool)
| Seq (r1 r2 : regex)
| Star (greedy : bool) (p : ascii -> bool)
| Group (r : regex)
| Eos.

(** Greedy [p*]: take one more character first, fall back to the rest of
    the pattern. *)
Fixpoint star_greedy {R} (p : ascii -> bool) (k : jsstring -> option R)
    (s : jsstring) : option R :=
  match s with
  | c :: s' =>
      if p c then
        match star_greedy p k s' with
        | Some x => Some x
        | None => k s
        end
      else k s
  | [] => k s
  end.

(** Lazy [p*?]: try the rest of the pattern first. *)
Fixpoint star_lazy {R} (p : ascii -> bool) (k : jsstring -> option R)
    (s : jsstring) : option R :=
  match k s with
  | Some x => Some x
  | None =>
      match s with
      | c :: s' => if p c then star_lazy p k s' else None
      | [] => None
      end
  end.

(** [exec r s k cs]: match [r] at the start of [s]; [k] continues with the
    text left and the captures made so far. *)
Fixpoint exec {R} (r : regex) (s : jsstring)
    (k : jsstring -> list jsstring -> option R) (cs : list jsstring) : option R :=
  match r with
  | Eps => k s cs
  | Class p =>
      match s with
      | c :: s' => if p c then k s' cs else None
      | [] => None
      end
  | Seq r1 r2 => exec r1 s (fun s' cs' => exec r2 s' k cs') cs
  | Star true p => star_greedy p (fun s' => k s' cs) s
  | Star false p => star_lazy p (fun s' => k s' cs) s
  | Group r1 =>
      exec r1 s (fun s' cs' => k s' (cs' ++ [take (length s - length s') s])) cs
  | Eos => match s with [] => k s cs | _ :: _ => None end
  end.

(** A match: the matched text, the captures, the text after the match. *)
Record result := mkResult {
  matched : jsstring;
  groups : list jsstring;
  after : jsstring
}.

Definition match_here (r : regex) (s : jsstring) : option result :=
  exec r s (fun s' cs => Some (mkResult (take (length s - length s') s) cs s')) [].

(** Leftmost match: the text before the match and the match. *)
Fixpoint search (r : regex) (s : jsstring) : option (jsstring * result) :=
  match match_here r s with
  | Some m => Some ([], m)
  | None =>
      match s with
      | [] => None
      | c :: s' =>
          match search r s' with
          | Some (pre, m) => Some (c :: pre, m)
          | None => None
          end
      end
  end.

(** [String.prototype.match] with a regular expression without the [g]
    flag: the first match, or [null]. *)
Definition js_match (r : regex) (s : jsstring) : option result :=
  snd <$> search r s.

(** The first capture group of a match. *)
Definition group1 (m : result) : jsstring := nth 0 (groups m) [].

(** One pass of a [g]-flagged expression over the text: the matches, and
    between them the characters no match covers. [skip] counts the
    characters of the last match still to step over. *)
Inductive piece :=
| Matched (m : jsstring)
| Plain (c : ascii).

Fixpoint scan (r : regex) (s : jsstring) (skip : nat) : list piece :=
  match s with
  | [] =>
      match skip, match_here r [] with
      | 0, Some _ => [Matched []]
      | _, _ => []
      end
  | c :: s' =>
      match skip with
      | S n => scan r s' n
      | 0 =>
          match match_here r s with
          | Some m =>
              match length (matched m) with
              | 0 => Matched [] :: Plain c :: scan r s' 0
              | S n => Matched (matched m) :: scan r s' n
              end
          | None => Plain c :: scan r s' 0
          end
      end
  end.

(** [s.match(/r/g)]: the matched texts, or [null] when there is none. *)
Definition js_match_all (r : regex) (s : jsstring) : option (list jsstring) :=
  match omap (fun p => match p with Matched m => Some m | Plain _ => None end)
             (scan r s 0) with
  | [] => None
  | ms => Some ms
  end.

(** [s.replace(/r/g, by)]. *)
Definition js_replace_all (r : regex) (by_ : jsstring) (s : jsstring) : jsstring :=
  concat (map (fun p => match p with Matched _ => by_ | Plain c => [c] end)
              (scan r s 0)).

(** [s.replace(/r/, by)]: the first match only. *)
Definition js_replace (r : regex) (by_ : jsstring) (s : jsstring) : jsstring :=
  match search r s with
  | Some (pre, m) => pre ++ by_ ++ after m
  | None => s
  end.

(** [s.split(/r/)] for an expression that matches no empty text: the runs
    of characters between the matches. *)
Fixpoint split_pieces (ps : list piece) (cur : jsstring) : list jsstring :=
  match ps with
  | [] => [cur]
  | Plain c :: ps' => split_pieces ps' (cur ++ [c])
  | Matched _ :: ps' => cur :: split_pieces ps' []
  end.

Definition js_split (r : regex) (s : jsstring) : list jsstring :=
  split_pieces (scan r s 0) [].

(** Canonicalisation under the [i] flag, for patterns whose literal
    characters are ASCII: a code unit outside ASCII never matches one. *)
Definition canon (c : ascii) : ascii :=
  let n := nat_of_ascii c in
  if (97 <=? n)%nat && (n <=? 122)%nat then ascii_of_nat (n - 32) else c.

Definition chr (c : ascii) : regex := Class (Ascii.eqb c).
Definition chr_i (c : ascii) : regex := Class (fun x =>
  Ascii.eqb (canon x) (canon c)).

Fixpoint lit (s : jsstring) : regex :=
  match s with
  | [] => Eps
  | c :: s' => Seq (chr c) (lit s')
  end.

Fixpoint lit_i (s : jsstring) : regex :=
  match s with
  | [] => Eps
  | c :: s' => Seq (chr_i c) (lit_i s')
  end.

Definition plus (p : ascii -> bool) : regex := Seq (Class p) (Star true p).

Fixpoint seqs (rs : list regex) : regex :=
  match rs with
  | [] => Eps
  | [r] => r
  | r :: rs' => Seq r (seqs rs')
  end.

Definition is_not (c : ascii) : ascii -> bool := fun x => negb (Ascii.eqb x c).
Definition any_char : ascii -> bool := fun _ => true.
Definition is_digit (c : ascii) : bool :=
  let n := nat_of_ascii c in (48 <=? n)%nat && (n <=? 57)%nat.

End Regex.

(** ** String methods *)

(** [WhiteSpace] and [LineTerminator] code units below 256. *)
Definition is_space (c : ascii) : bool :=
  let n := nat_of_ascii c in
  ((9 <=? n)%nat && (n <=? 13)%nat) || (n =? 32)%nat || (n =? 160)%nat.

Fixpoint trim_start (s : jsstring) : jsstring :=
  match s with
  | c :: s' => if is_space c then trim_start s' else s
  | [] => []
  end.

Definition trim (s : jsstring) : jsstring :=
  rev (trim_start (rev (trim_start s))).

Definition toLowerCase_char (c : ascii) : ascii :=
  let n := nat_of_ascii c in
  if ((65 <=? n)%nat && (n <=? 90)%nat)
     || ((192 <=? n)%nat && (n <=? 222)%nat && negb (n =? 215)%nat)
  then ascii_of_nat (n + 32) else c.

Definition toLowerCase (s : jsstring) : jsstring := map toLowerCase_char s.

Fixpoint starts_with (p s : jsstring) : bool :=
  match p, s with
  | [], _ => true
  | a :: p', b :: s' => Ascii.eqb a b && starts_with p' s'
  | _ :: _, [] => false
  end.

(** [s.includes(p)]. *)
Fixpoint includes (p s : jsstring) : bool :=
  starts_with p s ||
  match s with
  | [] => false
  | _ :: s' => includes p s'
  end.

(** ** Values read from JSON *)

(** A value as [JSON.parse] builds it, over the host's numbers. An object
    is the list of its own properties. *)
#[warnings="-register-all"]
Inductive json (number : Type) :=
| JNull
| JBool (b : bool)
| JNum (n : number)
| JStr (s : jsstring)
| JArr (items : list (json number))
| JObj (props : list (jsstring * json number)).

Arguments JNull {number}.
Arguments JBool {number} b.
Arguments JNum {number} n.
Arguments JStr {number} s.
Arguments JArr {number} items.
Arguments JObj {number} props.

(** ** The host

    What the script takes from its platform and from the network: numbers,
    [JSON.parse] ([None] stands for the thrown [SyntaxError]), the date
    formats [Date] reads beyond the ISO calendar date, and [fetchUrl] over
    the state of the world ([None] stands for a rejected promise). *)
Class Host := {
  number : Type;
  number_truthy : number -> bool;
  number_same : number -> number -> bool;
  JSON_parse : jsstring -> option (json number);
  Date_parse_other : jsstring -> option Z;
  World : Type;
  fetchUrl : jsstring -> World -> option jsstring * World
}.

Module Scrape.
Import Regex.

(** The outcome of a block that may throw. *)
Inductive completion (A : Type) :=
| Normal (a : A)
| Throw.
Arguments Normal {A} a.
Arguments Throw {A}.

Section WithHost.
Context `{Host}.

Abbreviation jsval := (json number).

(** *** extractEmbedInfo *)

Inductive embed_type := album | track.

Record embedInfo := mkEmbedInfo { type : embed_type; id : jsstring }.

Definition is_eq_or_colon (c : ascii) : bool :=
  Ascii.eqb c "="%char || Ascii.eqb c ":"%char.

(** [/album[=:](\d+)/] and [/track[=:](\d+)/] *)
Definition id_re (kind : jsstring) : regex :=
  seqs [lit kind; Class is_eq_or_colon; Group (plus is_digit)].
Definition album_id_re : regex := id_re (str "album").
Definition track_id_re : regex := id_re (str "track").

Definition extractEmbedInfo (html : jsstring) : option embedInfo :=
  match js_match album_id_re html with
  | Some albumMatch => Some (mkEmbedInfo album (group1 albumMatch))
  | None =>
      match js_match track_id_re html with
      | Some trackMatch => Some (mkEmbedInfo track (group1 trackMatch))
      | None => None
      end
  end.

(** *** buildEmbedHtml *)

Definition type_name (t : embed_type) : jsstring :=
  match t with album => str "album" | track => str "track" end.

Fixpoint join (sep : jsstring) (parts : list jsstring) : jsstring :=
  match parts with
  | [] => []
  | [p] => p
  | p :: ps => p ++ sep ++ join sep ps
  end.

Definition buildEmbedHtml (embedInfo : embedInfo) : jsstring :=
  let baseUrl := str "https://bandcamp.com/EmbeddedPlayer" in
  let params :=
    [ type_name (type embedInfo) ++ str "=" ++ id embedInfo;
      str "size=small";
      str "bgcol=0a0a0a";
      str "linkcol=888888";
      str "transparent=true" ] in
  str "<iframe style=" ++ [dquote]
    ++ str "border: 0; width: 100%; height: 42px;" ++ [dquote]
    ++ str " src=" ++ [dquote] ++ baseUrl ++ str "/" ++ join (str "/") params
    ++ [dquote] ++ str " seamless></iframe>".

(** *** extractArtist, extractThumbnail, extractAlbumTitle *)

(** An attribute, name=value with the value in double quotes, as the
    patterns write it. *)
Definition attr (name value : string) : jsstring :=
  str name ++ str "=" ++ [dquote] ++ str value ++ [dquote].

(** [/<span itemprop=\x22byArtist\x22[^>]*>([^<]+)<\/span>/i] *)
Definition byArtist_re : regex :=
  seqs [lit_i (str "<span " ++ attr "itemprop" "byArtist");
        Star true (is_not ">"); chr ">";
        Group (plus (is_not "<")); lit_i (str "</span>")].

(** [/<meta property=\x22og:...\x22 content=\x22([^\x22]+)\x22/i] *)
Definition og_meta_re (property : string) : regex :=
  seqs [lit_i (str "<meta " ++ attr "property" property ++ str " content=" ++ [dquote]);
        Group (plus (is_not dquote)); chr dquote].

Definition extractArtist (html : jsstring) : option jsstring :=
  match js_match byArtist_re html with
  | Some m => Some (trim (group1 m))
  | None =>
      match js_match (og_meta_re "og:site_name") html with
      | Some ogMatch => Some (group1 ogMatch)
      | None => None
      end
  end.

Definition extractThumbnail (html : jsstring) : option jsstring :=
  match js_match (og_meta_re "og:image") html with
  | Some m => Some (group1 m)
  | None => None
  end.

(** [/<h2 class=\x22trackTitle\x22[^>]*>([^<]+)<\/h2>/i] *)
Definition trackTitle_re : regex :=
  seqs [lit_i (str "<h2 " ++ attr "class" "trackTitle");
        Star true (is_not ">"); chr ">";
        Group (plus (is_not "<")); lit_i (str "</h2>")].

Definition extractAlbumTitle (html : jsstring) : option jsstring :=
  match js_match trackTitle_re html with
  | Some m => Some (trim (group1 m))
  | None =>
      match js_match (og_meta_re "og:title") html with
      | Some ogMatch => Some (group1 ogMatch)
      | None => None
      end
  end.

(** *** extractLatestRelease *)

(** [/href=\x22(\/album\/[^\x22]+)\x22/] and the same with [track];
    [\x22] is the double quote. *)
Definition release_link_re (kind : string) : regex :=
  seqs [lit (str "href=" ++ [dquote]);
        Group (Seq (lit (str "/" ++ str kind ++ str "/")) (plus (is_not dquote)));
        chr dquote].

(** [/\/$/] *)
Definition trailing_slash_re : regex := Seq (chr "/") Eos.

Definition extractLatestRelease (html baseUrl : jsstring) : option jsstring :=
  match js_match (release_link_re "album") html with
  | Some albumMatch =>
      let base := js_replace trailing_slash_re [] baseUrl in
      Some (base ++ group1 albumMatch)
  | None =>
      match js_match (release_link_re "track") html with
      | Some trackMatch =>
          let base := js_replace trailing_slash_re [] baseUrl in
          Some (base ++ group1 trackMatch)
      | None => None
      end
  end.

(** *** extractGenresAndLocation *)

(** Truthiness; [None] is [undefined]. *)
Definition truthy (v : option jsval) : bool :=
  match v with
  | None => false
  | Some JNull => false
  | Some (JBool b) => b
  | Some (JNum n) => number_truthy n
  | Some (JStr s) => truthy_str s
  | Some (JArr _) => true
  | Some (JObj _) => true
  end.

Definition jsstring_eqb (a b : jsstring) : bool := bool_decide (a = b).

(** The comparison [Array.prototype.includes] makes. The objects and arrays
    of a parsed text are all distinct, and a tag list holds none of them
    twice, so one of them is never found. *)
Definition same_value (x y : jsval) : bool :=
  match x, y with
  | JNull, JNull => true
  | JBool a, JBool b => Bool.eqb a b
  | JNum a, JNum b => number_same a b
  | JStr a, JStr b => jsstring_eqb a b
  | _, _ => false
  end.

Definition tags_include (x : jsval) (allTags : list jsval) : bool :=
  existsb (same_value x) allTags.

Fixpoint lookup_prop (key : jsstring) (props : list (jsstring * jsval)) : option jsval :=
  match props with
  | [] => None
  | (k, v) :: props' => if jsstring_eqb k key then Some v else lookup_prop key props'
  end.

(** [v.tags] and [v.name]: reading a property of [null] throws, a value
    without the property gives [undefined]. *)
Definition get_prop (v : jsval) (key : jsstring) : completion (option jsval) :=
  match v with
  | JNull => Throw
  | JObj props => Normal (lookup_prop key props)
  | _ => Normal None
  end.

(** [/class=\x22tralbum-tags\x22[^>]*>([\s\S]*?)<\/div>/i] *)
Definition tralbum_tags_re : regex :=
  seqs [lit_i (attr "class" "tralbum-tags");
        Star true (is_not ">"); chr ">";
        Group (Star false any_char); lit_i (str "</div>")].

(** [/<a[^>]*>([^<]+)<\/a>/gi] *)
Definition anchor_re : regex :=
  seqs [lit_i (str "<a"); Star true (is_not ">"); chr ">";
        Group (plus (is_not "<")); lit_i (str "</a>")].

(** [/<[^>]+>/g] *)
Definition any_tag_re : regex :=
  seqs [chr "<"; plus (is_not ">"); chr ">"].

(** [/data-tralbum=\x22([^\x22]+)\x22/] *)
Definition data_tralbum_re : regex :=
  seqs [lit (str "data-tralbum=" ++ [dquote]);
        Group (plus (is_not dquote)); chr dquote].

(** [/<a class=\x22tag\x22[^>]*>([^<]+)<\/a>/gi] *)
Definition tag_link_re : regex :=
  seqs [lit_i (str "<a " ++ attr "class" "tag");
        Star true (is_not ">"); chr ">";
        Group (plus (is_not "<")); lit_i (str "</a>")].

(** The body of both [forEach] callbacks over links. *)
Definition push_link (link : jsstring) (allTags : list jsval) : list jsval :=
  let text := trim (js_replace_all any_tag_re [] link) in
  if truthy_str text && negb (tags_include (JStr text) allTags)
  then allTags ++ [JStr text]
  else allTags.

Definition forEach_link (links : list jsstring) (allTags : list jsval) : list jsval :=
  fold_left (fun acc link => push_link link acc) links allTags.

(** [data.tags.forEach(tag => ...)]: a [null] element makes [tag.name]
    throw, which leaves the tags pushed so far. *)
Fixpoint forEach_tag (tags : list jsval) (allTags : list jsval)
    : completion unit * list jsval :=
  match tags with
  | [] => (Normal tt, allTags)
  | tag :: rest =>
      match get_prop tag (str "name") with
      | Throw => (Throw, allTags)
      | Normal name =>
          match name with
          | Some v =>
              if truthy name && negb (tags_include v allTags)
              then forEach_tag rest (allTags ++ [v])
              else forEach_tag rest allTags
          | None => forEach_tag rest allTags
          end
      end
  end.

(** The [try] block of the second pattern. *)
Definition try_json_tags (captured : jsstring) (allTags : list jsval)
    : completion unit * list jsval :=
  let decoded :=
    js_replace_all (lit (str "&amp;")) (str "&")
      (js_replace_all (lit (str "&quot;")) [dquote] captured) in
  match JSON_parse decoded with
  | None => (Throw, allTags)
  | Some data =>
      match get_prop data (str "tags") with
      | Throw => (Throw, allTags)
      | Normal tags =>
          if truthy tags then
            match tags with
            | Some (JArr items) => forEach_tag items allTags
            | _ => (Throw, allTags)
            end
          else (Normal tt, allTags)
      end
  end.

Definition tags_pattern1 (html : jsstring) (allTags : list jsval) : list jsval :=
  match js_match tralbum_tags_re html with
  | Some tagMatch =>
      match js_match_all anchor_re (group1 tagMatch) with
      | Some tagLinks => forEach_link tagLinks allTags
      | None => allTags
      end
  | None => allTags
  end.

Definition tags_pattern2 (html : jsstring) (allTags : list jsval) : list jsval :=
  match js_match data_tralbum_re html with
  | Some jsonMatch => snd (try_json_tags (group1 jsonMatch) allTags)
  | None => allTags
  end.

Definition tags_pattern3 (html : jsstring) (allTags : list jsval) : list jsval :=
  match js_match_all tag_link_re html with
  | Some tagLinkMatches => forEach_link tagLinkMatches allTags
  | None => allTags
  end.

Record GenresAndLocation := mkGenresAndLocation {
  genres : list jsval;
  location : option jsval
}.

Definition extractGenresAndLocation (html : jsstring) : GenresAndLocation :=
  let allTags := [] in
  let allTags := tags_pattern1 html allTags in
  let allTags := tags_pattern2 html allTags in
  let allTags := tags_pattern3 html allTags in
  let location :=
    if (0 <? length allTags)%nat then last allTags else None in
  let genres := take 4 (removelast allTags) in
  mkGenresAndLocation genres location.

End WithHost.
End Scrape.

(** ** fetchBandcampData *)

Module Fetch.
Import Regex Scrape.

(** A property of an object literal: written with a value, or not there. *)
Inductive property (A : Type) :=
| Absent
| Present (a : A).
Arguments Absent {A}.
Arguments Present {A} a.

Section WithHost.
Context `{Host}.

Abbreviation jsval := (json number).

(** The object [fetchBandcampData] returns; [None] is [null]. *)
Record BandcampData := mkBandcampData {
  embedHtml : option jsstring;
  trackTitle : option jsstring;
  albumTitle : option jsstring;
  artist : property (option jsstring);
  thumbnailUrl : property (option jsstring);
  genres : list jsval;
  location : option jsval
}.

(** The network with the list of the requests made of it. *)
Record net := mkNet {
  world : World;
  requests : list jsstring
}.

Definition fetch (url : jsstring) (n : net) : option jsstring * net :=
  let '(res, w) := fetchUrl url (world n) in
  (res, mkNet w (requests n ++ [url])).

(** The metadata of a page once it is fetched. *)
Definition page_data (pageHtml : jsstring) : BandcampData :=
  let gl := extractGenresAndLocation pageHtml in
  let embedInfo := extractEmbedInfo pageHtml in
  let albumTitle := extractAlbumTitle pageHtml in
  let artist := extractArtist pageHtml in
  let thumbnailUrl := extractThumbnail pageHtml in
  match embedInfo with
  | None =>
      mkBandcampData None None albumTitle Absent Absent
        (Scrape.genres gl) (Scrape.location gl)
  | Some embedInfo =>
      let embedHtml := buildEmbedHtml embedInfo in
      mkBandcampData (Some embedHtml) albumTitle albumTitle
        (Present artist) (Present thumbnailUrl)
        (Scrape.genres gl) (Scrape.location gl)
  end.

(** The [try] block: [Throw] when a fetch is rejected. *)
Definition fetch_body (bandcampUrl : jsstring) (n : net)
    : completion BandcampData * net :=
  match fetch bandcampUrl n with
  | (None, n1) => (Throw, n1)
  | (Some pageHtml, n1) =>
      if negb (includes (str "/album/") bandcampUrl)
         && negb (includes (str "/track/") bandcampUrl)
      then
        match extractLatestRelease pageHtml bandcampUrl with
        | Some latestRelease =>
            if truthy_str latestRelease then
              match fetch latestRelease n1 with
              | (None, n2) => (Throw, n2)
              | (Some pageHtml2, n2) => (Normal (page_data pageHtml2), n2)
              end
            else (Normal (page_data pageHtml), n1)
        | None => (Normal (page_data pageHtml), n1)
        end
      else (Normal (page_data pageHtml), n1)
  end.

Definition fetchBandcampData (bandcampUrl : jsstring) (n : net)
    : option BandcampData * net :=
  if negb (truthy_str bandcampUrl) || negb (includes (str "bandcamp.com") bandcampUrl)
  then (None, n)
  else
    match fetch_body bandcampUrl n with
    | (Normal data, n') => (Some data, n')
    | (Throw, n') => (None, n')
    end.

End WithHost.
End Fetch.

(** ** Dates *)

Module JsDate.

Definition digit_val (c : ascii) : option Z :=
  if Regex.is_digit c then Some (Z.of_nat (nat_of_ascii c) - 48)%Z else None.

Definition is_leap (y : Z) : bool :=
  ((y mod 4 =? 0) && negb (y mod 100 =? 0) || (y mod 400 =? 0))%Z.

Definition days_in_month (y m : Z) : Z :=
  (if m =? 2 then (if is_leap y then 29 else 28)
   else if (m =? 4) || (m =? 6) || (m =? 9) || (m =? 11) then 30
   else 31)%Z.

(** Days from 1970-01-01 to the given day of the proleptic Gregorian
    calendar. *)
Definition days_from_civil (y m d : Z) : Z :=
  (let y' := if m <=? 2 then y - 1 else y in
   let era := y' / 400 in
   let yoe := y' - era * 400 in
   let mp := if 2 <? m then m - 3 else m + 9 in
   let doy := (153 * mp + 2) / 5 + d - 1 in
   let doe := yoe * 365 + yoe / 4 - yoe / 100 + doy in
   era * 146097 + doe - 719468)%Z.

Definition msPerDay : Z := 86400000.

(** The date-only form YYYY-MM-DD of the date-time string format, a UTC
    time value. *)
Definition parse_iso_date (s : jsstring) : option Z :=
  match s with
  | [y1; y2; y3; y4; "-"%char; m1; m2; "-"%char; d1; d2] =>
      match digit_val y1, digit_val y2, digit_val y3, digit_val y4,
            digit_val m1, digit_val m2, digit_val d1, digit_val d2 with
      | Some a, Some b, Some c, Some d, Some e, Some f, Some g, Some h =>
          let y := (a * 1000 + b * 100 + c * 10 + d)%Z in
          let m := (e * 10 + f)%Z in
          let dd := (g * 10 + h)%Z in
          if ((1 <=? m) && (m <=? 12) && (1 <=? dd) && (dd <=? days_in_month y m))%Z
          then Some (days_from_civil y m dd * msPerDay)%Z
          else None
      | _, _, _, _, _, _, _, _ => None
      end
  | _ => None
  end.

(** The time value of [new Date(s)]; [None] is [NaN], an invalid date. *)
Definition time_value `{Host} (s : jsstring) : option Z :=
  match parse_iso_date s with
  | Some t => Some t
  | None => Date_parse_other s
  end.

End JsDate.

(** ** Array.prototype.sort

    The sort is stable; the comparator's result is read by its sign, [NaN]
    as zero. With a comparator that is not a consistent order, the
    language leaves the outcome to the implementation; the model is then
    one of the permitted outcomes. *)

Module JsSort.

Section Sort.
Context {A : Type} (comparefn : A -> A -> option Z).

(** [x] is to stay before [y]. *)
Definition keeps_before (x y : A) : bool :=
  match comparefn x y with
  | Some v => (v <=? 0)%Z
  | None => true
  end.

Fixpoint insert (x : A) (l : list A) : list A :=
  match l with
  | [] => [x]
  | y :: l' => if keeps_before x y then x :: y :: l' else y :: insert x l'
  end.

Fixpoint sort (l : list A) : list A :=
  match l with
  | [] => []
  | x :: l' => insert x (sort l')
  end.

End Sort.
End JsSort.

(** ** build *)

Module Build.
Import Regex Scrape Fetch.

(** [x || ''] for a field that may be missing from its row. *)
Definition or_empty (x : option jsstring) : jsstring :=
  match x with
  | Some s => s
  | None => []
  end.

(** Truthiness of [row[i]]. *)
Definition truthy_field (x : option jsstring) : bool :=
  match x with
  | Some s => truthy_str s
  | None => false
  end.

(** A venue object: one of the table, with its five properties written,
    or the stub [{ name }] with nothing else. *)
Record Venue := mkVenue {
  name : jsstring;
  address : property jsstring;
  website : property jsstring;
  neighborhood : property jsstring;
  capacity : property jsstring
}.

(** [{ name: venueName }] *)
Definition stub (venueName : jsstring) : Venue :=
  mkVenue venueName Absent Absent Absent Absent.

(** The [venues] object. It is a plain object ([{}]): besides the
    properties the loop writes on it, it has a prototype, [Object.prototype]
    at first, and the venue assigned to [__proto__] once a row carries
    that name. *)
Record table := mkTable {
  own : gmap jsstring Venue;
  proto : option Venue
}.

Definition empty_table : table := mkTable ∅ None.

Definition proto_key : jsstring := str "__proto__".

(** The functions every object inherits from [Object.prototype]; its one
    other property is the accessor [__proto__]. *)
Definition object_prototype_methods : list jsstring :=
  [ str "constructor"; str "__defineGetter__"; str "__defineSetter__";
    str "hasOwnProperty"; str "__lookupGetter__"; str "__lookupSetter__";
    str "isPrototypeOf"; str "propertyIsEnumerable"; str "toString";
    str "valueOf"; str "toLocaleString" ].

(** What [venues[k]] can read, hence what the [venue] of a show can be: a
    venue object, a function of [Object.prototype], [Object.prototype]
    itself, or the text of a property of the venue that became the
    prototype. *)
Inductive venue_value :=
| VenueObject (v : Venue)
| InheritedMethod (k : jsstring)
| ObjectPrototype
| VenueText (s : jsstring).

Definition written (p : property jsstring) : option jsstring :=
  match p with
  | Present s => Some s
  | Absent => None
  end.

(** [v[k]] as far as the properties of the venue object itself go. *)
Definition own_field (v : Venue) (k : jsstring) : option jsstring :=
  if jsstring_eqb k (str "name") then Some (name v)
  else if jsstring_eqb k (str "address") then written (address v)
  else if jsstring_eqb k (str "website") then written (website v)
  else if jsstring_eqb k (str "neighborhood") then written (neighborhood v)
  else if jsstring_eqb k (str "capacity") then written (capacity v)
  else None.

(** [Object.prototype[k]], read for an object whose prototype is [p]
    ([None]: [Object.prototype]): the getter of [__proto__] answers with
    that prototype. *)
Definition object_prototype_get (k : jsstring) (p : option Venue) : option venue_value :=
  if jsstring_eqb k proto_key then
    Some (match p with
          | Some v => VenueObject v
          | None => ObjectPrototype
          end)
  else if existsb (jsstring_eqb k) object_prototype_methods then Some (InheritedMethod k)
  else None.

(** [venues[k]]: the own property, or else what the prototype chain
    holds; [None] for [undefined]. *)
Definition get (venues : table) (k : jsstring) : option venue_value :=
  match own venues !! k with
  | Some v => Some (VenueObject v)
  | None =>
      match proto venues with
      | Some p =>
          match own_field p k with
          | Some s => Some (VenueText s)
          | None => object_prototype_get k (proto venues)
          end
      | None => object_prototype_get k None
      end
  end.

(** [venues[k] = v]: the setter of [__proto__] makes the venue the
    prototype of the table and writes no property; any other name becomes
    an own property. *)
Definition set (venues : table) (k : jsstring) (v : Venue) : table :=
  if jsstring_eqb k proto_key then mkTable (own venues) (Some v)
  else mkTable (<[ k := v ]> (own venues)) (proto venues).

Definition truthy_value (x : venue_value) : bool :=
  match x with
  | VenueText s => truthy_str s
  | _ => true
  end.

Definition add_venue (venues : table) (row : list jsstring) : table :=
  match row !! 0%nat with
  | Some name =>
      if truthy_str name then
        set venues name
          (mkVenue name
             (Present (or_empty (row !! 1%nat)))
             (Present (or_empty (row !! 2%nat)))
             (Present (or_empty (row !! 3%nat)))
             (Present (or_empty (row !! 4%nat))))
      else venues
  | None => venues
  end.

Definition build_venues (venuesData : list (list jsstring)) : table :=
  fold_left add_venue venuesData empty_table.

(** [fetchCSV] once the text has arrived: parse, skip the header row. *)
Definition csv_rows (data : jsstring) : list (list jsstring) :=
  drop 1 (CSV.parseCSV data).

Section WithHost.
Context `{Host}.

(** A show object: [bandcampUrl] is there until the loop deletes it,
    [bandcamp] is set only for a non-empty list. *)
Record Show := mkShow {
  date : jsstring;
  venue : venue_value;
  title : jsstring;
  time : jsstring;
  cost : jsstring;
  age : jsstring;
  linkUrl : jsstring;
  imageUrl : jsstring;
  details : jsstring;
  multiples : jsstring;
  bandcampUrl : property jsstring;
  bandcamp : property (list BandcampData)
}.

(** The filter of [showsRaw]: [row[0] && row[1] && row[2]]. *)
Definition has_required (row : list jsstring) : bool :=
  truthy_field (row !! 0%nat) && truthy_field (row !! 1%nat)
  && truthy_field (row !! 2%nat).

(** [venues[venueName] || { name: venueName }] *)
Definition resolve_venue (venues : table) (venueName : jsstring) : venue_value :=
  match get venues venueName with
  | Some x => if truthy_value x then x else VenueObject (stub venueName)
  | None => VenueObject (stub venueName)
  end.

(** The [map] of [showsRaw], on a row that passed the filter. *)
Definition make_show (venues : table) (row : list jsstring) : Show :=
  mkShow (or_empty (row !! 0%nat))
         (resolve_venue venues (or_empty (row !! 1%nat)))
         (or_empty (row !! 2%nat))
         (or_empty (row !! 3%nat))
         (or_empty (row !! 4%nat))
         (or_empty (row !! 5%nat))
         (or_empty (row !! 6%nat))
         (or_empty (row !! 7%nat))
         (or_empty (row !! 8%nat))
         (or_empty (row !! 9%nat))
         (Present (or_empty (row !! 12%nat)))
         Absent.

Definition showsRaw (venues : table) (showsData : list (list jsstring))
    : list Show :=
  map (make_show venues) (List.filter has_required showsData).

(** What the loops of [build] read and write: the network, the cache and
    the two counters. A cached value is an object, hence truthy; a key
    holds the host name the URLs are filtered by, so it is none of the
    property names every object inherits. *)
Record state := mkState {
  network : net;
  bandcampCache : gmap jsstring BandcampData;
  cacheHits : nat;
  cacheMisses : nat
}.

(** One turn of [for (const url of urls)]. *)
Definition url_step (url : jsstring) (bandcampData : list BandcampData) (st : state)
    : list BandcampData * state :=
  let cacheKey := toLowerCase url in
  match bandcampCache st !! cacheKey with
  | Some cached =>
      (bandcampData ++ [cached],
       mkState (network st) (bandcampCache st) (S (cacheHits st)) (cacheMisses st))
  | None =>
      match fetchBandcampData url (network st) with
      | (Some data, n) =>
          (bandcampData ++ [data],
           mkState n (<[ cacheKey := data ]> (bandcampCache st))
                   (cacheHits st) (S (cacheMisses st)))
      | (None, n) =>
          (bandcampData,
           mkState n (bandcampCache st) (cacheHits st) (cacheMisses st))
      end
  end.

Fixpoint url_loop (urls : list jsstring) (bandcampData : list BandcampData) (st : state)
    : list BandcampData * state :=
  match urls with
  | [] => (bandcampData, st)
  | url :: rest =>
      let '(bandcampData', st') := url_step url bandcampData st in
      url_loop rest bandcampData' st'
  end.

Definition is_comma_or_newline (c : ascii) : bool :=
  Ascii.eqb c ","%char || Ascii.eqb c LF.

(** [.split(/[,\n]+/).map(u => u.trim()).filter(u => u && u.includes(...))] *)
Definition media_urls (bandcampUrl : jsstring) : list jsstring :=
  List.filter (fun u => truthy_str u && includes (str "bandcamp.com") u)
    (map trim (js_split (plus is_comma_or_newline) bandcampUrl)).

Definition set_bandcamp (show : Show) (bandcampData : list BandcampData) : Show :=
  mkShow (date show) (venue show) (title show) (time show) (cost show) (age show)
         (linkUrl show) (imageUrl show) (details show) (multiples show)
         (bandcampUrl show) (Present bandcampData).

Definition delete_bandcampUrl (show : Show) : Show :=
  mkShow (date show) (venue show) (title show) (time show) (cost show) (age show)
         (linkUrl show) (imageUrl show) (details show) (multiples show)
         Absent (bandcamp show).

(** One turn of [for (const show of showsRaw)]. *)
Definition show_step (show : Show) (st : state) : Show * state :=
  match bandcampUrl show with
  | Present u =>
      if truthy_str u then
        let '(bandcampData, st') := url_loop (media_urls u) [] st in
        let show' :=
          if (0 <? length bandcampData)%nat then set_bandcamp show bandcampData
          else show in
        (delete_bandcampUrl show', st')
      else (delete_bandcampUrl show, st)
  | Absent => (delete_bandcampUrl show, st)
  end.

Fixpoint show_loop (raw : list Show) (shows : list Show) (st : state)
    : list Show * state :=
  match raw with
  | [] => (shows, st)
  | show :: rest =>
      let '(show', st') := show_step show st in
      show_loop rest (shows ++ [show']) st'
  end.

(** [(a, b) => new Date(a.date) - new Date(b.date)] *)
Definition by_date (a b : Show) : option Z :=
  match JsDate.time_value (date a), JsDate.time_value (date b) with
  | Some ta, Some tb => Some (ta - tb)%Z
  | _, _ => None
  end.

Record output := mkOutput {
  venues : table;
  shows : list Show
}.

(** [build], from the two texts the sheet served and the cache as loaded,
    to the document written and the cache saved. *)
Definition build (venuesCsv showsCsv : jsstring) (st : state) : output * state :=
  let venuesData := csv_rows venuesCsv in
  let venues := build_venues venuesData in
  let showsData := csv_rows showsCsv in
  let raw := showsRaw venues showsData in
  let '(shows, st') := show_loop raw [] st in
  (mkOutput venues (JsSort.sort by_date shows), st').

End WithHost.
End Build.

(** * Vocabulary of the properties *)

Module RegexSpec.
Import Regex.

(** [matches r w rest cs]: the expression [r] can match the text [w] when
    [rest] follows it, making the captures [cs]. *)
Fixpoint matches (r : regex) (w rest : jsstring) (cs : list jsstring) : Prop :=
  match r with
  | Eps => w = [] /\ cs = []
  | Class p => (exists c, w = [c] /\ p c = true) /\ cs = []
  | Seq r1 r2 =>
      exists w1 w2 cs1 cs2,
        w = w1 ++ w2 /\ cs = cs1 ++ cs2
        /\ matches r1 w1 (w2 ++ rest) cs1 /\ matches r2 w2 rest cs2
  | Star _ p => forallb p w = true /\ cs = []
  | Group r1 => exists cs1, matches r1 w rest cs1 /\ cs = cs1 ++ [w]
  | Eos => w = [] /\ rest = [] /\ cs = []
  end.

(** The expression matches somewhere in the text. *)
Definition occurs (r : regex) (s : jsstring) : Prop :=
  exists pre w rest cs, s = pre ++ w ++ rest /\ matches r w rest cs.

(** The expression matches at the start of the text. *)
Definition matches_at_start (r : regex) (s : jsstring) : Prop :=
  exists w rest cs, s = w ++ rest /\ matches r w rest cs.

(** The match that begins after [pre] is the leftmost one. *)
Definition leftmost (r : regex) (s pre : jsstring) : Prop :=
  forall pre' s', s = pre' ++ s' -> length pre' < length pre ->
    ~ matches_at_start r s'.

End RegexSpec.

Module EmbedSpec.
Import Regex Scrape.

(** The text starts with an identifier pattern: the keyword, [=] or [:],
    a digit. *)
Definition starts_id (kind s : jsstring) : Prop :=
  exists sep d post,
    s = kind ++ sep :: d :: post /\ is_eq_or_colon sep = true /\ is_digit d = true.

(** The identifier pattern matches somewhere in the markup. *)
Definition has_id (kind html : jsstring) : Prop :=
  exists pre s, html = pre ++ s /\ starts_id kind s.

Definition no_digit_next (post : jsstring) : Prop :=
  match post with
  | [] => True
  | c :: _ => is_digit c = false
  end.

(** [idv] is the identifier of the first place the pattern matches: all
    the digits that follow the keyword and its separator there. *)
Definition first_id (kind html idv : jsstring) : Prop :=
  exists pre sep post,
    html = pre ++ kind ++ sep :: idv ++ post
    /\ is_eq_or_colon sep = true
    /\ idv <> [] /\ forallb is_digit idv = true /\ no_digit_next post
    /\ (forall pre' s', html = pre' ++ s' -> length pre' < length pre ->
          ~ starts_id kind s').

End EmbedSpec.

Module ReleaseSpec.
Import Regex Scrape.

(** The opening of a link, [href=] and a double quote. *)
Definition href_open : jsstring := str "href=" ++ [dquote].

(** The path of a release link of the given kind: the kind between
    slashes, then a non-empty slug without a double quote. *)
Definition release_path (kind : string) (path : jsstring) : Prop :=
  exists slug,
    path = str "/" ++ str kind ++ str "/" ++ slug
    /\ slug <> [] /\ forallb (is_not dquote) slug = true.

(** The text starts with a release link of the given kind. *)
Definition starts_link (kind : string) (s : jsstring) : Prop :=
  exists path post, s = href_open ++ path ++ dquote :: post /\ release_path kind path.

(** The link pattern matches somewhere in the page. *)
Definition has_link (kind : string) (html : jsstring) : Prop :=
  exists pre s, html = pre ++ s /\ starts_link kind s.

(** [path] is the path of the first link of the given kind in the page. *)
Definition first_link (kind : string) (html path : jsstring) : Prop :=
  exists pre post,
    html = pre ++ href_open ++ path ++ dquote :: post
    /\ release_path kind path
    /\ (forall pre' s', html = pre' ++ s' -> length pre' < length pre ->
          ~ starts_link kind s').

(** The text without its last character when that is a slash. *)
Definition without_trailing_slash (u : jsstring) : jsstring :=
  match rev u with
  | c :: r => if Ascii.eqb c "/"%char then rev r else u
  | [] => u
  end.

Definition is_origin_end (c : ascii) : bool :=
  Ascii.eqb c "/"%char || Ascii.eqb c "?"%char || Ascii.eqb c "#"%char.

Fixpoint until_origin_end (s : jsstring) : jsstring :=
  match s with
  | [] => []
  | c :: s' => if is_origin_end c then [] else c :: until_origin_end s'
  end.

(** The origin of a URL written as scheme, colon, two slashes, host and
    port, then the path: everything before the path. *)
Fixpoint origin (url : jsstring) : jsstring :=
  match url with
  | [] => []
  | c :: url' =>
      if starts_with (str "://") url
      then str "://" ++ until_origin_end (drop 3 url)
      else c :: origin url'
  end.

End ReleaseSpec.

Module TagsSpec.
Import Regex Scrape.

(** The texts of a list, each once, in the order of first appearance. *)
Fixpoint first_seen (l : list jsstring) : list jsstring :=
  match l with
  | [] => []
  | x :: xs => x :: List.filter (fun y => negb (jsstring_eqb y x)) (first_seen xs)
  end.

(** A text that is not among those seen. *)
Definition unseen (seen : list jsstring) (y : jsstring) : bool :=
  negb (existsb (jsstring_eqb y) seen).

Section WithHost.
Context `{Host}.

Abbreviation jsval := (json number).

(** The text of a link: its markup removed, trimmed. *)
Definition link_text (link : jsstring) : jsstring :=
  trim (js_replace_all any_tag_re [] link).

(** The tags a list of links offers: the non-empty texts. *)
Definition link_tags (links : list jsstring) : list jsval :=
  map JStr (List.filter truthy_str (map link_text links)).

(** First strategy: the anchors inside the tag container block. *)
Definition container_tags (html : jsstring) : list jsval :=
  match js_match tralbum_tags_re html with
  | Some block =>
      match js_match_all anchor_re (group1 block) with
      | Some links => link_tags links
      | None => []
      end
  | None => []
  end.

(** The truthy names of the tags of the structured data, up to a [null]
    tag, at which the reading stops. *)
Fixpoint tag_names (items : list jsval) : list jsval :=
  match items with
  | [] => []
  | tag :: rest =>
      match get_prop tag (str "name") with
      | Throw => []
      | Normal (Some v) => if truthy (Some v) then v :: tag_names rest else tag_names rest
      | Normal None => tag_names rest
      end
  end.

Definition decode_entities (captured : jsstring) : jsstring :=
  js_replace_all (lit (str "&amp;")) (str "&")
    (js_replace_all (lit (str "&quot;")) [dquote] captured).

(** Second strategy: the tag names of the embedded structured data, when
    it parses and holds an array of tags. *)
Definition blob_tags (html : jsstring) : list jsval :=
  match js_match data_tralbum_re html with
  | Some blob =>
      match JSON_parse (decode_entities (group1 blob)) with
      | Some (JObj props) =>
          match lookup_prop (str "tags") props with
          | Some (JArr items) => tag_names items
          | _ => []
          end
      | _ => []
      end
  | None => []
  end.

(** Third strategy: the anchors styled as tags, anywhere in the page. *)
Definition standalone_tags (html : jsstring) : list jsval :=
  match js_match_all tag_link_re html with
  | Some links => link_tags links
  | None => []
  end.

(** Adding candidates to a list already merged: one that is found in the
    list is dropped, another goes to the end. *)
Definition add_new (merged : list jsval) (candidate : jsval) : list jsval :=
  if tags_include candidate merged then merged else merged ++ [candidate].

Definition dedup (candidates : list jsval) : list jsval :=
  fold_left add_new candidates [].

Definition candidates (html : jsstring) : list jsval :=
  container_tags html ++ blob_tags html ++ standalone_tags html.

(** The merged tag list of a page. *)
Definition merged_tags (html : jsstring) : list jsval :=
  dedup (candidates html).

Definition texts (l : list string) : list jsval := map (fun s => JStr (str s)) l.

End WithHost.
End TagsSpec.

(** ** A host to run the examples on

    Integers for numbers; a parser that knows one text; four pages on the
    network, one of them unreachable, and a world that counts requests. *)

Module Sample.

Definition blob_text : jsstring :=
  str "{" ++ [dquote] ++ str "tags" ++ [dquote] ++ str ":[{" ++ [dquote]
    ++ str "name" ++ [dquote] ++ str ":" ++ [dquote] ++ str "noise" ++ [dquote]
    ++ str "},null,{" ++ [dquote] ++ str "name" ++ [dquote] ++ str ":"
    ++ [dquote] ++ str "never read" ++ [dquote] ++ str "}]}".

Definition blob_value : json Z :=
  JObj [(str "tags",
         JArr [JObj [(str "name", JStr (str "noise"))];
               JNull;
               JObj [(str "name", JStr (str "never read"))]])].

Definition parse (s : jsstring) : option (json Z) :=
  if Scrape.jsstring_eqb s blob_text then Some blob_value else None.

Definition tag_link (text : string) : jsstring :=
  str "<a " ++ Scrape.attr "class" "tag" ++ str ">" ++ str text ++ str "</a>".

(** A release page: a tag container, the structured data with its quotes
    written as entities, standalone tag links, a player, a byline, artwork
    and a title. *)
Definition tags_markup : jsstring :=
  str "<div " ++ Scrape.attr "class" "tralbum-tags" ++ str ">"
    ++ str "<a href=x>punk</a> <a> </a></div>"
    ++ str "<div data-tralbum=" ++ [dquote]
    ++ Regex.js_replace_all (Regex.chr dquote) (str "&quot;") blob_text
    ++ [dquote] ++ str ">"
    ++ tag_link "punk" ++ tag_link "lo-fi" ++ tag_link " weird "
    ++ tag_link "noise" ++ tag_link "Minneapolis".

Definition byline_markup : jsstring :=
  str "<span " ++ Scrape.attr "itemprop" "byArtist" ++ str "> The Band </span>"
    ++ str "<meta " ++ Scrape.attr "property" "og:image" ++ str " "
    ++ Scrape.attr "content" "https://img.example/cover.jpg" ++ str ">"
    ++ str "<h2 " ++ Scrape.attr "class" "trackTitle" ++ str ">First Songs</h2>".

Definition album_page : jsstring :=
  tags_markup ++ byline_markup ++ str "<!-- album=4242 -->".

(** The same page without a player identifier. *)
Definition plain_page : jsstring := tags_markup ++ byline_markup.

(** An artist page linking to the album. *)
Definition artist_page : jsstring :=
  str "<a href=" ++ [dquote] ++ str "/album/first-songs" ++ [dquote] ++ str ">".

Definition album_url : jsstring := str "https://band.bandcamp.com/album/first-songs".
Definition artist_url : jsstring := str "https://band.bandcamp.com/".
Definition plain_url : jsstring := str "https://other.bandcamp.com/album/plain".
Definition down_url : jsstring := str "https://down.bandcamp.com/album/gone".

Definition serve (url : jsstring) (requests_so_far : nat) : option jsstring * nat :=
  (if Scrape.jsstring_eqb url album_url then Some album_page
   else if Scrape.jsstring_eqb url artist_url then Some artist_page
   else if Scrape.jsstring_eqb url plain_url then Some plain_page
   else None,
   S requests_so_far).

Definition host : Host := {|
  number := Z;
  number_truthy := fun n => negb (Z.eqb n 0);
  number_same := Z.eqb;
  JSON_parse := parse;
  Date_parse_other := fun _ => None;
  World := nat;
  fetchUrl := serve
|}.

(** The network before any request. *)
Definition fresh_net : @Fetch.net host := @Fetch.mkNet host 0%nat [].

End Sample.

Module PipelineSpec.
Import Fetch Build.

Section WithHost.
Context `{Host}.

(** The record one URL yields in a state: the cached one, or else what
    the fetch returns; [None] when it yields none. *)
Definition emitted (url : jsstring) (st : state) : option BandcampData :=
  match bandcampCache st !! toLowerCase url with
  | Some cached => Some cached
  | None => fst (fetchBandcampData url (network st))
  end.

(** The state one URL leaves. *)
Definition after_url (url : jsstring) (st : state) : state :=
  snd (url_step url [] st).

(** What each URL of a list yields, in the order of the list. *)
Fixpoint outcomes (urls : list jsstring) (st : state) : list (option BandcampData) :=
  match urls with
  | [] => []
  | url :: rest => emitted url st :: outcomes rest (after_url url st)
  end.

(** The records among the outcomes, in order. *)
Fixpoint records (outs : list (option BandcampData)) : list BandcampData :=
  match outs with
  | [] => []
  | Some r :: rest => r :: records rest
  | None :: rest => records rest
  end.

(** The state with [k] more cache hits and nothing else changed. *)
Definition with_hits (k : nat) (st : state) : state :=
  mkState (network st) (bandcampCache st) (cacheHits st + k) (cacheMisses st).

End WithHost.
End PipelineSpec.

Module SortSpec.

Section Key.
Context {A : Type} (key : A -> Z).

(** The comparator of a sort by an integer key. *)
Definition by_key (x y : A) : option Z := Some (key x - key y)%Z.

Definition key_le (x y : A) : Prop := (key x <= key y)%Z.

(** The elements of key [t], in the order of the list. *)
Definition with_key (t : Z) (l : list A) : list A :=
  List.filter (fun a => Z.eqb (key a) t) l.

End Key.
End SortSpec.

Module ShowsSpec.
Import Fetch Build.

Section WithHost.
Context `{Host}.






(** The shows the loop of [build] emits, before the sort, for the two
    texts of the sheet. *)
Definition emitted_shows (venuesCsv showsCsv : jsstring) (st : state) : list Show :=
  fst (show_loop (showsRaw (build_venues (csv_rows venuesCsv)) (csv_rows showsCsv)) [] st).

(** The parsed date of a show. *)
Definition time_of (s : Show) : option Z := JsDate.time_value (date s).

Definition has_date (s : Show) : Prop := is_Some (time_of s).

(** The time value of a show with a date, zero for one without. *)
Definition time_key (s : Show) : Z :=
  match time_of s with
  | Some t => t
  | None => 0
  end.

(** [a] is dated no later than [b]. *)
Definition not_after (a b : Show) : Prop :=
  exists ta tb, time_of a = Some ta /\ time_of b = Some tb /\ (ta <= tb)%Z.

Definition ascending (l : list Show) : Prop := StronglySorted not_after l.

(** The shows of a list dated [t], in the order of the list. *)
Definition dated (t : Z) (l : list Show) : list Show :=
  List.filter (fun s => match time_of s with
                        | Some x => Z.eqb x t
                        | None => false
                        end) l.

End WithHost.
End ShowsSpec.

Module SampleSheet.

(** A venues sheet and a shows sheet, each with its header row. The second
    show row has no title; the dates are not in order and one is repeated. *)
Definition venues_csv : jsstring :=
  str "Name,Address,Website,Neighborhood,Capacity" ++ [LF]
    ++ str "Turf Club,1601 University Ave,,Midway,350" ++ [LF].

Definition shows_csv : jsstring :=
  str "Date,Venue,Show Title" ++ [LF]
    ++ str "2025-11-01,Turf Club,Late One" ++ [LF]
    ++ str "2025-11-02,Turf Club," ++ [LF]
    ++ str "2025-10-15,Basement,Early" ++ [LF]
    ++ str "2025-11-01,Turf Club,Late Two" ++ [LF].

Definition start : @Build.state Sample.host :=
  @Build.mkState Sample.host Sample.fresh_net ∅ 0 0.

End SampleSheet.

(** * Vocabulary of the further properties *)

Module CsvSpec.

(** A field with every quote doubled. *)
Fixpoint escape (f : jsstring) : jsstring :=
  match f with
  | [] => []
  | c :: f' =>
      if Ascii.eqb c dquote then dquote :: dquote :: escape f' else c :: escape f'
  end.

(** A field written between quotes. *)
Definition quote_field (f : jsstring) : jsstring :=
  dquote :: escape f ++ [dquote].

(** A character that needs no quoting. *)
Definition plain (c : ascii) : bool :=
  negb (Ascii.eqb c dquote) && negb (Ascii.eqb c ","%char)
  && negb (Ascii.eqb c LF) && negb (Ascii.eqb c CR).

(** A way of writing fields: [quoted f] says whether [f] goes between
    quotes; a field left bare has plain characters only. *)
Definition sound_choice (quoted : jsstring -> bool) (f : jsstring) : Prop :=
  quoted f = false -> forallb plain f = true.

Definition write_field (quoted : jsstring -> bool) (f : jsstring) : jsstring :=
  if quoted f then quote_field f else f.

(** The fields of a row, commas between them. *)
Fixpoint write_fields (quoted : jsstring -> bool) (row : list jsstring) : jsstring :=
  match row with
  | [] => []
  | [f] => write_field quoted f
  | f :: row' => write_field quoted f ++ ","%char :: write_fields quoted row'
  end.

(** The rows, each ended by a line feed. *)
Fixpoint write_rows (quoted : jsstring -> bool) (rows : list (list jsstring)) : jsstring :=
  match rows with
  | [] => []
  | row :: rows' => write_fields quoted row ++ LF :: write_rows quoted rows'
  end.

Definition no_CR (f : jsstring) : Prop := ~ In CR f.

(** A field or a started row is waiting to be flushed. *)
Definition pending (st : CSV.state) : bool :=
  truthy_str (CSV.field st) || negb (Nat.eqb (length (CSV.current st)) 0).

(** The text less its carriage returns. *)
Definition without_CR (s : jsstring) : jsstring :=
  List.filter (fun c => negb (Ascii.eqb c CR)) s.

(** The state with more text added to the field under way. *)
Definition add_text (s : jsstring) (st : CSV.state) : CSV.state :=
  CSV.mkState (CSV.rows st) (CSV.current st) (CSV.field st ++ s) (CSV.inQuotes st).

(** The text [pre] ends where a field starts: it is empty, or its last
    character is a comma or a line feed and the parser is outside quotes
    after it. *)
Definition field_start (pre : jsstring) : Prop :=
  CSV.inQuotes (CSV.loop pre CSV.init) = false
  /\ (pre = [] \/ exists p c, pre = p ++ [c] /\ (c = ","%char \/ c = LF)).

(** A comma or a line feed comes next. *)
Definition closes (post : jsstring) : Prop :=
  exists c rest, post = c :: rest /\ (c = ","%char \/ c = LF).

(** Where the field that starts after [pre] belongs: the number of rows
    and the number of fields of its own row that stand before it. *)
Definition row_index (pre : jsstring) : nat :=
  length (CSV.rows (CSV.loop pre CSV.init)).

Definition column_index (pre : jsstring) : nat :=
  length (CSV.current (CSV.loop pre CSV.init)).

(** The field in row [i], column [j] of a result. *)
Definition cell (i j : nat) (rows : list (list jsstring)) : option jsstring :=
  match rows !! i with
  | Some row => row !! j
  | None => None
  end.

(** The field in row [i], column [j] is [f] and will stay so: it is in a
    finished row, or in the row under way, which will be row [i]. *)
Definition settled (i j : nat) (f : jsstring) (st : CSV.state) : Prop :=
  cell i j (CSV.rows st) = Some f
  \/ (length (CSV.rows st) = i /\ CSV.current st !! j = Some f).

End CsvSpec.

Module MarkupSpec.
Import Regex Scrape.

(** Two texts alike but for the case of their ASCII letters. *)
Definition same_letters (a b : jsstring) : Prop := map canon a = map canon b.

(** The shape of the patterns for an element with a text: the opening
    tag's start, attributes up to the first [>], a non-empty text without
    [<], the closing tag; the tags in any letter case. *)
Definition element_re (opening closing : jsstring) : regex :=
  seqs [lit_i opening; Star true (is_not ">"); chr ">";
        Group (plus (is_not "<")); lit_i closing].

(** The shape of the patterns for a meta tag: its start up to the quote
    that opens the content, a non-empty content without a double quote,
    the closing quote. *)
Definition meta_re (opening : jsstring) : regex :=
  seqs [lit_i opening; Group (plus (is_not dquote)); chr dquote].

(** The text starts with such an element, whose text is [text]. *)
Definition element_at (opening closing s text : jsstring) : Prop :=
  exists o attrs c post,
    s = o ++ attrs ++ ">"%char :: text ++ c ++ post
    /\ same_letters o opening
    /\ forallb (is_not ">") attrs = true
    /\ text <> [] /\ forallb (is_not "<") text = true
    /\ same_letters c closing.

Definition has_element (opening closing html : jsstring) : Prop :=
  exists pre s text, html = pre ++ s /\ element_at opening closing s text.

(** [text] is the text of the first such element of the page. *)
Definition first_element (opening closing html text : jsstring) : Prop :=
  exists pre s,
    html = pre ++ s /\ element_at opening closing s text
    /\ (forall pre' s', html = pre' ++ s' -> length pre' < length pre ->
          ~ exists t, element_at opening closing s' t).

(** The text starts with such a meta tag, whose content is [content]. *)
Definition meta_at (opening s content : jsstring) : Prop :=
  exists o post,
    s = o ++ content ++ dquote :: post
    /\ same_letters o opening
    /\ content <> [] /\ forallb (is_not dquote) content = true.

Definition has_meta (opening html : jsstring) : Prop :=
  exists pre s content, html = pre ++ s /\ meta_at opening s content.

(** [content] is the content of the first such meta tag of the page. *)
Definition first_meta (opening html content : jsstring) : Prop :=
  exists pre s,
    html = pre ++ s /\ meta_at opening s content
    /\ (forall pre' s', html = pre' ++ s' -> length pre' < length pre ->
          ~ exists t, meta_at opening s' t).

(** The literal starts of the patterns of [build.js]. *)
Definition byline_open : jsstring := str "<span " ++ attr "itemprop" "byArtist".
Definition byline_close : jsstring := str "</span>".
Definition title_open : jsstring := str "<h2 " ++ attr "class" "trackTitle".
Definition title_close : jsstring := str "</h2>".
Definition og_open (property : string) : jsstring :=
  str "<meta " ++ attr "property" property ++ str " content=" ++ [dquote].

(** The result of a scraper that tries an element first and a meta tag
    second. *)
Definition element_then_meta (opening closing meta html : jsstring)
    (result : option jsstring) : Prop :=
  (has_element opening closing html ->
     exists text, result = Some (trim text)
                  /\ first_element opening closing html text)
  /\ (~ has_element opening closing html -> has_meta meta html ->
     exists content, result = Some content /\ first_meta meta html content)
  /\ (~ has_element opening closing html -> ~ has_meta meta html ->
     result = None).

End MarkupSpec.

Module SampleMarkup.
Import Scrape.

(** A site-name meta tag, written in capitals. *)
Definition site_meta : jsstring :=
  str "<META PROPERTY=" ++ [dquote] ++ str "OG:SITE_NAME" ++ [dquote]
    ++ str " CONTENT=" ++ [dquote] ++ str "Band Site" ++ [dquote] ++ str ">".

(** A title meta tag. *)
Definition title_meta : jsstring :=
  str "<meta " ++ attr "property" "og:title" ++ str " "
    ++ attr "content" "First Songs, by The Band" ++ str ">".

(** A page with a byline, artwork and a title heading, and the two meta
    tags after them. *)
Definition full_page : jsstring := Sample.byline_markup ++ site_meta ++ title_meta.

(** A page with the meta tags only. *)
Definition meta_page : jsstring := site_meta ++ title_meta.

Definition bare_page : jsstring := str "<p>nothing here</p>".

End SampleMarkup.

Module EmbedMarkupSpec.
Import Regex Scrape.

(** The markup of a player before and after the identifier. *)
Definition embed_prefix : jsstring :=
  str "<iframe style=" ++ [dquote]
    ++ str "border: 0; width: 100%; height: 42px;" ++ [dquote]
    ++ str " src=" ++ [dquote] ++ str "https://bandcamp.com/EmbeddedPlayer/".

Definition embed_suffix : jsstring :=
  str "/size=small/bgcol=0a0a0a/linkcol=888888/transparent=true" ++ [dquote]
    ++ str " seamless></iframe>".

(** An identifier as the patterns capture it: digits, at least one. *)
Definition digits (idv : jsstring) : Prop :=
  idv <> [] /\ forallb is_digit idv = true.

(** The text differs from the keyword within the keyword's length. *)
Fixpoint clash (keyword s : jsstring) : bool :=
  match keyword, s with
  | a :: keyword', b :: s' => if Ascii.eqb a b then clash keyword' s' else true
  | _, _ => false
  end.

(** Every tail of the text clashes with the keyword. *)
Fixpoint tails_clash (keyword s : jsstring) : bool :=
  match s with
  | [] => true
  | _ :: s' => clash keyword s && tails_clash keyword s'
  end.

End EmbedMarkupSpec.

Module TagListSpec.
Import Scrape.

Section WithHost.
Context `{Host}.

(** The texts among a list of tag values, in order. *)
Fixpoint texts_of (l : list (json number)) : list jsstring :=
  match l with
  | [] => []
  | JStr s :: l' => s :: texts_of l'
  | _ :: l' => texts_of l'
  end.

(** All the tags of a result: the genres, then the location. *)
Definition tags_of (r : GenresAndLocation) : list (json number) :=
  genres r ++ match location r with
              | Some v => [v]
              | None => []
              end.

Definition truthy_value (v : json number) : Prop := truthy (Some v) = true.

End WithHost.
End TagListSpec.

Module RecordSpec.
Import Scrape Fetch.

Section WithHost.
Context `{Host}.

(** The two shapes of a record: without a player, or with one built from
    an identifier of digits. *)
Definition without_player (data : BandcampData) : Prop :=
  embedHtml data = None /\ trackTitle data = None
  /\ artist data = Absent /\ thumbnailUrl data = Absent.

Definition with_player (data : BandcampData) : Prop :=
  (exists e, embedHtml data = Some (buildEmbedHtml e)
             /\ EmbedMarkupSpec.digits (id e))
  /\ trackTitle data = albumTitle data
  /\ (exists a, artist data = Present a)
  /\ (exists t, thumbnailUrl data = Present t).

(** The URL names a release itself. *)
Definition is_release_url (url : jsstring) : bool :=
  includes (str "/album/") url || includes (str "/track/") url.

End WithHost.
End RecordSpec.

Module LedgerSpec.
Import Fetch Build.



Section WithHost.
Context `{Host}.

(** The media records of a show. *)
Definition media (s : Show) : list BandcampData :=
  match bandcamp s with
  | Present l => l
  | Absent => []
  end.

(** The number of media records of a list of shows. *)
Fixpoint media_count (shows : list Show) : nat :=
  match shows with
  | [] => 0
  | s :: shows' => length (media s) + media_count shows'
  end.

(** A show the loop has not reached yet has no media property. *)
Definition fresh (s : Show) : Prop := bandcamp s = Absent.

(** The record is a value of the cache. *)
Definition in_cache (cache : gmap jsstring BandcampData) (r : BandcampData) : Prop :=
  exists k, cache !! k = Some r.

(** A show as the document holds it: the raw URL field gone, the media
    property either left out or a non-empty list of cached records. *)
Definition finished (cache : gmap jsstring BandcampData) (s : Show) : Prop :=
  bandcampUrl s = Absent
  /\ match bandcamp s with
     | Absent => True
     | Present l => l <> [] /\ Forall (in_cache cache) l
     end.

End WithHost.
End LedgerSpec.

Module UrlSpec.

Definition no_separator (u : jsstring) : Prop :=
  ~ In ","%char u /\ ~ In LF u.

(** A URL as the loop receives it. *)
Definition clean_url (u : jsstring) : Prop :=
  u <> [] /\ includes (str "bandcamp.com") u = true
  /\ no_separator u /\ trim u = u.

(** The first character, if any, is not white space. *)
Definition starts_solid (s : jsstring) : Prop :=
  match s with
  | [] => True
  | c :: _ => is_space c = false
  end.

(** A character left between the matches is not of the class. *)
Definition plain_ok (p : ascii -> bool) (pc : Regex.piece) : Prop :=
  match pc with
  | Regex.Plain c => p c = false
  | Regex.Matched _ => True
  end.

End UrlSpec.

(** ** The filters of [script.js] *)

Module Script.
Import Scrape.

(** [isFree(cost)] *)
Definition isFree (cost : jsstring) : bool :=
  if negb (truthy_str cost) then false
  else
    let lower := toLowerCase cost in
    includes (str "free") lower || jsstring_eqb lower (str "$0")
    || jsstring_eqb lower (str "0") || jsstring_eqb lower (str "NOTA").

(** [isAllAges(age)] *)
Definition isAllAges (age : jsstring) : bool :=
  if negb (truthy_str age) then false
  else
    let lower := toLowerCase age in
    includes (str "all ages") lower || includes (str "all-ages") lower
    || jsstring_eqb lower (str "aa").

End Script.
(** * Properties *)

(** ** The matcher against the meaning of the expressions *)

Module RegexFacts.
Import Regex RegexSpec.

Lemma star_greedy_sound {R} p (k : jsstring -> option R) s x :
  star_greedy p k s = Some x ->
  exists w rest, s = w ++ rest /\ forallb p w = true /\ k rest = Some x.
Proof.
  revert x. induction s as [|c s IH]; intros x Hx; simpl in Hx.
  - exists [], []. auto.
  - destruct (p c) eqn:Hp.
    + destruct (star_greedy p k s) as [y|] eqn:Hs.
      * destruct (IH y eq_refl) as (w & rest & -> & Hw & Hk).
        exists (c :: w), rest. simpl. rewrite Hp, Hw. inversion Hx; subst. auto.
      * exists [], (c :: s). auto.
    + exists [], (c :: s). auto.
Qed.

Lemma star_greedy_keeps {R} p (k : jsstring -> option R) s :
  is_Some (k s) -> is_Some (star_greedy p k s).
Proof.
  intros Hk. destruct s as [|c s]; simpl; [exact Hk|].
  destruct (p c); [|exact Hk].
  destruct (star_greedy p k s); [eauto | exact Hk].
Qed.

Lemma star_greedy_complete {R} p (k : jsstring -> option R) w rest :
  forallb p w = true -> is_Some (k rest) -> is_Some (star_greedy p k (w ++ rest)).
Proof.
  intros Hw Hk. induction w as [|c w IH]; simpl.
  - apply star_greedy_keeps, Hk.
  - simpl in Hw. apply andb_prop in Hw as [Hc Hw]. rewrite Hc.
    destruct (IH Hw) as [y Hy]. rewrite Hy. eauto.
Qed.

Lemma star_lazy_sound {R} p (k : jsstring -> option R) s x :
  star_lazy p k s = Some x ->
  exists w rest, s = w ++ rest /\ forallb p w = true /\ k rest = Some x.
Proof.
  induction s as [|c s IH]; simpl.
  - destruct (k []) eqn:Hk; [|discriminate].
    intros [= <-]. exists [], []. auto.
  - destruct (k (c :: s)) eqn:Hk.
    + intros [= <-]. exists [], (c :: s). auto.
    + destruct (p c) eqn:Hp; [|discriminate].
      intros Hx. destruct (IH Hx) as (w & rest & -> & Hw & Hr).
      exists (c :: w), rest. simpl. rewrite Hp, Hw. auto.
Qed.

Lemma star_lazy_complete {R} p (k : jsstring -> option R) w rest :
  forallb p w = true -> is_Some (k rest) -> is_Some (star_lazy p k (w ++ rest)).
Proof.
  intros Hw Hk. induction w as [|c w IH]; simpl.
  - destruct rest; simpl; destruct Hk as [y ->]; eauto.
  - simpl in Hw. apply andb_prop in Hw as [Hc Hw]. rewrite Hc.
    destruct (k (c :: w ++ rest)); [eauto|]. exact (IH Hw).
Qed.

Lemma take_app_minus (w rest : jsstring) :
  take (length (w ++ rest) - length rest) (w ++ rest) = w.
Proof.
  rewrite length_app.
  replace (length w + length rest - length rest) with (length w) by lia.
  apply take_app_length.
Qed.

(** Whatever [exec] finds is a match of the expression, and the
    continuation was run on what follows it. *)
Lemma exec_sound {R} r : forall s (k : jsstring -> list jsstring -> option R) cs0 x,
  exec r s k cs0 = Some x ->
  exists w rest cs,
    s = w ++ rest /\ matches r w rest cs /\ k rest (cs0 ++ cs) = Some x.
Proof.
  induction r as [|p|r1 IH1 r2 IH2|g p|r1 IH1|]; intros s k cs0 x Hx; simpl in Hx.
  - exists [], s, []. rewrite app_nil_r. simpl. auto.
  - destruct s as [|c s]; [discriminate|].
    destruct (p c) eqn:Hp; [|discriminate].
    exists [c], s, []. rewrite app_nil_r. simpl. eauto 6.
  - apply IH1 in Hx as (w1 & s1 & cs1 & -> & M1 & Hx).
    apply IH2 in Hx as (w2 & rest & cs2 & -> & M2 & Hx).
    exists (w1 ++ w2), rest, (cs1 ++ cs2).
    rewrite <- app_assoc. split; [reflexivity|]. split.
    + simpl. exists w1, w2, cs1, cs2. auto.
    + rewrite app_assoc. exact Hx.
  - destruct g.
    + apply star_greedy_sound in Hx as (w & rest & -> & Hw & Hk).
      exists w, rest, []. rewrite app_nil_r. simpl. auto.
    + apply star_lazy_sound in Hx as (w & rest & -> & Hw & Hk).
      exists w, rest, []. rewrite app_nil_r. simpl. auto.
  - apply IH1 in Hx as (w & rest & cs1 & -> & M1 & Hx).
    rewrite take_app_minus in Hx.
    exists w, rest, (cs1 ++ [w]). split; [reflexivity|]. split.
    + simpl. eauto.
    + rewrite app_assoc. exact Hx.
  - destruct s; [|discriminate].
    exists [], [], []. rewrite (app_nil_r cs0). simpl. repeat split; auto.
Qed.

(** Where the expression can match and the continuation accepts whatever
    captures it is given, [exec] finds a match. *)
Lemma exec_complete {R} r : forall w rest cs (k : jsstring -> list jsstring -> option R) cs0,
  matches r w rest cs ->
  (forall cs', is_Some (k rest cs')) ->
  is_Some (exec r (w ++ rest) k cs0).
Proof.
  induction r as [|p|r1 IH1 r2 IH2|g p|r1 IH1|]; intros w rest cs k cs0 M Hk; simpl in M |- *.
  - destruct M as [-> _]. apply Hk.
  - destruct M as [(c & -> & Hp) _]. simpl. rewrite Hp. apply Hk.
  - destruct M as (w1 & w2 & cs1 & cs2 & -> & _ & M1 & M2).
    rewrite <- app_assoc. eapply IH1; [exact M1|].
    intros cs'. eapply IH2; [exact M2 | exact Hk].
  - destruct M as [Hw _]. destruct g.
    + apply star_greedy_complete; [exact Hw | apply Hk].
    + apply star_lazy_complete; [exact Hw | apply Hk].
  - destruct M as (cs1 & M1 & _). eapply IH1; [exact M1|].
    intros cs'. apply Hk.
  - destruct M as (-> & -> & _). simpl. apply Hk.
Qed.

Lemma match_here_sound r s m :
  match_here r s = Some m ->
  s = matched m ++ after m /\ matches r (matched m) (after m) (groups m).
Proof.
  unfold match_here. intros Hx.
  apply exec_sound in Hx as (w & rest & cs & -> & M & Hx).
  rewrite take_app_minus in Hx. simpl in Hx. inversion Hx; subst; simpl. auto.
Qed.

Lemma match_here_complete r s :
  matches_at_start r s -> is_Some (match_here r s).
Proof.
  intros (w & rest & cs & -> & M). unfold match_here.
  eapply exec_complete; [exact M|]. intros cs'. eauto.
Qed.

Lemma match_here_none r s :
  match_here r s = None -> ~ matches_at_start r s.
Proof.
  intros Hn Hm. apply match_here_complete in Hm as [m Hm]. congruence.
Qed.

(** [search] returns the leftmost match. *)
Lemma search_sound r : forall s pre m,
  search r s = Some (pre, m) ->
  s = pre ++ matched m ++ after m
  /\ matches r (matched m) (after m) (groups m)
  /\ leftmost r s pre.
Proof.
  induction s as [|c s IH]; intros pre m; simpl.
  - destruct (match_here r []) as [m0|] eqn:Hm; [|discriminate].
    intros [= <- <-]. apply match_here_sound in Hm as [Hs M].
    split; [exact Hs|]. split; [exact M|].
    intros pre' s' _ Hl. simpl in Hl. lia.
  - destruct (match_here r (c :: s)) as [m0|] eqn:Hm.
    + intros [= <- <-]. apply match_here_sound in Hm as [Hs M].
      split; [exact Hs|]. split; [exact M|].
      intros pre' s' _ Hl. simpl in Hl. lia.
    + destruct (search r s) as [[pre0 m0]|] eqn:Hs; [|discriminate].
      intros [= <- <-]. destruct (IH _ _ eq_refl) as (IHs & M & Hleft).
      split; [simpl; congruence|]. split; [exact M|].
      intros pre' s' Heq Hl. destruct pre' as [|c' pre'].
      * simpl in Heq. subst s'. apply match_here_none, Hm.
      * simpl in Heq. injection Heq as _ Heq'. apply (Hleft pre' s' Heq').
        simpl in Hl. lia.
Qed.

Lemma search_complete r : forall s, occurs r s -> is_Some (search r s).
Proof.
  intros s (pre & w & rest & cs & -> & M).
  induction pre as [|c pre IH]; simpl.
  - assert (Hm : is_Some (match_here r (w ++ rest))).
    { apply match_here_complete. exists w, rest, cs. auto. }
    destruct w as [|a w]; simpl in *.
    + destruct rest; simpl in *; destruct Hm as [m ->]; eauto.
    + destruct Hm as [m ->]. eauto.
  - destruct (match_here r (c :: pre ++ w ++ rest)); [eauto|].
    destruct IH as [[pre0 m0] ->]. eauto.
Qed.

Lemma js_match_some r s m :
  js_match r s = Some m ->
  exists pre, s = pre ++ matched m ++ after m
    /\ matches r (matched m) (after m) (groups m)
    /\ leftmost r s pre.
Proof.
  unfold js_match. destruct (search r s) as [[pre m0]|] eqn:Hs; [|discriminate].
  simpl. intros [= <-]. exists pre. apply search_sound, Hs.
Qed.

Lemma js_match_occurs r s : occurs r s -> is_Some (js_match r s).
Proof.
  intros Ho. apply search_complete in Ho as [[pre m] Hs].
  unfold js_match. rewrite Hs. simpl. eauto.
Qed.

Lemma js_match_none r s : js_match r s = None -> ~ occurs r s.
Proof.
  intros Hn Ho. apply js_match_occurs in Ho as [m Hm]. congruence.
Qed.

End RegexFacts.

(** ** parseCSV *)

(** C2: the quoted field with an embedded comma, an embedded line feed and
    an embedded doubled quote parses to exactly one row holding exactly one
    field, the text a,b LF c quote d. *)
Theorem parseCSV_quoted_field :
  CSV.parseCSV
    (dquote :: str "a,b" ++ LF :: str "c" ++ [dquote; dquote] ++ str "d" ++ [dquote])
  = [[ str "a,b" ++ LF :: str "c" ++ dquote :: str "d" ]].
Proof. reflexivity. Qed.

(** C4 as stated fails: the field whose raw text is the two quote characters
    comes out empty, not as one literal quote. *)
Lemma parseCSV_two_quotes_not_literal :
  CSV.parseCSV (str "a," ++ [dquote; dquote] ++ str ",b")
    = [[ str "a"; []; str "b" ]]
  /\ nth 1 (nth 0 (CSV.parseCSV (str "a," ++ [dquote; dquote] ++ str ",b")) []) [LF]
     <> [dquote].
Proof. split; [reflexivity | discriminate]. Qed.

Lemma eqb_dquote_false c : c <> dquote -> Ascii.eqb c dquote = false.
Proof. intros H. apply Ascii.eqb_neq. exact H. Qed.

(** ** extractEmbedInfo *)

Module EmbedFacts.
Import Regex RegexSpec RegexFacts Scrape EmbedSpec.

Lemma starts_with_app l : forall s,
  starts_with l s = true <-> exists rest, s = l ++ rest.
Proof.
  induction l as [|c l IH]; intros s; simpl.
  - split; eauto.
  - destruct s as [|c' s].
    + split; [discriminate | intros [rest Hr]; discriminate].
    + rewrite andb_true_iff, IH, Ascii.eqb_eq. split.
      * intros [-> [rest ->]]. eauto.
      * intros [rest [= -> ->]]. eauto.
Qed.

Lemma exec_lit {R} l : forall s (k : jsstring -> list jsstring -> option R) cs,
  exec (lit l) s k cs = if starts_with l s then k (drop (length l) s) cs else None.
Proof.
  induction l as [|c l IH]; intros s k cs; simpl.
  - reflexivity.
  - destruct s as [|c' s]; [reflexivity|].
    destruct (Ascii.eqb c c'); simpl; [apply IH | reflexivity].
Qed.

(** With a continuation that never fails, the greedy star takes every
    character it can. *)
Lemma star_greedy_total {R} p (k : jsstring -> option R) :
  (forall s, is_Some (k s)) ->
  forall s, exists w rest,
    s = w ++ rest /\ forallb p w = true
    /\ match rest with [] => True | c :: _ => p c = false end
    /\ star_greedy p k s = k rest.
Proof.
  intros Hk. induction s as [|c s IH]; simpl.
  - exists [], []. auto.
  - destruct (p c) eqn:Hp.
    + destruct IH as (w & rest & -> & Hw & Hr & ->).
      exists (c :: w), rest. simpl. rewrite Hp, Hw.
      destruct (Hk rest) as [y ->]. auto.
    + exists [], (c :: s). simpl. auto.
Qed.

Lemma match_here_id kind s m :
  match_here (id_re kind) s = Some m ->
  exists sep post,
    s = kind ++ sep :: group1 m ++ post
    /\ is_eq_or_colon sep = true
    /\ group1 m <> [] /\ forallb is_digit (group1 m) = true /\ no_digit_next post.
Proof.
  unfold match_here, id_re. cbn [seqs exec]. rewrite exec_lit.
  destruct (starts_with kind s) eqn:Hs; [|discriminate].
  apply starts_with_app in Hs as [rest ->].
  rewrite drop_app_length.
  destruct rest as [|sep rest]; [discriminate|].
  destruct (is_eq_or_colon sep) eqn:Hsep; [|discriminate].
  unfold plus. cbn [exec].
  destruct rest as [|d rest]; [discriminate|].
  destruct (is_digit d) eqn:Hd; [|discriminate].
  match goal with |- star_greedy _ ?k _ = _ -> _ =>
    destruct (star_greedy_total is_digit k) with (s := rest)
      as (w & post & -> & Hw & Hpost & ->); [intros; eauto|]
  end.
  intros [= <-]. unfold group1. simpl.
  replace (S (length (w ++ post)) - length post) with (S (length w))
    by (rewrite length_app; lia).
  rewrite firstn_cons, take_app_length.
  exists sep, post. simpl. rewrite Hd, Hw. repeat split; auto.
Qed.

Lemma matches_id_start kind s :
  starts_id kind s -> matches_at_start (id_re kind) s.
Proof.
  intros (sep & d & post & -> & Hsep & Hd).
  exists (kind ++ [sep; d]), post, [[d]]. split.
  { rewrite <- app_assoc. reflexivity. }
  unfold id_re. cbn [seqs matches].
  exists kind, [sep; d], [], [[d]]. repeat split; auto.
  - clear. induction kind as [|c kind IH]; simpl; [auto|].
    exists [c], kind, [], []. repeat split; auto.
    exists c. split; [reflexivity | apply Ascii.eqb_refl].
  - exists [sep], [d], [], [[d]]. repeat split; eauto.
    exists []. split; [|reflexivity].
    unfold plus. simpl. exists [d], [], [], []. repeat split; eauto.
Qed.

Lemma id_start_matches kind s :
  matches_at_start (id_re kind) s -> starts_id kind s.
Proof.
  intros Hm. apply match_here_complete in Hm as [m Hm].
  apply match_here_id in Hm as (sep & post & -> & Hsep & Hne & Hd & _).
  destruct (group1 m) as [|d ds]; [congruence|].
  simpl in Hd. apply andb_prop in Hd as [Hd _].
  exists sep, d, (ds ++ post). auto.
Qed.

Lemma has_id_occurs kind html : has_id kind html <-> occurs (id_re kind) html.
Proof.
  split.
  - intros (pre & s & -> & Hs).
    apply matches_id_start in Hs as (w & rest & cs & -> & M).
    exists pre, w, rest, cs. auto.
  - intros (pre & w & rest & cs & -> & M).
    exists pre, (w ++ rest). split; [reflexivity|].
    apply id_start_matches. exists w, rest, cs. auto.
Qed.

Lemma search_here r : forall s pre m,
  search r s = Some (pre, m) -> match_here r (matched m ++ after m) = Some m.
Proof.
  induction s as [|c s IH]; intros pre m; simpl.
  - destruct (match_here r []) as [m0|] eqn:Hm; [|discriminate].
    intros [= <- <-]. destruct (match_here_sound _ _ _ Hm) as [<- _]. exact Hm.
  - destruct (match_here r (c :: s)) as [m0|] eqn:Hm.
    + intros [= <- <-]. destruct (match_here_sound _ _ _ Hm) as [<- _]. exact Hm.
    + destruct (search r s) as [[pre0 m0]|] eqn:Hs; [|discriminate].
      intros [= <- <-]. eapply IH. reflexivity.
Qed.

Lemma js_match_id kind html m :
  js_match (id_re kind) html = Some m -> first_id kind html (group1 m).
Proof.
  unfold js_match. destruct (search (id_re kind) html) as [[pre m0]|] eqn:Hs;
    [|discriminate].
  simpl. intros [= ->].
  destruct (search_sound _ _ _ _ Hs) as (Hhtml & _ & Hleft).
  apply search_here in Hs. apply match_here_id in Hs
    as (sep & post & Heq & Hsep & Hne & Hd & Hpost).
  exists pre, sep, post. rewrite Hhtml, Heq. repeat split; auto.
  intros pre' s' Hs' Hl Hst. rewrite <- Heq, <- Hhtml in Hs'.
  apply (Hleft pre' s' Hs' Hl). apply matches_id_start, Hst.
Qed.

End EmbedFacts.

(** C5: where the album identifier pattern matches, the result is the album
    variant with the identifier of the first album match, whether or not a
    track pattern matches and wherever it stands; where only the track
    pattern matches, it is the track variant; where neither matches, it is
    null. *)
Theorem extractEmbedInfo_album_first (html : jsstring) :
  (EmbedSpec.has_id (str "album") html ->
     exists idv, Scrape.extractEmbedInfo html = Some (Scrape.mkEmbedInfo Scrape.album idv)
                 /\ EmbedSpec.first_id (str "album") html idv)
  /\ (~ EmbedSpec.has_id (str "album") html -> EmbedSpec.has_id (str "track") html ->
     exists idv, Scrape.extractEmbedInfo html = Some (Scrape.mkEmbedInfo Scrape.track idv)
                 /\ EmbedSpec.first_id (str "track") html idv)
  /\ (~ EmbedSpec.has_id (str "album") html -> ~ EmbedSpec.has_id (str "track") html ->
     Scrape.extractEmbedInfo html = None).
Proof.
  unfold Scrape.extractEmbedInfo.
  unfold Scrape.album_id_re, Scrape.track_id_re.
  split; [|split].
  - intros Ha. apply EmbedFacts.has_id_occurs, RegexFacts.js_match_occurs in Ha as [m Hm].
    rewrite Hm. exists (Regex.group1 m). split; [reflexivity|].
    apply EmbedFacts.js_match_id, Hm.
  - intros Hna Ht.
    destruct (Regex.js_match (Scrape.id_re (str "album")) html) as [m|] eqn:Hm.
    { exfalso. apply Hna. apply EmbedFacts.has_id_occurs.
      apply RegexFacts.js_match_some in Hm as (pre & Hh & M & _).
      exists pre, (Regex.matched m), (Regex.after m), (Regex.groups m). auto. }
    apply EmbedFacts.has_id_occurs, RegexFacts.js_match_occurs in Ht as [m' Hm'].
    rewrite Hm'. exists (Regex.group1 m'). split; [reflexivity|].
    apply EmbedFacts.js_match_id, Hm'.
  - intros Hna Hnt.
    destruct (Regex.js_match (Scrape.id_re (str "album")) html) as [m|] eqn:Hm.
    { exfalso. apply Hna. apply EmbedFacts.has_id_occurs.
      apply RegexFacts.js_match_some in Hm as (pre & Hh & M & _).
      exists pre, (Regex.matched m), (Regex.after m), (Regex.groups m). auto. }
    destruct (Regex.js_match (Scrape.id_re (str "track")) html) as [m|] eqn:Hm'.
    { exfalso. apply Hnt. apply EmbedFacts.has_id_occurs.
      apply RegexFacts.js_match_some in Hm' as (pre & Hh & M & _).
      exists pre, (Regex.matched m), (Regex.after m), (Regex.groups m). auto. }
    reflexivity.
Qed.

Lemma extractEmbedInfo_album_first_witness :
  (exists idv,
     Scrape.extractEmbedInfo (str "track=7 album:12x")
       = Some (Scrape.mkEmbedInfo Scrape.album idv)
     /\ EmbedSpec.first_id (str "album") (str "track=7 album:12x") idv)
  /\ (exists idv,
     Scrape.extractEmbedInfo (str "album track=7")
       = Some (Scrape.mkEmbedInfo Scrape.track idv)
     /\ EmbedSpec.first_id (str "track") (str "album track=7") idv)
  /\ Scrape.extractEmbedInfo (str "<p>no player</p>") = None.
Proof.
  assert (Hno : forall kind html,
    Regex.js_match (Scrape.id_re kind) html = None -> ~ EmbedSpec.has_id kind html).
  { intros kind html Hn Hl. apply EmbedFacts.has_id_occurs in Hl.
    revert Hl. apply RegexFacts.js_match_none, Hn. }
  split; [|split].
  - apply (extractEmbedInfo_album_first (str "track=7 album:12x")).
    exists (str "track=7 "), (str "album:12x"). split; [reflexivity|].
    exists ":"%char, "1"%char, (str "2x"). repeat split.
  - apply (extractEmbedInfo_album_first (str "album track=7")).
    + apply Hno. reflexivity.
    + exists (str "album "), (str "track=7"). split; [reflexivity|].
      exists "="%char, "7"%char, []. repeat split.
  - apply (extractEmbedInfo_album_first (str "<p>no player</p>"));
      apply Hno; reflexivity.
Defined.

(** ** extractLatestRelease *)

Module ReleaseFacts.
Import Regex RegexSpec RegexFacts Scrape ReleaseSpec.

Lemma matches_lit l : forall w rest cs,
  matches (lit l) w rest cs <-> w = l /\ cs = [].
Proof.
  induction l as [|c l IH]; intros w rest cs; simpl.
  - tauto.
  - split.
    + intros (w1 & w2 & cs1 & cs2 & -> & -> & [(c' & -> & Hc) ->] & M2).
      apply IH in M2 as [-> ->]. apply Ascii.eqb_eq in Hc as ->. auto.
    + intros [-> ->]. exists [c], l, [], []. repeat split; auto.
      * exists c. split; [reflexivity | apply Ascii.eqb_refl].
      * apply IH. auto.
Qed.

Lemma matches_plus p w rest cs :
  matches (plus p) w rest cs <-> w <> [] /\ forallb p w = true /\ cs = [].
Proof.
  unfold plus. simpl. split.
  - intros (w1 & w2 & cs1 & cs2 & -> & -> & [(c & -> & Hc) ->] & [Hw ->]).
    simpl. rewrite Hc, Hw. auto.
  - intros (Hne & Hw & ->). destruct w as [|c w]; [congruence|].
    simpl in Hw. apply andb_prop in Hw as [Hc Hw].
    exists [c], w, [], []. repeat split; eauto.
Qed.

Lemma matches_release_link kind w rest cs :
  matches (release_link_re kind) w rest cs <->
  exists path, w = href_open ++ path ++ [dquote] /\ cs = [path] /\ release_path kind path.
Proof.
  unfold release_link_re. cbn [seqs matches]. split.
  - intros (w1 & w2 & cs1 & cs2 & -> & -> & M1 & M2).
    apply matches_lit in M1 as [-> ->].
    destruct M2 as (w3 & w4 & cs3 & cs4 & -> & -> & M3 & M4).
    destruct M3 as (cs5 & M3 & ->).
    destruct M3 as (w5 & w6 & cs6 & cs7 & -> & -> & M5 & M6).
    apply matches_lit in M5 as [-> ->].
    apply matches_plus in M6 as (Hne & Hw & ->).
    destruct M4 as [(c & -> & Hc) ->]. apply Ascii.eqb_eq in Hc as <-.
    exists ((str "/" ++ str kind ++ str "/") ++ w6). simpl. repeat split.
    exists w6. rewrite <- !app_assoc. auto.
  - intros (path & -> & -> & slug & -> & Hne & Hw).
    exists href_open, ((str "/" ++ str kind ++ str "/" ++ slug) ++ [dquote]), [],
      [str "/" ++ str kind ++ str "/" ++ slug].
    repeat split; auto.
    + apply matches_lit. auto.
    + exists (str "/" ++ str kind ++ str "/" ++ slug), [dquote],
        [str "/" ++ str kind ++ str "/" ++ slug], [].
      repeat split; auto.
      * exists []. split; [|reflexivity].
        exists (str "/" ++ str kind ++ str "/"), slug, [], [].
        repeat split.
        -- rewrite <- !app_assoc. reflexivity.
        -- apply matches_lit. auto.
        -- apply matches_plus. auto.
      * exists dquote. split; [reflexivity | apply Ascii.eqb_refl].
Qed.

Lemma starts_link_matches kind s :
  starts_link kind s <-> matches_at_start (release_link_re kind) s.
Proof.
  split.
  - intros (path & post & -> & Hp).
    exists (href_open ++ path ++ [dquote]), post, [path]. split.
    + rewrite <- !app_assoc. reflexivity.
    + apply matches_release_link. eauto.
  - intros (w & rest & cs & -> & M).
    apply matches_release_link in M as (path & -> & -> & Hp).
    exists path, rest. rewrite <- !app_assoc. auto.
Qed.

Lemma has_link_occurs kind html :
  has_link kind html <-> occurs (release_link_re kind) html.
Proof.
  split.
  - intros (pre & s & -> & Hs).
    apply starts_link_matches in Hs as (w & rest & cs & -> & M).
    exists pre, w, rest, cs. auto.
  - intros (pre & w & rest & cs & -> & M).
    exists pre, (w ++ rest). split; [reflexivity|].
    apply starts_link_matches. exists w, rest, cs. auto.
Qed.

Lemma js_match_link kind html m :
  js_match (release_link_re kind) html = Some m -> first_link kind html (group1 m).
Proof.
  intros Hm. apply js_match_some in Hm as (pre & Hh & M & Hleft).
  apply matches_release_link in M as (path & Hw & Hcs & Hp).
  unfold group1. rewrite Hcs. simpl.
  exists pre, (after m). rewrite Hh at 1. rewrite Hw, <- !app_assoc.
  repeat split; auto.
  intros pre' s' Hs' Hl Hst. apply (Hleft pre' s' Hs' Hl).
  apply starts_link_matches, Hst.
Qed.

Lemma match_here_slash s :
  match_here trailing_slash_re s =
  match s with
  | [c] => if Ascii.eqb "/"%char c then Some (mkResult [c] [] []) else None
  | _ => None
  end.
Proof.
  unfold match_here, trailing_slash_re, chr. cbn [exec].
  destruct s as [|c [|c' s]]; try reflexivity.
  destruct (Ascii.eqb "/" c); reflexivity.
Qed.

Lemma without_trailing_slash_cons c c' u :
  without_trailing_slash (c :: c' :: u) = c :: without_trailing_slash (c' :: u).
Proof.
  unfold without_trailing_slash.
  destruct (rev (c' :: u)) as [|x r] eqn:Hr.
  { apply (f_equal (@length ascii)) in Hr. rewrite length_rev in Hr. discriminate. }
  change (rev (c :: c' :: u)) with (rev (c' :: u) ++ [c]). rewrite Hr. simpl.
  destruct (Ascii.eqb x "/"); [|reflexivity].
  rewrite rev_app_distr. reflexivity.
Qed.

(** The replacement [baseUrl.replace(/\/$/, '')] removes one final slash. *)
Lemma replace_trailing_slash u :
  js_replace trailing_slash_re [] u = without_trailing_slash u.
Proof.
  unfold js_replace.
  induction u as [|c u IH].
  - reflexivity.
  - cbn [search]. rewrite match_here_slash.
    destruct u as [|c' u].
    + unfold without_trailing_slash. cbn [rev app]. rewrite (Ascii.eqb_sym c).
      destruct (Ascii.eqb "/" c).
      * reflexivity.
      * cbn [search]. rewrite match_here_slash. reflexivity.
    + rewrite without_trailing_slash_cons, <- IH.
      destruct (search trailing_slash_re (c' :: u)) as [[pre m]|]; reflexivity.
Qed.

Lemma without_trailing_slash_origin (o : jsstring) :
  last o <> Some "/"%char ->
  without_trailing_slash o = o /\ without_trailing_slash (o ++ str "/") = o.
Proof.
  intros Hl. unfold without_trailing_slash. split.
  - destruct (rev o) as [|c r] eqn:Hr; [reflexivity|].
    destruct (Ascii.eqb c "/") eqn:Hc; [|reflexivity].
    apply Ascii.eqb_eq in Hc as ->.
    exfalso. apply Hl. rewrite <- (rev_involutive o), Hr. simpl.
    apply last_snoc.
  - rewrite rev_app_distr. simpl. apply rev_involutive.
Qed.

End ReleaseFacts.

(** C3: the claim has the path of the link found resolved against the
    origin of the artist URL. The code appends it to the whole artist
    URL less one trailing slash: for the artist URL
    https://artist.bandcamp.com/music and a page linking to /album/demo
    it returns https://artist.bandcamp.com/music/album/demo, which is not
    the origin https://artist.bandcamp.com followed by the path. *)
Lemma extractLatestRelease_not_origin :
  let html := str "<a href=" ++ [dquote] ++ str "/album/demo" ++ [dquote] ++ str ">" in
  let baseUrl := str "https://artist.bandcamp.com/music" in
  Scrape.extractLatestRelease html baseUrl
    = Some (str "https://artist.bandcamp.com/music/album/demo")
  /\ ReleaseSpec.origin baseUrl = str "https://artist.bandcamp.com"
  /\ Scrape.extractLatestRelease html baseUrl
     <> Some (ReleaseSpec.origin baseUrl ++ str "/album/demo").
Proof. repeat split. vm_compute. discriminate. Qed.

(** X24: the result is built from the path of the first album link if
    the album-link pattern matches, otherwise from the path of the first
    track link if that pattern matches, and is null otherwise; a path
    found is appended to the base URL as given, less one trailing slash. *)
Theorem extractLatestRelease_first_link (html baseUrl : jsstring) :
  (ReleaseSpec.has_link "album" html ->
     exists path,
       Scrape.extractLatestRelease html baseUrl
         = Some (ReleaseSpec.without_trailing_slash baseUrl ++ path)
       /\ ReleaseSpec.first_link "album" html path)
  /\ (~ ReleaseSpec.has_link "album" html -> ReleaseSpec.has_link "track" html ->
     exists path,
       Scrape.extractLatestRelease html baseUrl
         = Some (ReleaseSpec.without_trailing_slash baseUrl ++ path)
       /\ ReleaseSpec.first_link "track" html path)
  /\ (~ ReleaseSpec.has_link "album" html -> ~ ReleaseSpec.has_link "track" html ->
     Scrape.extractLatestRelease html baseUrl = None).
Proof.
  unfold Scrape.extractLatestRelease.
  rewrite ReleaseFacts.replace_trailing_slash.
  assert (Hnone : forall kind,
    Regex.js_match (Scrape.release_link_re kind) html = None ->
    ~ ReleaseSpec.has_link kind html).
  { intros kind Hn Hl. apply ReleaseFacts.has_link_occurs in Hl.
    revert Hl. apply RegexFacts.js_match_none, Hn. }
  assert (Hsome : forall kind, ReleaseSpec.has_link kind html ->
    exists m, Regex.js_match (Scrape.release_link_re kind) html = Some m
              /\ ReleaseSpec.first_link kind html (Regex.group1 m)).
  { intros kind Hl.
    apply ReleaseFacts.has_link_occurs, RegexFacts.js_match_occurs in Hl as [m Hm].
    exists m. split; [exact Hm | apply ReleaseFacts.js_match_link, Hm]. }
  split; [|split].
  - intros Ha. destruct (Hsome _ Ha) as (m & -> & Hf). eauto.
  - intros Hna Ht.
    destruct (Regex.js_match (Scrape.release_link_re "album") html) as [m|] eqn:Hm.
    { destruct Hna. apply ReleaseFacts.has_link_occurs.
      apply RegexFacts.js_match_some in Hm as (pre & Hh & M & _).
      exists pre, (Regex.matched m), (Regex.after m), (Regex.groups m). auto. }
    destruct (Hsome _ Ht) as (m & -> & Hf). eauto.
  - intros Hna Hnt.
    destruct (Regex.js_match (Scrape.release_link_re "album") html) as [m|] eqn:Hm.
    { destruct Hna. apply ReleaseFacts.has_link_occurs.
      apply RegexFacts.js_match_some in Hm as (pre & Hh & M & _).
      exists pre, (Regex.matched m), (Regex.after m), (Regex.groups m). auto. }
    destruct (Regex.js_match (Scrape.release_link_re "track") html) as [m|] eqn:Hm'.
    { destruct Hnt. apply ReleaseFacts.has_link_occurs.
      apply RegexFacts.js_match_some in Hm' as (pre & Hh & M & _).
      exists pre, (Regex.matched m), (Regex.after m), (Regex.groups m). auto. }
    reflexivity.
Qed.

Lemma extractLatestRelease_first_link_witness :
  let album_link := ReleaseSpec.href_open ++ str "/album/demo" ++ [dquote] in
  let track_link := ReleaseSpec.href_open ++ str "/track/one" ++ [dquote] in
  (exists path,
     Scrape.extractLatestRelease (track_link ++ album_link)
         (str "https://artist.bandcamp.com/")
       = Some (ReleaseSpec.without_trailing_slash (str "https://artist.bandcamp.com/") ++ path)
     /\ ReleaseSpec.first_link "album" (track_link ++ album_link) path)
  /\ (exists path,
     Scrape.extractLatestRelease track_link (str "https://artist.bandcamp.com")
       = Some (ReleaseSpec.without_trailing_slash (str "https://artist.bandcamp.com") ++ path)
     /\ ReleaseSpec.first_link "track" track_link path)
  /\ Scrape.extractLatestRelease (str "<p>no music yet</p>")
       (str "https://artist.bandcamp.com") = None.
Proof.
  intros album_link track_link.
  assert (Hno : forall kind html,
    Regex.js_match (Scrape.release_link_re kind) html = None ->
    ~ ReleaseSpec.has_link kind html).
  { intros kind html Hn Hl. apply ReleaseFacts.has_link_occurs in Hl.
    revert Hl. apply RegexFacts.js_match_none, Hn. }
  split; [|split].
  - apply (extractLatestRelease_first_link (track_link ++ album_link)
             (str "https://artist.bandcamp.com/")).
    exists track_link, album_link. split; [reflexivity|].
    exists (str "/album/demo"), []. split; [reflexivity|].
    exists (str "demo"). repeat split. discriminate.
  - apply (extractLatestRelease_first_link track_link
             (str "https://artist.bandcamp.com")).
    + apply Hno. reflexivity.
    + exists [], track_link. split; [reflexivity|].
      exists (str "/track/one"), []. split; [reflexivity|].
      exists (str "one"). repeat split. discriminate.
  - apply (extractLatestRelease_first_link (str "<p>no music yet</p>")
             (str "https://artist.bandcamp.com")); apply Hno; reflexivity.
Defined.

(** ** extractGenresAndLocation *)

Module TagsFacts.
Import Regex Scrape TagsSpec.

Section WithHost.
Context `{Host}.

Lemma forEach_link_add links : forall allTags,
  forEach_link links allTags = fold_left add_new (link_tags links) allTags.
Proof.
  unfold forEach_link, link_tags.
  induction links as [|link links IH]; intros allTags; simpl; [reflexivity|].
  rewrite IH. unfold push_link. fold (link_text link).
  destruct (truthy_str (link_text link)) eqn:Ht; simpl.
  - unfold add_new.
    destruct (tags_include (JStr (link_text link)) allTags); reflexivity.
  - reflexivity.
Qed.

Lemma forEach_tag_add items : forall allTags,
  snd (forEach_tag items allTags) = fold_left add_new (tag_names items) allTags.
Proof.
  induction items as [|tag items IH]; intros allTags;
    cbn [forEach_tag tag_names]; [reflexivity|].
  destruct (get_prop tag (str "name")) as [[v|]|]; [|apply IH|reflexivity].
  destruct (truthy (Some v)); cbn [andb fold_left]; [|apply IH].
  rewrite <- IH. unfold add_new.
  destruct (tags_include v allTags); reflexivity.
Qed.

Lemma pattern1_add html allTags :
  tags_pattern1 html allTags = fold_left add_new (container_tags html) allTags.
Proof.
  unfold tags_pattern1, container_tags.
  destruct (js_match tralbum_tags_re html) as [m|]; [|reflexivity].
  destruct (js_match_all anchor_re (group1 m)); [|reflexivity].
  apply forEach_link_add.
Qed.

Lemma pattern2_add html allTags :
  tags_pattern2 html allTags = fold_left add_new (blob_tags html) allTags.
Proof.
  unfold tags_pattern2, blob_tags.
  destruct (js_match data_tralbum_re html) as [m|]; [|reflexivity].
  unfold try_json_tags. fold (decode_entities (group1 m)).
  destruct (JSON_parse (decode_entities (group1 m))) as [data|]; [|reflexivity].
  destruct data as [|b|n|s|l|props]; cbn [get_prop truthy]; try reflexivity.
  destruct (lookup_prop (str "tags") props) as [tags|]; [|reflexivity].
  destruct tags; cbn [truthy];
    try match goal with |- context [if ?b then _ else _] => destruct b end;
    try reflexivity.
  apply forEach_tag_add.
Qed.

Lemma pattern3_add html allTags :
  tags_pattern3 html allTags = fold_left add_new (standalone_tags html) allTags.
Proof.
  unfold tags_pattern3, standalone_tags.
  destruct (js_match_all tag_link_re html); [|reflexivity].
  apply forEach_link_add.
Qed.

(** The three blocks over the one list are the merge of the three
    strategies' candidates. *)
Lemma allTags_merged html :
  tags_pattern3 html (tags_pattern2 html (tags_pattern1 html [])) = merged_tags html.
Proof.
  rewrite pattern3_add, pattern2_add, pattern1_add.
  unfold merged_tags, dedup, candidates. rewrite !fold_left_app. reflexivity.
Qed.

End WithHost.
End TagsFacts.

Module TextDedup.
Import Regex Scrape TagsSpec.

Section WithHost.
Context `{Host}.

Lemma jsstring_eqb_eq (a b : jsstring) : jsstring_eqb a b = true <-> a = b.
Proof. unfold jsstring_eqb. apply bool_decide_eq_true. Qed.

Lemma include_text (x : jsstring) (seen : list jsstring) :
  tags_include (JStr x) (map JStr seen) = existsb (jsstring_eqb x) seen.
Proof.
  unfold tags_include. induction seen as [|y seen IH]; simpl; [reflexivity|].
  rewrite IH. reflexivity.
Qed.

Lemma filter_twice {A} (P Q : A -> bool) (l : list A) :
  List.filter P (List.filter Q l) = List.filter (fun y => Q y && P y) l.
Proof.
  induction l as [|a l IH]; simpl; [reflexivity|].
  destruct (Q a); simpl; [|exact IH].
  destruct (P a); simpl; rewrite IH; reflexivity.
Qed.

Lemma add_texts (l : list jsstring) : forall seen,
  fold_left add_new (map JStr l) (map JStr seen)
  = map JStr (seen ++ List.filter (unseen seen) (first_seen l)).
Proof.
  induction l as [|x xs IH]; intros seen; simpl.
  - rewrite app_nil_r. reflexivity.
  - unfold add_new at 2. rewrite include_text.
    destruct (existsb (jsstring_eqb x) seen) eqn:Hx.
    + rewrite IH. unfold unseen at 2. rewrite Hx. simpl.
      rewrite filter_twice. do 2 f_equal. apply filter_ext. intros y.
      destruct (jsstring_eqb y x) eqn:Hy; simpl; [|reflexivity].
      apply jsstring_eqb_eq in Hy as ->. unfold unseen. rewrite Hx. reflexivity.
    + change (map JStr seen ++ [JStr x])
        with (map (@JStr number) seen ++ map (@JStr number) [x]).
      rewrite <- map_app, IH. unfold unseen at 2. rewrite Hx. simpl.
      rewrite filter_twice, <- app_assoc. simpl. do 3 f_equal.
      apply filter_ext. intros y. unfold unseen.
      rewrite existsb_app. simpl. rewrite orb_false_r, negb_orb.
      apply andb_comm.
Qed.

(** Over texts, the merge keeps each text once, where it is first seen. *)
Lemma dedup_texts (l : list jsstring) :
  dedup (map JStr l) = map JStr (first_seen l).
Proof.
  unfold dedup. change (@nil (json number)) with (map (@JStr number) []).
  rewrite add_texts. simpl. f_equal.
  rewrite <- (filter_ext (fun _ => true)); [|reflexivity].
  induction (first_seen l) as [|a l' IH]; simpl; [reflexivity|].
  rewrite IH. reflexivity.
Qed.

End WithHost.
End TextDedup.

(** C1: the tag list the three blocks build is the merge of the three
    strategies' candidates, each value once where it is first seen (over
    texts: each text once, in the order of first appearance); its last
    element is the location and up to four of the elements before it are
    the genres. The list punk, noise, lo-fi, weird, Minneapolis gives the
    first four as genres and Minneapolis as location; the empty list gives
    no genres and a null location. *)
Theorem extractGenresAndLocation_merge `{Host} (html : jsstring) :
  let merged := TagsSpec.merged_tags html in
  let result := Scrape.extractGenresAndLocation html in
  result = Scrape.mkGenresAndLocation (take 4 (removelast merged)) (last merged)
  /\ (forall ts : list jsstring,
        TagsSpec.candidates html = map JStr ts ->
        merged = map JStr (TagsSpec.first_seen ts))
  /\ (merged = TagsSpec.texts ["punk"; "noise"; "lo-fi"; "weird"; "Minneapolis"]%string ->
        Scrape.genres result = TagsSpec.texts ["punk"; "noise"; "lo-fi"; "weird"]%string
        /\ Scrape.location result = Some (JStr (str "Minneapolis")))
  /\ (merged = [] ->
        Scrape.genres result = [] /\ Scrape.location result = None).
Proof.
  intros merged result.
  assert (Hres : result
    = Scrape.mkGenresAndLocation (take 4 (removelast merged)) (last merged)).
  { unfold result, Scrape.extractGenresAndLocation.
    rewrite TagsFacts.allTags_merged. fold merged.
    destruct merged; reflexivity. }
  split; [exact Hres|]. split; [|split].
  - intros ts Hts. unfold merged, TagsSpec.merged_tags. rewrite Hts.
    apply TextDedup.dedup_texts.
  - intros Hm. rewrite Hres, Hm. split; reflexivity.
  - intros Hm. rewrite Hres, Hm. split; reflexivity.
Qed.

Lemma extractGenresAndLocation_merge_witness :
  let html := Sample.album_page in
  let result := @Scrape.extractGenresAndLocation Sample.host html in
  @TagsSpec.candidates Sample.host html
    = TagsSpec.texts ["punk"; "noise"; "punk"; "lo-fi"; "weird"; "noise"; "Minneapolis"]%string
  /\ Scrape.genres result = TagsSpec.texts ["punk"; "noise"; "lo-fi"; "weird"]%string
  /\ Scrape.location result = Some (JStr (str "Minneapolis")).
Proof.
  intros html result. split; [reflexivity|].
  apply (@extractGenresAndLocation_merge Sample.host html).
  reflexivity.
Defined.

(** ** fetchBandcampData *)

Module FetchFacts.
Import Regex Scrape Fetch.

Section WithHost.
Context `{Host}.

(** A record returned is the data of a page the network served, the last
    one requested. *)
Lemma fetchBandcampData_some (bandcampUrl : jsstring) (n n' : net) (data : BandcampData) :
  fetchBandcampData bandcampUrl n = (Some data, n') ->
  exists target pageHtml w,
    fetchUrl target w = (Some pageHtml, world n')
    /\ last (requests n') = Some target
    /\ data = page_data pageHtml.
Proof.
  unfold fetchBandcampData.
  destruct (negb (truthy_str bandcampUrl) || _); [discriminate|].
  destruct (fetch_body bandcampUrl n) as [[d|] n1] eqn:Hb; [|discriminate].
  intros [= <- <-]. revert Hb. unfold fetch_body, fetch.
  destruct (fetchUrl bandcampUrl (world n)) as [[page|] w1] eqn:H1; [|discriminate].
  assert (Hdirect : forall d0 n0,
    (Normal (page_data page), mkNet w1 (requests n ++ [bandcampUrl])) = (Normal d0, n0) ->
    exists target pageHtml w,
      fetchUrl target w = (Some pageHtml, world n0)
      /\ last (requests n0) = Some target /\ d0 = page_data pageHtml).
  { intros d0 n0 [= <- <-]. exists bandcampUrl, page, (world n). simpl.
    rewrite last_snoc. auto. }
  destruct (negb (includes (str "/album/") bandcampUrl) && _); [|apply Hdirect].
  destruct (extractLatestRelease page bandcampUrl) as [latest|]; [|apply Hdirect].
  destruct (truthy_str latest); [|apply Hdirect].
  cbn [world requests].
  destruct (fetchUrl latest w1) as [[page2|] w2] eqn:H2; [|discriminate].
  intros [= <- <-]. exists latest, page2, w1. simpl.
  rewrite last_snoc. auto.
Qed.

Lemma page_data_without_embed (pageHtml : jsstring) :
  extractEmbedInfo pageHtml = None ->
  page_data pageHtml
  = mkBandcampData None None (extractAlbumTitle pageHtml) Absent Absent
      (Scrape.genres (extractGenresAndLocation pageHtml))
      (Scrape.location (extractGenresAndLocation pageHtml)).
Proof. unfold page_data. intros ->. reflexivity. Qed.

End WithHost.
End FetchFacts.

(** C10: a record built from a fetched page on which no embed identifier
    is found has embedHtml null and trackTitle null and has no artist and
    no thumbnailUrl property, whatever the page holds for them; genres,
    location and albumTitle are those extracted from the page. *)
Theorem fetchBandcampData_without_embed `{Host}
    (bandcampUrl : jsstring) (n n' : Fetch.net) (data : Fetch.BandcampData) :
  Fetch.fetchBandcampData bandcampUrl n = (Some data, n') ->
  exists target pageHtml w,
    fetchUrl target w = (Some pageHtml, Fetch.world n')
    /\ last (Fetch.requests n') = Some target
    /\ (Scrape.extractEmbedInfo pageHtml = None ->
        data = Fetch.mkBandcampData None None (Scrape.extractAlbumTitle pageHtml)
                 Fetch.Absent Fetch.Absent
                 (Scrape.genres (Scrape.extractGenresAndLocation pageHtml))
                 (Scrape.location (Scrape.extractGenresAndLocation pageHtml))).
Proof.
  intros Hf.
  destruct (FetchFacts.fetchBandcampData_some _ _ _ _ Hf)
    as (target & pageHtml & w & Hw & Hl & ->).
  exists target, pageHtml, w. split; [exact Hw|]. split; [exact Hl|].
  apply FetchFacts.page_data_without_embed.
Qed.

Lemma fetchBandcampData_without_embed_witness :
  exists data n',
    @Fetch.fetchBandcampData Sample.host Sample.plain_url Sample.fresh_net
      = (Some data, n')
    /\ Scrape.extractEmbedInfo Sample.plain_page = None
    /\ Scrape.extractArtist Sample.plain_page = Some (str "The Band")
    /\ Scrape.extractThumbnail Sample.plain_page
       = Some (str "https://img.example/cover.jpg")
    /\ Fetch.artist data = Fetch.Absent
    /\ Fetch.thumbnailUrl data = Fetch.Absent
    /\ Fetch.albumTitle data = Some (str "First Songs")
    /\ exists target pageHtml w,
         @fetchUrl Sample.host target w = (Some pageHtml, Fetch.world n')
         /\ last (Fetch.requests n') = Some target
         /\ (Scrape.extractEmbedInfo pageHtml = None ->
             data = Fetch.mkBandcampData None None (Scrape.extractAlbumTitle pageHtml)
                      Fetch.Absent Fetch.Absent
                      (Scrape.genres (Scrape.extractGenresAndLocation pageHtml))
                      (Scrape.location (Scrape.extractGenresAndLocation pageHtml))).
Proof.
  eexists. eexists.
  split; [vm_compute; reflexivity|].
  repeat (split; [reflexivity|]).
  apply (@fetchBandcampData_without_embed Sample.host Sample.plain_url
           Sample.fresh_net).
  vm_compute. reflexivity.
Defined.

(** ** The cache-first loop over the URLs of a show *)

Module PipelineFacts.
Import Fetch Build PipelineSpec.

Section WithHost.
Context `{Host}.

Lemma url_step_emitted url bd st :
  url_step url bd st
  = (bd ++ records [emitted url st], after_url url st).
Proof.
  unfold url_step, after_url, url_step, emitted.
  destruct (bandcampCache st !! toLowerCase url) as [cached|]; [reflexivity|].
  destruct (fetchBandcampData url (network st)) as [[data|] n]; simpl;
    rewrite ?app_nil_r; reflexivity.
Qed.

Lemma url_loop_outcomes urls : forall bd st,
  fst (url_loop urls bd st) = bd ++ records (outcomes urls st).
Proof.
  induction urls as [|url rest IH]; intros bd st; simpl.
  - rewrite app_nil_r. reflexivity.
  - rewrite url_step_emitted, IH.
    destruct (emitted url st); simpl; rewrite <- ?app_assoc, ?app_nil_r; reflexivity.
Qed.

Lemma url_loop_app before : forall after bd st,
  url_loop (before ++ after) bd st
  = url_loop after (fst (url_loop before bd st)) (snd (url_loop before bd st)).
Proof.
  induction before as [|url rest IH]; intros after bd st; simpl; [reflexivity|].
  destruct (url_step url bd st) as [bd' st']. apply IH.
Qed.

Lemma url_loop_state urls : forall bd bd' st,
  snd (url_loop urls bd st) = snd (url_loop urls bd' st).
Proof.
  induction urls as [|url rest IH]; intros bd bd' st; simpl; [reflexivity|].
  rewrite (url_step_emitted url bd), (url_step_emitted url bd'). apply IH.
Qed.

Lemma length_outcomes urls : forall st, length (outcomes urls st) = length urls.
Proof. induction urls as [|url rest IH]; intros st; simpl; [|rewrite IH]; reflexivity. Qed.

Lemma length_records (outs : list (option BandcampData)) :
  length (records outs) <= length outs.
Proof.
  induction outs as [|[r|] outs IH]; simpl; lia.
Qed.

(** The cache only grows, and an entry never changes. *)
Lemma url_step_cache url bd st :
  bandcampCache st ⊆ bandcampCache (snd (url_step url bd st)).
Proof.
  unfold url_step.
  destruct (bandcampCache st !! toLowerCase url) as [cached|] eqn:Hc; [reflexivity|].
  destruct (fetchBandcampData url (network st)) as [[data|] n]; simpl; [|reflexivity].
  apply insert_subseteq, Hc.
Qed.

Lemma url_loop_cache urls : forall bd st,
  bandcampCache st ⊆ bandcampCache (snd (url_loop urls bd st)).
Proof.
  induction urls as [|url rest IH]; intros bd st; simpl; [reflexivity|].
  destruct (url_step url bd st) as [bd' st'] eqn:Hs.
  etransitivity; [|apply IH].
  change st' with (snd (bd', st')). rewrite <- Hs. apply url_step_cache.
Qed.

(** A URL whose key is in the cache: the cached record, one more hit, the
    network as it was. *)
Lemma url_step_hit url bd st cached :
  bandcampCache st !! toLowerCase url = Some cached ->
  url_step url bd st = (bd ++ [cached], with_hits 1 st).
Proof.
  unfold url_step, with_hits. intros ->. rewrite Nat.add_1_r. reflexivity.
Qed.

(** What a URL yields is in the cache afterwards, under its key. *)
Lemma emitted_cached url st r :
  emitted url st = Some r ->
  bandcampCache (after_url url st) !! toLowerCase url = Some r.
Proof.
  unfold emitted, after_url, url_step.
  destruct (bandcampCache st !! toLowerCase url) as [cached|] eqn:Hc.
  - intros [= ->]. exact Hc.
  - destruct (fetchBandcampData url (network st)) as [[data|] n]; simpl;
      [|discriminate].
    intros [= ->]. apply lookup_insert_eq.
Qed.

Lemma with_hits_add j k st : with_hits j (with_hits k st) = with_hits (k + j) st.
Proof. unfold with_hits. simpl. rewrite Nat.add_assoc. reflexivity. Qed.

(** A second pass over URLs that all yielded a record: the same records,
    hits only. *)
Lemma url_loop_again urls : forall st1 st2 bd2,
  length (records (outcomes urls st1)) = length urls ->
  bandcampCache (snd (url_loop urls [] st1)) ⊆ bandcampCache st2 ->
  url_loop urls bd2 st2
  = (bd2 ++ records (outcomes urls st1), with_hits (length urls) st2).
Proof.
  induction urls as [|url rest IH]; intros st1 st2 bd2 Hlen Hsub.
  - simpl. rewrite app_nil_r. unfold with_hits. rewrite Nat.add_0_r.
    destruct st2; reflexivity.
  - simpl in Hlen, Hsub |- *.
    rewrite url_step_emitted in Hsub. fold (after_url url st1) in Hsub.
    destruct (emitted url st1) as [r|] eqn:He.
    + cbn [records] in Hlen |- *.
      assert (Hr : bandcampCache st2 !! toLowerCase url = Some r).
      { eapply lookup_weaken; [|exact Hsub].
        eapply lookup_weaken; [apply emitted_cached, He|].
        rewrite (url_loop_state rest _ []). apply url_loop_cache. }
      rewrite (url_step_hit _ _ _ _ Hr).
      rewrite (IH (after_url url st1) (with_hits 1 st2) (bd2 ++ [r])).
      * rewrite <- app_assoc, with_hits_add. reflexivity.
      * simpl in Hlen. lia.
      * rewrite (url_loop_state rest _ []) in Hsub. exact Hsub.
    + exfalso. cbn [records] in Hlen. simpl in Hlen.
      pose proof (length_records (outcomes rest (after_url url st1))) as Hle.
      rewrite length_outcomes in Hle. lia.
Qed.

End WithHost.
End PipelineFacts.

Module BuildFacts.
Import Fetch Build PipelineSpec.

Section WithHost.
Context `{Host}.

Lemma show_step_cache show st :
  bandcampCache st ⊆ bandcampCache (snd (show_step show st)).
Proof.
  unfold show_step. destruct (bandcampUrl show) as [|u]; [reflexivity|].
  destruct (truthy_str u); [|reflexivity].
  pose proof (PipelineFacts.url_loop_cache (media_urls u) [] st) as Hc.
  destruct (url_loop (media_urls u) [] st) as [bd st']. exact Hc.
Qed.

Lemma show_loop_cache raw : forall shows st,
  bandcampCache st ⊆ bandcampCache (snd (show_loop raw shows st)).
Proof.
  induction raw as [|show rest IH]; intros shows st; simpl; [reflexivity|].
  pose proof (show_step_cache show st) as Hc.
  destruct (show_step show st) as [show' st'].
  etransitivity; [exact Hc | apply IH].
Qed.

Lemma show_loop_length raw : forall shows st,
  length (fst (show_loop raw shows st)) = length shows + length raw.
Proof.
  induction raw as [|show rest IH]; intros shows st; simpl; [lia|].
  destruct (show_step show st) as [show' st'].
  rewrite IH, length_app. simpl. lia.
Qed.

End WithHost.
End BuildFacts.

(** C6 as stated fails in its second half: a URL whose fetch failed in the
    first run is not in the cache that run produced, and the second run
    requests it again. *)
Lemma second_run_fetches_again :
  let st0 := @Build.mkState Sample.host Sample.fresh_net ∅ 0 0 in
  let run1 := @Build.url_loop Sample.host [Sample.down_url] [] st0 in
  let run2 := @Build.url_loop Sample.host [Sample.down_url] [] (snd run1) in
  Build.bandcampCache (snd run1) = ∅
  /\ Fetch.requests (Build.network (snd run1)) = [Sample.down_url]
  /\ Fetch.requests (Build.network (snd run2)) = [Sample.down_url; Sample.down_url]
  /\ Fetch.requests (Build.network (snd run2)) <> Fetch.requests (Build.network (snd run1)).
Proof. vm_compute. repeat split. discriminate. Qed.

(** C7: whatever happens to one URL, the loop goes on to the next: each URL
    of the list has its outcome, in the order of the list, and the media
    sequence is the records among the outcomes in that order, with nothing
    standing for a URL that yielded none. A URL that is not cached and
    whose fetch or extraction fails adds nothing, changes neither cache nor
    counters, and the URLs after it are processed as they would be without
    it; a rejected fetch is such a failure. The loop over the shows emits
    one show for each. *)
Theorem url_failure_is_skipped `{Host} (urls : list jsstring) (st : Build.state) :
  length (PipelineSpec.outcomes urls st) = length urls
  /\ fst (Build.url_loop urls [] st) = PipelineSpec.records (PipelineSpec.outcomes urls st)
  /\ (forall before url after,
        urls = before ++ url :: after ->
        let bd1 := fst (Build.url_loop before [] st) in
        let st1 := snd (Build.url_loop before [] st) in
        Build.bandcampCache st1 !! toLowerCase url = None ->
        fst (Fetch.fetchBandcampData url (Build.network st1)) = None ->
        exists n',
          Build.url_step url bd1 st1
            = (bd1, Build.mkState n' (Build.bandcampCache st1)
                      (Build.cacheHits st1) (Build.cacheMisses st1))
          /\ Build.url_loop urls [] st
             = Build.url_loop after bd1
                 (Build.mkState n' (Build.bandcampCache st1)
                    (Build.cacheHits st1) (Build.cacheMisses st1)))
  /\ (forall url n,
        fst (fetchUrl url (Fetch.world n)) = None ->
        fst (Fetch.fetchBandcampData url n) = None)
  /\ (forall raw st', length (fst (Build.show_loop raw [] st')) = length raw).
Proof.
  split; [apply PipelineFacts.length_outcomes|].
  split; [apply (PipelineFacts.url_loop_outcomes urls [] st)|].
  split; [|split].
  - intros before url after -> bd1 st1 Hmiss Hfail.
    assert (Hstep : exists n',
      Build.url_step url bd1 st1
      = (bd1, Build.mkState n' (Build.bandcampCache st1)
                (Build.cacheHits st1) (Build.cacheMisses st1))).
    { unfold Build.url_step. rewrite Hmiss.
      destruct (Fetch.fetchBandcampData url (Build.network st1)) as [[d|] n'];
        [discriminate|]. eauto. }
    destruct Hstep as [n' Hstep]. exists n'. split; [exact Hstep|].
    rewrite PipelineFacts.url_loop_app. fold bd1 st1. simpl. rewrite Hstep.
    reflexivity.
  - intros url n Hrej. unfold Fetch.fetchBandcampData.
    destruct (negb (truthy_str url) || _); [reflexivity|].
    unfold Fetch.fetch_body, Fetch.fetch.
    destruct (fetchUrl url (Fetch.world n)) as [[page|] w]; [discriminate|].
    reflexivity.
  - intros raw st'. rewrite BuildFacts.show_loop_length. reflexivity.
Qed.

Lemma url_failure_is_skipped_witness :
  let st := @Build.mkState Sample.host Sample.fresh_net ∅ 0 0 in
  let urls := [Sample.plain_url; Sample.down_url; Sample.album_url] in
  length (fst (@Build.url_loop Sample.host urls [] st)) = 2
  /\ fst (@Build.url_loop Sample.host urls [] st)
     = fst (@Build.url_loop Sample.host [Sample.plain_url; Sample.album_url] [] st)
  /\ exists n',
       @Build.url_loop Sample.host urls [] st
       = @Build.url_loop Sample.host [Sample.album_url]
           (fst (@Build.url_loop Sample.host [Sample.plain_url] [] st))
           (Build.mkState n'
              (Build.bandcampCache (snd (@Build.url_loop Sample.host [Sample.plain_url] [] st)))
              (Build.cacheHits (snd (@Build.url_loop Sample.host [Sample.plain_url] [] st)))
              (Build.cacheMisses (snd (@Build.url_loop Sample.host [Sample.plain_url] [] st)))).
Proof.
  intros st urls.
  split; [vm_compute; reflexivity|]. split; [vm_compute; reflexivity|].
  destruct (proj1 (proj2 (proj2 (@url_failure_is_skipped Sample.host urls st)))
              [Sample.plain_url] Sample.down_url [Sample.album_url] eq_refl)
    as (n' & _ & Hloop).
  - vm_compute. reflexivity.
  - vm_compute. reflexivity.
  - exists n'. exact Hloop.
Defined.

(** ** Array.prototype.sort *)

Module SortFacts.
Import JsSort.

Section Sort.
Context {A : Type}.

Lemma insert_perm (cmp : A -> A -> option Z) x l :
  Permutation (insert cmp x l) (x :: l).
Proof.
  induction l as [|y l IH]; simpl; [reflexivity|].
  destruct (keeps_before cmp x y); [reflexivity|].
  rewrite IH. apply perm_swap.
Qed.

Lemma sort_perm (cmp : A -> A -> option Z) l : Permutation (sort cmp l) l.
Proof.
  induction l as [|x l IH]; simpl; [reflexivity|].
  rewrite insert_perm, IH. reflexivity.
Qed.

(** Two comparators that agree on the elements sort alike. *)
Lemma insert_agree (cmp cmp' : A -> A -> option Z) x l :
  (forall y, In y l -> cmp x y = cmp' x y) ->
  insert cmp x l = insert cmp' x l.
Proof.
  induction l as [|y l IH]; intros Hag; simpl; [reflexivity|].
  unfold keeps_before. rewrite (Hag y (or_introl eq_refl)).
  rewrite IH; [reflexivity|]. intros z Hz. apply Hag. right. exact Hz.
Qed.

Lemma sort_agree (cmp cmp' : A -> A -> option Z) l :
  (forall x y, In x l -> In y l -> cmp x y = cmp' x y) ->
  sort cmp l = sort cmp' l.
Proof.
  induction l as [|x l IH]; intros Hag; simpl; [reflexivity|].
  rewrite IH by (intros; apply Hag; right; assumption).
  apply insert_agree. intros y Hy. apply Hag; [left; reflexivity|].
  right. eapply Permutation_in; [apply sort_perm | exact Hy].
Qed.

(** Sorting by an integer key. *)
Variable key : A -> Z.

Local Abbreviation by_key := (SortSpec.by_key key).
Local Abbreviation key_le := (SortSpec.key_le key).
Local Abbreviation with_key := (SortSpec.with_key key).

Lemma keeps_before_key x y : keeps_before by_key x y = (key x <=? key y)%Z.
Proof.
  unfold keeps_before, SortSpec.by_key.
  destruct (Z.leb_spec (key x - key y) 0), (Z.leb_spec (key x) (key y)); lia.
Qed.

Lemma insert_sorted x l :
  StronglySorted key_le l -> StronglySorted key_le (insert by_key x l).
Proof.
  induction 1 as [|y l Hs IH Hall]; simpl.
  - repeat constructor.
  - rewrite keeps_before_key. destruct (Z.leb_spec (key x) (key y)) as [Hle|Hgt].
    + constructor; [constructor; assumption|].
      constructor; [exact Hle|].
      eapply Forall_impl; [exact Hall|]. unfold SortSpec.key_le. intros; lia.
    + constructor; [exact IH|].
      assert (Hxl : Forall (SortSpec.key_le key y) (x :: l)).
      { constructor; [unfold SortSpec.key_le; lia | exact Hall]. }
      rewrite Forall_forall in Hxl |- *. intros z Hz. apply Hxl.
      rewrite <- (insert_perm by_key x l). exact Hz.
Qed.

Lemma sort_sorted l : StronglySorted key_le (sort by_key l).
Proof.
  induction l as [|x l IH]; simpl; [constructor | apply insert_sorted, IH].
Qed.

Lemma insert_with_key t x l :
  with_key t (insert by_key x l) = with_key t (x :: l).
Proof.
  induction l as [|y l IH]; [reflexivity|].
  cbn [insert]. rewrite keeps_before_key.
  destruct (Z.leb_spec (key x) (key y)) as [Hle|Hgt]; [reflexivity|].
  unfold SortSpec.with_key in *. cbn [List.filter] in *. rewrite IH.
  destruct (Z.eqb_spec (key x) t), (Z.eqb_spec (key y) t); try reflexivity. lia.
Qed.

(** The sort is stable: elements of equal key keep their order. *)
Lemma sort_with_key t l : with_key t (sort by_key l) = with_key t l.
Proof.
  induction l as [|x l IH]; [reflexivity|].
  cbn [sort]. rewrite insert_with_key. unfold SortSpec.with_key in *.
  cbn [List.filter]. rewrite IH. reflexivity.
Qed.

End Sort.
End SortFacts.

(** ** The shows of the document *)

Module ShowsFacts.
Import Scrape Fetch Build ShowsSpec.

Lemma eqb_eq (a b : jsstring) : jsstring_eqb a b = true <-> a = b.
Proof. unfold jsstring_eqb. apply bool_decide_eq_true. Qed.

Lemma eqb_neq (a b : jsstring) : jsstring_eqb a b = false <-> a <> b.
Proof. unfold jsstring_eqb. apply bool_decide_eq_false. Qed.











Section WithHost.
Context `{Host}.






Lemma build_shows venuesCsv showsCsv st :
  shows (fst (build venuesCsv showsCsv st))
  = JsSort.sort by_date (emitted_shows venuesCsv showsCsv st).
Proof.
  unfold build, emitted_shows.
  destruct (show_loop _ [] st) as [l st']. reflexivity.
Qed.


End WithHost.
End ShowsFacts.



(** ** The order of the shows *)

Module OrderFacts.
Import Fetch Build ShowsSpec.

Section WithHost.
Context `{Host}.

Lemma by_date_key (a b : Show) :
  has_date a -> has_date b -> by_date a b = SortSpec.by_key time_key a b.
Proof.
  unfold has_date, by_date, SortSpec.by_key, time_key, time_of.
  intros [ta ->] [tb ->]. reflexivity.
Qed.

Lemma sort_by_date_key (l : list Show) :
  Forall has_date l ->
  JsSort.sort by_date l = JsSort.sort (SortSpec.by_key time_key) l.
Proof.
  intros Hall. apply SortFacts.sort_agree. intros x y Hx Hy.
  rewrite List.Forall_forall in Hall. apply by_date_key; apply Hall; assumption.
Qed.

Lemma sorted_ascending (l : list Show) :
  Forall has_date l -> StronglySorted (SortSpec.key_le time_key) l -> ascending l.
Proof.
  unfold ascending. intros Hall Hs. induction Hs as [|a l Hs IH Hle].
  - constructor.
  - apply Forall_cons_1 in Hall as [Ha Hall].
    constructor; [apply IH, Hall|].
    rewrite List.Forall_forall in Hle, Hall |- *. intros b Hb.
    specialize (Hle b Hb). specialize (Hall b Hb).
    unfold SortSpec.key_le, time_key in Hle. unfold has_date in Ha, Hall.
    destruct Ha as [ta Hta], Hall as [tb Htb]. rewrite Hta, Htb in Hle.
    exists ta, tb. auto.
Qed.

Lemma dated_with_key (t : Z) (l : list Show) :
  Forall has_date l -> dated t l = SortSpec.with_key time_key t l.
Proof.
  intros Hall. unfold dated, SortSpec.with_key. apply filter_ext_in.
  intros s Hs. rewrite List.Forall_forall in Hall.
  destruct (Hall s Hs) as [ts Hts]. unfold time_key. rewrite Hts. reflexivity.
Qed.

Lemma sort_by_date_ok (l : list Show) :
  Forall has_date l ->
  ascending (JsSort.sort by_date l)
  /\ Permutation (JsSort.sort by_date l) l
  /\ (forall t, dated t (JsSort.sort by_date l) = dated t l).
Proof.
  intros Hall.
  assert (Hperm : Permutation (JsSort.sort by_date l) l) by apply SortFacts.sort_perm.
  assert (Hall' : Forall has_date (JsSort.sort by_date l)).
  { rewrite Hperm. exact Hall. }
  split; [|split; [exact Hperm|]].
  - apply sorted_ascending; [exact Hall'|].
    rewrite sort_by_date_key by exact Hall. apply SortFacts.sort_sorted.
  - intros t. rewrite (dated_with_key t _ Hall'), (dated_with_key t _ Hall).
    rewrite sort_by_date_key by exact Hall. apply SortFacts.sort_with_key.
Qed.

End WithHost.
End OrderFacts.

(** C9: where every show's date parses, the shows of the document are in
    ascending order of parsed date, they are the emitted shows reordered,
    and the shows of any one date stand in the order in which they were
    emitted, which is that of the rows. Three shows dated 2025-11-01,
    2025-10-15, 2025-11-01 come out as the second, the first, the third. *)
Theorem shows_sorted_by_date `{Host}
    (venuesCsv showsCsv : jsstring) (st : Build.state) :
  let emitted := ShowsSpec.emitted_shows venuesCsv showsCsv st in
  let final := Build.shows (fst (Build.build venuesCsv showsCsv st)) in
  (Forall ShowsSpec.has_date emitted ->
     ShowsSpec.ascending final
     /\ Permutation final emitted
     /\ (forall t, ShowsSpec.dated t final = ShowsSpec.dated t emitted))
  /\ (forall a b c : Build.Show,
        Build.date a = str "2025-11-01" ->
        Build.date b = str "2025-10-15" ->
        Build.date c = str "2025-11-01" ->
        JsSort.sort Build.by_date [a; b; c] = [b; a; c]).
Proof.
  intros emitted final. split.
  - intros Hall. unfold final. rewrite ShowsFacts.build_shows.
    apply OrderFacts.sort_by_date_ok, Hall.
  - intros a b c Ha Hb Hc.
    assert (Hnov : JsDate.time_value (str "2025-11-01") = Some 1761955200000%Z)
      by reflexivity.
    assert (Hoct : JsDate.time_value (str "2025-10-15") = Some 1760486400000%Z)
      by reflexivity.
    assert (Hcmp : forall x y tx ty,
      JsDate.time_value (Build.date x) = Some tx ->
      JsDate.time_value (Build.date y) = Some ty ->
      JsSort.keeps_before Build.by_date x y = (tx - ty <=? 0)%Z).
    { intros x y tx ty Hx Hy. unfold JsSort.keeps_before, Build.by_date.
      rewrite Hx, Hy. reflexivity. }
    rewrite <- Ha in Hnov. rewrite <- Hb in Hoct.
    assert (Hnov' := Hnov). rewrite Ha, <- Hc in Hnov'.
    assert (Hbc := Hcmp b c _ _ Hoct Hnov').
    assert (Hab := Hcmp a b _ _ Hnov Hoct).
    assert (Hac := Hcmp a c _ _ Hnov Hnov').
    change (JsSort.keeps_before Build.by_date b c = true) in Hbc.
    change (JsSort.keeps_before Build.by_date a b = false) in Hab.
    change (JsSort.keeps_before Build.by_date a c = true) in Hac.
    cbn [JsSort.sort JsSort.insert].
    rewrite Hbc. cbn [JsSort.insert]. rewrite Hab, Hac. reflexivity.
Qed.

Lemma shows_sorted_by_date_witness :
  let emitted := @ShowsSpec.emitted_shows Sample.host SampleSheet.venues_csv
                   SampleSheet.shows_csv SampleSheet.start in
  let final := Build.shows (fst (@Build.build Sample.host SampleSheet.venues_csv
                                   SampleSheet.shows_csv SampleSheet.start)) in
  map (fun s => (Build.date s, Build.title s)) emitted
    = [(str "2025-11-01", str "Late One"); (str "2025-10-15", str "Early");
       (str "2025-11-01", str "Late Two")]
  /\ map (fun s => (Build.date s, Build.title s)) final
     = [(str "2025-10-15", str "Early"); (str "2025-11-01", str "Late One");
        (str "2025-11-01", str "Late Two")]
  /\ ShowsSpec.ascending final
  /\ (forall t, ShowsSpec.dated t final = ShowsSpec.dated t emitted).
Proof.
  intros emitted final.
  split; [vm_compute; reflexivity|]. split; [vm_compute; reflexivity|].
  destruct (proj1 (@shows_sorted_by_date Sample.host SampleSheet.venues_csv
                     SampleSheet.shows_csv SampleSheet.start))
    as (Hasc & _ & Hstable).
  - fold emitted.
    assert (Hd : forallb (fun s => match ShowsSpec.time_of s with
                                   | Some _ => true
                                   | None => false
                                   end) emitted = true)
      by (vm_compute; reflexivity).
    rewrite forallb_forall in Hd. apply List.Forall_forall. intros s Hs.
    specialize (Hd s Hs). unfold ShowsSpec.has_date.
    destruct (ShowsSpec.time_of s); [eauto | discriminate].
  - split; [exact Hasc | exact Hstable].
Defined.

(** * Further properties *)

(** ** parseCSV *)

Module CsvFacts.
Import CSV CsvSpec.

Lemma add_text_nil st : add_text [] st = st.
Proof. destruct st. unfold add_text. simpl. rewrite app_nil_r. reflexivity. Qed.

Lemma add_text_char c s st : add_text s (add_char c st) = add_text (c :: s) st.
Proof. unfold add_text, add_char. simpl. rewrite <- app_assoc. reflexivity. Qed.

Lemma plain_facts c :
  plain c = true ->
  Ascii.eqb c dquote = false /\ Ascii.eqb c "," = false
  /\ Ascii.eqb c LF = false /\ Ascii.eqb c CR = false.
Proof.
  unfold plain. rewrite !andb_true_iff, !negb_true_iff. tauto.
Qed.

(** Bare text of plain characters goes to the field as it is. *)
Lemma loop_plain f : forall rest st,
  forallb plain f = true ->
  inQuotes st = false ->
  loop (f ++ rest) st = loop rest (add_text f st).
Proof.
  induction f as [|c f IH]; intros rest st Hf Hq.
  - rewrite add_text_nil. reflexivity.
  - simpl in Hf. apply andb_prop in Hf as [Hc Hf].
    destruct (plain_facts c Hc) as (H1 & H2 & H3 & H4).
    cbn [app loop]. rewrite H1, H2, H3, H4. cbn [andb].
    rewrite IH by assumption. rewrite add_text_char. reflexivity.
Qed.

(** Inside quotes, the escaped text of a field and the closing quote put
    the field into the accumulator and leave the quotes. *)
Lemma loop_escaped f : forall rest st,
  no_CR f ->
  not_quote_next rest ->
  inQuotes st = true ->
  loop (escape f ++ dquote :: rest) st = loop rest (toggle (add_text f st)).
Proof.
  induction f as [|c f IH]; intros rest st Hcr Hn Hq.
  - rewrite add_text_nil. cbn [escape app loop]. rewrite Ascii.eqb_refl.
    destruct rest as [|next rest']; [reflexivity|].
    simpl in Hn. apply Ascii.eqb_neq in Hn. rewrite Hn, andb_false_r. reflexivity.
  - assert (Hcr' : no_CR f) by (intros Hin; apply Hcr; right; exact Hin).
    assert (Hc : Ascii.eqb c CR = false).
    { apply Ascii.eqb_neq. intros ->. apply Hcr. left. reflexivity. }
    cbn [escape]. destruct (Ascii.eqb c dquote) eqn:Hd.
    + apply Ascii.eqb_eq in Hd as ->.
      cbn [app loop]. rewrite Ascii.eqb_refl, Hq. cbn [andb].
      rewrite IH by assumption. rewrite add_text_char. reflexivity.
    + cbn [app loop]. rewrite Hd, Hq, Hc. cbn [negb]. rewrite !andb_false_r.
      rewrite IH by assumption. rewrite add_text_char. reflexivity.
Qed.

Lemma loop_quoted f rest st :
  no_CR f ->
  not_quote_next rest ->
  inQuotes st = false ->
  loop (quote_field f ++ rest) st = loop rest (add_text f st).
Proof.
  intros Hcr Hn Hq. unfold quote_field. cbn [app]. rewrite <- app_assoc. cbn [app].
  assert (Hstep : loop (dquote :: escape f ++ dquote :: rest) st
                  = loop (escape f ++ dquote :: rest) (toggle st)).
  { cbn [loop]. rewrite Ascii.eqb_refl, Hq. cbn [andb].
    destruct (escape f ++ dquote :: rest); reflexivity. }
  rewrite Hstep, loop_escaped; try assumption.
  - destruct st as [rs cur fl q]. simpl in Hq. subst q. reflexivity.
  - destruct st as [rs cur fl q]. simpl in Hq. subst q. reflexivity.
Qed.

Lemma loop_field quoted f rest st :
  sound_choice quoted f ->
  no_CR f ->
  not_quote_next rest ->
  inQuotes st = false ->
  loop (write_field quoted f ++ rest) st = loop rest (add_text f st).
Proof.
  intros Hs Hcr Hn Hq. unfold write_field. destruct (quoted f) eqn:Hqf.
  - apply loop_quoted; assumption.
  - apply loop_plain; [apply Hs, Hqf | exact Hq].
Qed.

Lemma loop_fields quoted row : forall rest rs cur,
  row <> [] ->
  Forall (sound_choice quoted) row ->
  Forall no_CR row ->
  loop (write_fields quoted row ++ LF :: rest) (mkState rs cur [] false)
  = loop rest (mkState (rs ++ [cur ++ row]) [] [] false).
Proof.
  induction row as [|f row IH]; intros rest rs cur Hne Hs Hcr; [congruence|].
  apply Forall_cons_1 in Hs as [Hsf Hs]. apply Forall_cons_1 in Hcr as [Hcf Hcr].
  destruct row as [|g row].
  - cbn [write_fields].
    rewrite loop_field;
      [| exact Hsf | exact Hcf | simpl; discriminate | reflexivity].
    cbn [loop add_text field rows current inQuotes app].
    replace (Ascii.eqb LF dquote) with false by reflexivity.
    replace (Ascii.eqb LF ",") with false by reflexivity.
    rewrite Ascii.eqb_refl. reflexivity.
  - change (write_fields quoted (f :: g :: row))
      with (write_field quoted f ++ ","%char :: write_fields quoted (g :: row)).
    rewrite <- app_assoc. cbn [app].
    rewrite loop_field;
      [| exact Hsf | exact Hcf | simpl; discriminate | reflexivity].
    cbn [loop add_text field rows current inQuotes app].
    replace (Ascii.eqb "," dquote) with false by reflexivity.
    rewrite Ascii.eqb_refl. cbn [andb negb].
    change (end_field (add_text f (mkState rs cur [] false)))
      with (mkState rs (cur ++ [f]) [] false).
    rewrite IH; [| discriminate | exact Hs | exact Hcr].
    rewrite <- app_assoc. reflexivity.
Qed.

Lemma loop_rows quoted rows : forall rs,
  Forall (fun row => row <> []) rows ->
  Forall (Forall (sound_choice quoted)) rows ->
  Forall (Forall no_CR) rows ->
  loop (write_rows quoted rows) (mkState rs [] [] false)
  = mkState (rs ++ rows) [] [] false.
Proof.
  induction rows as [|row rows IH]; intros rs Hne Hs Hcr.
  - rewrite app_nil_r. reflexivity.
  - apply Forall_cons_1 in Hne as [Hn1 Hne].
    apply Forall_cons_1 in Hs as [Hs1 Hs]. apply Forall_cons_1 in Hcr as [Hc1 Hcr].
    cbn [write_rows].
    rewrite loop_fields by assumption. cbn [app].
    rewrite IH by assumption. rewrite <- app_assoc. reflexivity.
Qed.

End CsvFacts.

(** X1: rows written the usual way are read back as they were: each field
    either bare, when it has no quote, comma, line feed or carriage return,
    or between quotes with its quotes doubled; commas between the fields
    and a line feed after each row. This holds for rows of at least one
    field whose fields hold no carriage return. *)
Theorem parseCSV_reads_back (quoted : jsstring -> bool) (rows : list (list jsstring)) :
  Forall (fun row => row <> []) rows ->
  Forall (Forall (CsvSpec.sound_choice quoted)) rows ->
  Forall (Forall CsvSpec.no_CR) rows ->
  CSV.parseCSV (CsvSpec.write_rows quoted rows) = rows.
Proof.
  intros Hne Hs Hcr. unfold CSV.parseCSV, CSV.init.
  rewrite CsvFacts.loop_rows by assumption. reflexivity.
Qed.

Lemma parseCSV_reads_back_witness :
  let quoted := fun f => negb (forallb CsvSpec.plain f) in
  let rows := [[str "a,b"; str "say " ++ [dquote] ++ str "hi" ++ [dquote]; []; str "x" ++ [LF] ++ str "y"];
               [str "plain"]] in
  CSV.parseCSV (CsvSpec.write_rows quoted rows) = rows.
Proof.
  intros quoted rows.
  assert (Hsound : forall f, CsvSpec.sound_choice quoted f).
  { intros f Hf. unfold quoted in Hf. apply negb_false_iff in Hf. exact Hf. }
  apply (parseCSV_reads_back quoted rows).
  - repeat constructor; discriminate.
  - repeat constructor; apply Hsound.
  - repeat constructor; unfold CsvSpec.no_CR; cbv; intuition discriminate.
Defined.

Module CsvInvariants.
Import CSV CsvSpec.

(** What every step of the loop keeps, the loop keeps. *)
Lemma loop_keeps (P : state -> Prop) :
  (forall st c, c <> CR -> P st -> P (add_char c st)) ->
  (forall st, P st -> P (toggle st)) ->
  (forall st, P st -> P (end_field st)) ->
  (forall st, P st -> P (end_row st)) ->
  forall csv st, P st -> P (loop csv st).
Proof.
  intros Hadd Htog Hfld Hrow csv.
  assert (Hgen : forall n csv, length csv <= n -> forall st, P st -> P (loop csv st)).
  { induction n as [|n IH]; intros [|c rest] Hlen st Hst; simpl in Hlen;
      try exact Hst; try lia.
    cbn [loop]. destruct (Ascii.eqb c dquote).
    - destruct rest as [|next rest'].
      + apply (IH []); [simpl; lia | apply Htog, Hst].
      + destruct (inQuotes st && Ascii.eqb next dquote).
        * apply IH; [simpl in Hlen; lia|]. apply Hadd; [discriminate | exact Hst].
        * apply IH; [lia | apply Htog, Hst].
    - destruct (Ascii.eqb c "," && negb (inQuotes st));
        [apply IH; [lia | apply Hfld, Hst]|].
      destruct (Ascii.eqb c LF && negb (inQuotes st));
        [apply IH; [lia | apply Hrow, Hst]|].
      destruct (Ascii.eqb c CR) eqn:Hc; [apply IH; [lia | exact Hst]|].
      apply IH; [lia|]. apply Hadd; [|exact Hst].
      apply Ascii.eqb_neq, Hc. }
  apply (Hgen (length csv)). lia.
Qed.

(** The text after a point where no quote follows is read from the state
    reached at that point. *)
Lemma loop_app pre : forall rest st,
  not_quote_next rest ->
  loop (pre ++ rest) st = loop rest (loop pre st).
Proof.
  assert (Hgen : forall n pre, length pre <= n -> forall rest st,
    not_quote_next rest -> loop (pre ++ rest) st = loop rest (loop pre st)).
  { induction n as [|n IH]; intros [|c pre'] Hlen rest st Hn; simpl in Hlen;
      try reflexivity; try lia.
    cbn [app loop]. destruct (Ascii.eqb c dquote).
    - destruct pre' as [|next pre''].
      + cbn [app loop]. destruct rest as [|r rest']; [reflexivity|].
        simpl in Hn. apply Ascii.eqb_neq in Hn. rewrite Hn, andb_false_r.
        reflexivity.
      + cbn [app]. destruct (inQuotes st && Ascii.eqb next dquote).
        * apply IH; [simpl in Hlen; lia | exact Hn].
        * apply (IH (next :: pre'')); [lia | exact Hn].
    - destruct (Ascii.eqb c "," && negb (inQuotes st)); [apply IH; [lia | exact Hn]|].
      destruct (Ascii.eqb c LF && negb (inQuotes st)); [apply IH; [lia | exact Hn]|].
      destruct (Ascii.eqb c CR); apply IH; try lia; exact Hn. }
  intros rest st. apply (Hgen (length pre)). lia.
Qed.

(** Inside quotes and with no quote ahead, everything but the carriage
    returns goes to the field. *)
Lemma loop_in_quotes s : forall st,
  inQuotes st = true ->
  ~ In dquote s ->
  loop s st = add_text (without_CR s) st.
Proof.
  induction s as [|c s IH]; intros st Hq Hs.
  - symmetry. apply CsvFacts.add_text_nil.
  - assert (Hc : Ascii.eqb c dquote = false).
    { apply Ascii.eqb_neq. intros ->. apply Hs. left. reflexivity. }
    assert (Hs' : ~ In dquote s) by (intros Hin; apply Hs; right; exact Hin).
    cbn [loop without_CR List.filter]. rewrite Hc, Hq. cbn [negb].
    rewrite !andb_false_r. destruct (Ascii.eqb c CR); cbn [negb].
    + apply IH; assumption.
    + rewrite IH by assumption. apply CsvFacts.add_text_char.
Qed.

End CsvInvariants.

(** X2: every row has at least one field, whatever the text. *)
Theorem parseCSV_rows_not_empty (csv : jsstring) :
  Forall (fun row => row <> []) (CSV.parseCSV csv).
Proof.
  unfold CSV.parseCSV, CSV.flush.
  assert (Hinv : Forall (fun row => row <> []) (CSV.rows (CSV.loop csv CSV.init))).
  { apply (CsvInvariants.loop_keeps
             (fun st => Forall (fun row => row <> []) (CSV.rows st))).
    - intros st c _ Hst. exact Hst.
    - intros st Hst. exact Hst.
    - intros st Hst. exact Hst.
    - intros st Hst. simpl. apply Forall_app. split; [exact Hst|].
      constructor; [|constructor]. destruct (CSV.current st); discriminate.
    - constructor. }
  destruct (truthy_str _ || _); [|exact Hinv].
  apply Forall_app. split; [exact Hinv|].
  constructor; [|constructor].
  destruct (CSV.current (CSV.loop csv CSV.init)); discriminate.
Qed.

(** X3: no field holds a carriage return, inside quotes or outside. *)
Theorem parseCSV_no_carriage_return (csv : jsstring) :
  Forall (Forall CsvSpec.no_CR) (CSV.parseCSV csv).
Proof.
  unfold CSV.parseCSV, CSV.flush.
  set (P := fun st => Forall (Forall CsvSpec.no_CR) (CSV.rows st)
                      /\ Forall CsvSpec.no_CR (CSV.current st)
                      /\ CsvSpec.no_CR (CSV.field st)).
  assert (Hinv : P (CSV.loop csv CSV.init)).
  { assert (Hnil : CsvSpec.no_CR []) by (intros []).
    apply (CsvInvariants.loop_keeps P).
    - intros st c Hc (Hr & Hcur & Hf). split; [exact Hr|]. split; [exact Hcur|].
      simpl. unfold CsvSpec.no_CR in *. rewrite in_app_iff. simpl.
      intros [Hin | [-> | []]]; [exact (Hf Hin) | exact (Hc eq_refl)].
    - intros st Hst. exact Hst.
    - intros st (Hr & Hcur & Hf). split; [exact Hr|]. split; [|exact Hnil].
      simpl. apply Forall_app. split; [exact Hcur|].
      constructor; [exact Hf | constructor].
    - intros st (Hr & Hcur & Hf). split; [|split; [constructor | exact Hnil]].
      simpl. apply Forall_app. split; [exact Hr|]. constructor; [|constructor].
      apply Forall_app. split; [exact Hcur|]. constructor; [exact Hf | constructor].
    - split; [constructor|]. split; [constructor | exact Hnil]. }
  destruct Hinv as (Hr & Hcur & Hf).
  destruct (truthy_str _ || _); [|exact Hr].
  apply Forall_app. split; [exact Hr|]. constructor; [|constructor].
  apply Forall_app. split; [exact Hcur|]. constructor; [exact Hf | constructor].
Qed.

(** X4: a line feed at the end of the text, outside quotes, closes the row
    under way and adds no further row; with no row under way it adds a row
    of one empty field. *)
Theorem parseCSV_final_line_feed (csv : jsstring) :
  CSV.inQuotes (CSV.loop csv CSV.init) = false ->
  CSV.parseCSV (csv ++ [LF])
  = if CsvSpec.pending (CSV.loop csv CSV.init)
    then CSV.parseCSV csv
    else CSV.parseCSV csv ++ [[[]]].
Proof.
  intros Hq. unfold CSV.parseCSV.
  rewrite CsvInvariants.loop_app by (simpl; discriminate).
  destruct (CSV.loop csv CSV.init) as [rs cur f q]. simpl in Hq. subst q.
  unfold CsvSpec.pending, CSV.flush. cbn.
  destruct f as [|c f]; cbn; [|reflexivity].
  destruct cur as [|x cur]; reflexivity.
Qed.

Lemma parseCSV_final_line_feed_witness :
  CSV.parseCSV (str "a,b" ++ [LF]) = CSV.parseCSV (str "a,b")
  /\ CSV.parseCSV ((str "a,b" ++ [LF]) ++ [LF]) = CSV.parseCSV (str "a,b" ++ [LF]) ++ [[[]]].
Proof.
  split.
  - apply (parseCSV_final_line_feed (str "a,b")). reflexivity.
  - apply (parseCSV_final_line_feed (str "a,b" ++ [LF])). reflexivity.
Defined.

(** X5: after a quote that is never closed, nothing separates fields or
    rows any more: the rest of the text, less its carriage returns, goes
    to the one field under way. *)
Theorem parseCSV_unclosed_quote (pre rest : jsstring) :
  CSV.inQuotes (CSV.loop pre CSV.init) = true ->
  ~ In dquote rest ->
  CSV.parseCSV (pre ++ rest)
  = CSV.flush (CsvSpec.add_text (CsvSpec.without_CR rest) (CSV.loop pre CSV.init)).
Proof.
  intros Hq Hrest. unfold CSV.parseCSV.
  rewrite CsvInvariants.loop_app.
  - rewrite CsvInvariants.loop_in_quotes by assumption. reflexivity.
  - destruct rest as [|c rest']; simpl; [exact I|].
    intros ->. apply Hrest. left. reflexivity.
Qed.

Lemma parseCSV_unclosed_quote_witness :
  CSV.parseCSV (str "a," ++ [dquote] ++ str "b,c" ++ [CR; LF] ++ str "d,e" ++ [LF])
  = [[str "a"; str "b,c" ++ [LF] ++ str "d,e" ++ [LF]]].
Proof.
  apply (parseCSV_unclosed_quote (str "a," ++ [dquote])
           (str "b,c" ++ [CR; LF] ++ str "d,e" ++ [LF])).
  - reflexivity.
  - cbv. intuition discriminate.
Defined.

(** ** parseCSV: a field of two quotes *)

Module QuoteFacts.
Import CSV CsvSpec.

Lemma two_quotes post st :
  inQuotes st = false -> not_quote_next post ->
  loop (dquote :: dquote :: post) st = loop post st.
Proof.
  intros Hq Hn. destruct st as [rs cur f q]. simpl in Hq. subst q.
  destruct post as [|c post']; [reflexivity|].
  simpl in Hn. apply Ascii.eqb_neq in Hn. cbn. rewrite Hn. reflexivity.
Qed.

Lemma four_quotes post st :
  inQuotes st = false -> not_quote_next post ->
  loop (dquote :: dquote :: dquote :: dquote :: post) st
  = loop post (add_char dquote st).
Proof.
  intros Hq Hn. destruct st as [rs cur f q]. simpl in Hq. subst q.
  destruct post as [|c post']; [reflexivity|].
  simpl in Hn. apply Ascii.eqb_neq in Hn. cbn. rewrite Hn. reflexivity.
Qed.

Lemma closes_not_quote post : closes post -> not_quote_next post.
Proof. intros (c & rest & -> & [-> | ->]); simpl; discriminate. Qed.

(** One character that is no quote is read without looking ahead. *)
Lemma loop_cons c rest st :
  c <> dquote -> loop (c :: rest) st = loop rest (loop [c] st).
Proof.
  intros Hc. apply Ascii.eqb_neq in Hc. cbn [loop]. rewrite Hc.
  destruct (Ascii.eqb c "," && negb (inQuotes st)); [reflexivity|].
  destruct (Ascii.eqb c LF && negb (inQuotes st)); [reflexivity|].
  destruct (Ascii.eqb c CR); reflexivity.
Qed.

(** Where a field starts, the text that follows is read from the state
    reached there, whatever it begins with, and the field accumulator is
    empty. *)
Lemma field_start_state pre rest :
  field_start pre ->
  loop (pre ++ rest) init = loop rest (loop pre init)
  /\ field (loop pre init) = [].
Proof.
  intros [Hq [-> | (p & c & -> & Hc)]]; [split; reflexivity|].
  assert (Hd : c <> dquote) by (destruct Hc as [-> | ->]; discriminate).
  assert (Hn : forall r, not_quote_next (c :: r)) by (intros r; exact Hd).
  revert Hq. rewrite <- app_assoc. cbn [app].
  rewrite !CsvInvariants.loop_app by apply Hn.
  rewrite (loop_cons c rest _ Hd). intros Hq. split; [reflexivity|].
  revert Hq. generalize (loop p init). intros [rs cur f q].
  destruct Hc as [-> | ->]; destruct q; cbn;
    intros Hq; try reflexivity; discriminate Hq.
Qed.

Lemma cell_app_l i j rs more f :
  cell i j rs = Some f -> cell i j (rs ++ more) = Some f.
Proof.
  unfold cell. destruct (rs !! i) as [row|] eqn:Hr; [|discriminate].
  rewrite (lookup_app_l_Some _ _ _ _ Hr). auto.
Qed.

Lemma cell_last j rs row f :
  row !! j = Some f -> cell (length rs) j (rs ++ [row]) = Some f.
Proof.
  intros Hj. unfold cell. rewrite list_lookup_middle by reflexivity. exact Hj.
Qed.

Lemma settled_loop i j f s : forall st, settled i j f st -> settled i j f (loop s st).
Proof.
  apply (CsvInvariants.loop_keeps (settled i j f)).
  - intros st c _ Hst. exact Hst.
  - intros st Hst. exact Hst.
  - intros st [Hr | [Hi Hc]]; [left; exact Hr | right].
    split; [exact Hi|]. cbn [end_field current]. apply lookup_app_l_Some, Hc.
  - intros st [Hr | [Hi Hc]]; left; cbn [end_row rows].
    + apply cell_app_l, Hr.
    + subst i. apply cell_last, lookup_app_l_Some, Hc.
Qed.

Lemma settled_flush i j f st : settled i j f st -> cell i j (flush st) = Some f.
Proof.
  unfold flush. intros [Hr | [Hi Hc]].
  - destruct (truthy_str _ || _); [apply cell_app_l|]; exact Hr.
  - destruct (current st) as [|x cur] eqn:Hcur; [discriminate Hc|].
    cbn [length Nat.eqb negb]. rewrite orb_true_r.
    subst i. apply cell_last, lookup_app_l_Some, Hc.
Qed.

(** After a comma or a line feed, the field that was under way is
    settled at the place where it started. *)
Lemma closes_settles post st :
  closes post -> inQuotes st = false ->
  settled (length (rows st)) (length (current st)) (field st) (loop post st).
Proof.
  intros (c & rest & -> & Hc) Hq. destruct st as [rs cur f q]. simpl in Hq. subst q.
  destruct Hc as [-> | ->]; cbn [loop]; cbn; apply settled_loop.
  - right. cbn. split; [reflexivity|]. apply list_lookup_middle. reflexivity.
  - left. cbn. apply cell_last, list_lookup_middle. reflexivity.
Qed.

End QuoteFacts.

(** C4 (amended): where a field starts, two quote characters that no
    further quote follows leave the result as it is without them. The
    field whose raw text they are comes out as the empty text when a comma
    or a line feed follows it, and at the end of the text when an earlier
    field stands in its row; alone on a last row that no line feed ends it
    yields no row at all. Four quote characters give the field holding one
    quote character. *)
Theorem parseCSV_quote_pairs (pre post : jsstring) :
  CsvSpec.field_start pre ->
  let i := CsvSpec.row_index pre in
  let j := CsvSpec.column_index pre in
  (CSV.not_quote_next post ->
     CSV.parseCSV (pre ++ [dquote; dquote] ++ post) = CSV.parseCSV (pre ++ post))
  /\ (CsvSpec.closes post ->
      CsvSpec.cell i j (CSV.parseCSV (pre ++ [dquote; dquote] ++ post)) = Some [])
  /\ (j <> 0%nat ->
      CsvSpec.cell i j (CSV.parseCSV (pre ++ [dquote; dquote])) = Some [])
  /\ (j = 0%nat ->
      CSV.parseCSV (pre ++ [dquote; dquote]) = CSV.parseCSV pre
      /\ length (CSV.parseCSV (pre ++ [dquote; dquote])) = i)
  /\ (CsvSpec.closes post \/ post = [] ->
      CsvSpec.cell i j
        (CSV.parseCSV (pre ++ [dquote; dquote; dquote; dquote] ++ post))
      = Some [dquote]).
Proof.
  intros Hstart i j. unfold CSV.parseCSV.
  pose proof (proj1 Hstart) as Hq.
  assert (Happ : forall rest,
    CSV.loop (pre ++ rest) CSV.init = CSV.loop rest (CSV.loop pre CSV.init)).
  { intros rest. apply (QuoteFacts.field_start_state pre rest Hstart). }
  pose proof (proj2 (QuoteFacts.field_start_state pre [] Hstart)) as Hf.
  assert (Htwo : forall rest, CSV.not_quote_next rest ->
    CSV.loop (pre ++ [dquote; dquote] ++ rest) CSV.init
    = CSV.loop rest (CSV.loop pre CSV.init)).
  { intros rest Hn. rewrite Happ. apply QuoteFacts.two_quotes; assumption. }
  assert (Hend : CSV.loop (pre ++ [dquote; dquote]) CSV.init = CSV.loop pre CSV.init).
  { rewrite <- (app_nil_r [dquote; dquote]). apply (Htwo [] I). }
  split; [|split; [|split; [|split]]].
  - intros Hn. rewrite Htwo by exact Hn. rewrite Happ. reflexivity.
  - intros Hc. rewrite Htwo by (apply QuoteFacts.closes_not_quote, Hc).
    apply QuoteFacts.settled_flush. rewrite <- Hf.
    apply QuoteFacts.closes_settles; assumption.
  - intros Hj. rewrite Hend. unfold CSV.flush. rewrite Hf.
    unfold j, CsvSpec.column_index in Hj |- *. unfold i, CsvSpec.row_index.
    destruct (CSV.current (CSV.loop pre CSV.init)) as [|x cur] eqn:Hcur;
      [contradiction|].
    cbn [truthy_str length Nat.eqb negb orb].
    apply QuoteFacts.cell_last, list_lookup_middle. reflexivity.
  - intros Hj. rewrite Hend. unfold CSV.flush. rewrite Hf.
    unfold j, CsvSpec.column_index in Hj. unfold i, CsvSpec.row_index.
    rewrite Hj. split; reflexivity.
  - intros Hpost.
    assert (Hn : CSV.not_quote_next post).
    { destruct Hpost as [Hc | ->]; [apply QuoteFacts.closes_not_quote, Hc | exact I]. }
    rewrite Happ. cbn [app]. rewrite QuoteFacts.four_quotes by assumption.
    destruct (CSV.loop pre CSV.init) as [rs cur f q] eqn:Hst.
    simpl in Hq, Hf. subst q f.
    unfold i, j, CsvSpec.row_index, CsvSpec.column_index. rewrite Hst.
    cbn [CSV.rows CSV.current CSV.add_char CSV.field CSV.inQuotes app].
    destruct Hpost as [Hc | ->].
    + apply QuoteFacts.settled_flush.
      apply (QuoteFacts.closes_settles post (CSV.mkState rs cur [dquote] false) Hc).
      reflexivity.
    + cbn [CSV.loop]. unfold CSV.flush. cbn [CSV.field CSV.rows CSV.current truthy_str orb].
      apply QuoteFacts.cell_last, list_lookup_middle. reflexivity.
Qed.

Lemma parseCSV_quote_pairs_witness :
  CSV.parseCSV (str "a," ++ [dquote; dquote] ++ str ",b") = CSV.parseCSV (str "a," ++ str ",b")
  /\ CsvSpec.cell 0 1 (CSV.parseCSV (str "a," ++ [dquote; dquote] ++ str ",b")) = Some []
  /\ CsvSpec.cell 0 1 (CSV.parseCSV (str "a," ++ [dquote; dquote])) = Some []
  /\ CSV.parseCSV ((str "a" ++ [LF]) ++ [dquote; dquote]) = CSV.parseCSV (str "a" ++ [LF])
  /\ length (CSV.parseCSV ([] ++ [dquote; dquote])) = 0%nat
  /\ CsvSpec.cell 0 1
       (CSV.parseCSV (str "a," ++ [dquote; dquote; dquote; dquote] ++ str ",b"))
     = Some [dquote].
Proof.
  assert (Ha : CsvSpec.field_start (str "a,")).
  { split; [reflexivity|]. right. exists (str "a"), ","%char. auto. }
  assert (Hl : CsvSpec.field_start (str "a" ++ [LF])).
  { split; [reflexivity|]. right. exists (str "a"), LF. auto. }
  assert (He : CsvSpec.field_start []).
  { split; [reflexivity|]. left. reflexivity. }
  assert (Hc : CsvSpec.closes (str ",b")).
  { exists ","%char, (str "b"). auto. }
  pose proof (parseCSV_quote_pairs (str "a,") (str ",b") Ha)
    as (H1 & H2 & _ & _ & H5).
  pose proof (parseCSV_quote_pairs (str "a,") [] Ha) as (_ & _ & H3 & _).
  pose proof (parseCSV_quote_pairs (str "a" ++ [LF]) [] Hl) as (_ & _ & _ & H4 & _).
  pose proof (parseCSV_quote_pairs [] [] He) as (_ & _ & _ & H4' & _).
  split; [apply H1; simpl; discriminate|].
  split; [apply H2, Hc|].
  split; [apply H3; vm_compute; discriminate|].
  split; [apply H4; reflexivity|].
  split; [apply H4'; reflexivity|].
  apply H5. left. exact Hc.
Defined.

(** ** extractArtist, extractAlbumTitle, extractThumbnail *)

Module MarkupFacts.
Import Regex RegexSpec RegexFacts Scrape MarkupSpec.

Lemma matches_lit_i l : forall w rest cs,
  matches (lit_i l) w rest cs <-> same_letters w l /\ cs = [].
Proof.
  unfold same_letters.
  induction l as [|c l IH]; intros w rest cs; simpl.
  - split.
    + intros [-> ->]. auto.
    + intros [Hw ->]. destruct w; [auto | discriminate].
  - split.
    + intros (w1 & w2 & cs1 & cs2 & -> & -> & [(c' & -> & Hc) ->] & M2).
      apply IH in M2 as [Hw ->]. apply Ascii.eqb_eq in Hc.
      simpl. rewrite Hc, Hw. auto.
    + intros [Hw ->]. destruct w as [|c' w]; [discriminate|].
      simpl in Hw. injection Hw as Hc Hw.
      exists [c'], w, [], []. repeat split; auto.
      * exists c'. split; [reflexivity|]. rewrite Hc. apply Ascii.eqb_refl.
      * apply IH. auto.
Qed.

Lemma matches_chr c w rest cs :
  matches (chr c) w rest cs <-> w = [c] /\ cs = [].
Proof.
  unfold chr. simpl. split.
  - intros [(c' & -> & Hc) ->]. apply Ascii.eqb_eq in Hc as ->. auto.
  - intros [-> ->]. split; [|reflexivity]. exists c.
    split; [reflexivity | apply Ascii.eqb_refl].
Qed.

Lemma matches_element opening closing w rest cs :
  matches (element_re opening closing) w rest cs <->
  exists o attrs text c,
    w = o ++ attrs ++ ">"%char :: text ++ c
    /\ same_letters o opening
    /\ forallb (is_not ">") attrs = true
    /\ text <> [] /\ forallb (is_not "<") text = true
    /\ same_letters c closing
    /\ cs = [text].
Proof.
  unfold element_re. cbn [seqs]. split.
  - cbn [matches].
    intros (w1 & r1 & cs1 & k1 & -> & -> & M1
            & w2 & r2 & cs2 & k2 & -> & -> & [Hattrs ->]
            & w3 & r3 & cs3 & k3 & -> & -> & M3
            & w4 & w5 & cs4 & cs5 & -> & -> & (cs6 & M4 & ->) & M5).
    apply matches_lit_i in M1 as [Ho ->].
    apply matches_chr in M3 as [-> ->].
    apply ReleaseFacts.matches_plus in M4 as (Hne & Htext & ->).
    apply matches_lit_i in M5 as [Hc ->].
    exists w1, w2, w4, w5. simpl. repeat split; auto.
  - intros (o & attrs & text & c & -> & Ho & Hattrs & Hne & Htext & Hc & ->).
    cbn [matches].
    exists o, (attrs ++ ">"%char :: text ++ c), [], [text].
    split; [reflexivity|]. split; [reflexivity|].
    split; [apply matches_lit_i; auto|].
    exists attrs, (">"%char :: text ++ c), [], [text].
    split; [reflexivity|]. split; [reflexivity|].
    split; [auto|].
    exists [">"%char], (text ++ c), [], [text].
    split; [reflexivity|]. split; [reflexivity|].
    split; [apply matches_chr; auto|].
    exists text, c, [text], [].
    split; [reflexivity|]. split; [reflexivity|].
    split; [|apply matches_lit_i; auto].
    exists []. split; [|reflexivity].
    apply ReleaseFacts.matches_plus. auto.
Qed.

Lemma matches_meta opening w rest cs :
  matches (meta_re opening) w rest cs <->
  exists o content,
    w = o ++ content ++ [dquote]
    /\ same_letters o opening
    /\ content <> [] /\ forallb (is_not dquote) content = true
    /\ cs = [content].
Proof.
  unfold meta_re. cbn [seqs]. split.
  - cbn [matches].
    intros (w1 & r1 & cs1 & k1 & -> & -> & M1
            & w2 & w3 & cs2 & cs3 & -> & -> & (cs4 & M2 & ->) & M3).
    apply matches_lit_i in M1 as [Ho ->].
    apply ReleaseFacts.matches_plus in M2 as (Hne & Hcontent & ->).
    apply matches_chr in M3 as [-> ->].
    exists w1, w2. simpl. repeat split; auto.
  - intros (o & content & -> & Ho & Hne & Hcontent & ->).
    cbn [matches].
    exists o, (content ++ [dquote]), [], [content].
    split; [reflexivity|]. split; [reflexivity|].
    split; [apply matches_lit_i; auto|].
    exists content, [dquote], [content], [].
    split; [reflexivity|]. split; [reflexivity|].
    split; [|apply matches_chr; auto].
    exists []. split; [|reflexivity].
    apply ReleaseFacts.matches_plus. auto.
Qed.

Lemma element_at_start opening closing s :
  (exists text, element_at opening closing s text)
  <-> matches_at_start (element_re opening closing) s.
Proof.
  split.
  - intros (text & o & attrs & c & post & -> & Ho & Ha & Hne & Ht & Hc).
    exists (o ++ attrs ++ ">"%char :: text ++ c), post, [text]. split.
    + rewrite <- !app_assoc. cbn [app]. rewrite <- !app_assoc. reflexivity.
    + apply matches_element. exists o, attrs, text, c. auto 8.
  - intros (w & rest & cs & -> & M).
    apply matches_element in M
      as (o & attrs & text & c & -> & Ho & Ha & Hne & Ht & Hc & _).
    exists text, o, attrs, c, rest. split; [|auto].
    rewrite <- !app_assoc. cbn [app]. rewrite <- !app_assoc. reflexivity.
Qed.

Lemma meta_at_start opening s :
  (exists content, meta_at opening s content)
  <-> matches_at_start (meta_re opening) s.
Proof.
  split.
  - intros (content & o & post & -> & Ho & Hne & Hc).
    exists (o ++ content ++ [dquote]), post, [content]. split.
    + rewrite <- !app_assoc. reflexivity.
    + apply matches_meta. exists o, content. auto.
  - intros (w & rest & cs & -> & M).
    apply matches_meta in M as (o & content & -> & Ho & Hne & Hc & _).
    exists content, o, rest. split; [|auto].
    rewrite <- !app_assoc. reflexivity.
Qed.

Lemma has_element_occurs opening closing html :
  has_element opening closing html <-> occurs (element_re opening closing) html.
Proof.
  split.
  - intros (pre & s & text & -> & Hs).
    destruct (proj1 (element_at_start opening closing s)) as (w & rest & cs & -> & M);
      [eauto|].
    exists pre, w, rest, cs. auto.
  - intros (pre & w & rest & cs & -> & M).
    destruct (proj2 (element_at_start opening closing (w ++ rest))) as [text Ht].
    { exists w, rest, cs. auto. }
    exists pre, (w ++ rest), text. auto.
Qed.

Lemma has_meta_occurs opening html :
  has_meta opening html <-> occurs (meta_re opening) html.
Proof.
  split.
  - intros (pre & s & content & -> & Hs).
    destruct (proj1 (meta_at_start opening s)) as (w & rest & cs & -> & M); [eauto|].
    exists pre, w, rest, cs. auto.
  - intros (pre & w & rest & cs & -> & M).
    destruct (proj2 (meta_at_start opening (w ++ rest))) as [content Ht].
    { exists w, rest, cs. auto. }
    exists pre, (w ++ rest), content. auto.
Qed.

Lemma js_match_element opening closing html m :
  js_match (element_re opening closing) html = Some m ->
  first_element opening closing html (group1 m).
Proof.
  intros Hm. apply js_match_some in Hm as (pre & Hh & M & Hleft).
  apply matches_element in M
    as (o & attrs & text & c & Hw & Ho & Ha & Hne & Ht & Hc & Hcs).
  unfold group1. rewrite Hcs. simpl.
  exists pre, (matched m ++ after m). split; [exact Hh|]. split.
  - exists o, attrs, c, (after m). rewrite Hw. split; [|auto].
    rewrite <- !app_assoc. cbn [app]. rewrite <- !app_assoc. reflexivity.
  - intros pre' s' Hs' Hl Hex. apply (Hleft pre' s' Hs' Hl).
    apply element_at_start, Hex.
Qed.

Lemma js_match_meta opening html m :
  js_match (meta_re opening) html = Some m ->
  first_meta opening html (group1 m).
Proof.
  intros Hm. apply js_match_some in Hm as (pre & Hh & M & Hleft).
  apply matches_meta in M as (o & content & Hw & Ho & Hne & Hc & Hcs).
  unfold group1. rewrite Hcs. simpl.
  exists pre, (matched m ++ after m). split; [exact Hh|]. split.
  - exists o, (after m). rewrite Hw. split; [|auto].
    rewrite <- !app_assoc. reflexivity.
  - intros pre' s' Hs' Hl Hex. apply (Hleft pre' s' Hs' Hl).
    apply meta_at_start, Hex.
Qed.

Lemma js_match_no_element opening closing html :
  js_match (element_re opening closing) html = None ->
  ~ has_element opening closing html.
Proof.
  intros Hn Hh. apply has_element_occurs in Hh. revert Hh.
  apply js_match_none, Hn.
Qed.

Lemma js_match_no_meta opening html :
  js_match (meta_re opening) html = None -> ~ has_meta opening html.
Proof.
  intros Hn Hh. apply has_meta_occurs in Hh. revert Hh.
  apply js_match_none, Hn.
Qed.

(** The two-step scrapers. *)
Lemma element_then_meta_result opening closing meta html :
  element_then_meta opening closing meta html
    match js_match (element_re opening closing) html with
    | Some m => Some (trim (group1 m))
    | None =>
        match js_match (meta_re meta) html with
        | Some ogMatch => Some (group1 ogMatch)
        | None => None
        end
    end.
Proof.
  unfold element_then_meta.
  destruct (js_match (element_re opening closing) html) as [m|] eqn:Hm.
  - split; [|split].
    + intros _. exists (group1 m). split; [reflexivity|].
      apply js_match_element, Hm.
    + intros Hno. destruct Hno. apply has_element_occurs.
      apply js_match_some in Hm as (pre & Hh & M & _).
      exists pre, (matched m), (after m), (groups m). auto.
    + intros Hno. destruct Hno. apply has_element_occurs.
      apply js_match_some in Hm as (pre & Hh & M & _).
      exists pre, (matched m), (after m), (groups m). auto.
  - apply js_match_no_element in Hm.
    destruct (js_match (meta_re meta) html) as [m|] eqn:Hm'.
    + split; [|split].
      * intros Hh. contradiction.
      * intros _ _. exists (group1 m). split; [reflexivity|].
        apply js_match_meta, Hm'.
      * intros _ Hno. destruct Hno. apply has_meta_occurs.
        apply js_match_some in Hm' as (pre & Hh & M & _).
        exists pre, (matched m), (after m), (groups m). auto.
    + apply js_match_no_meta in Hm'. split; [|split].
      * intros Hh. contradiction.
      * intros _ Hh. contradiction.
      * reflexivity.
Qed.

End MarkupFacts.

(** X6: the artist is the trimmed text of the first byline element when
    the page has one, even if that text trims to nothing; only without a
    byline element is it the content of the first site-name meta tag; with
    neither it is null. Tags are matched in any letter case. *)
Theorem extractArtist_byline_first (html : jsstring) :
  MarkupSpec.element_then_meta MarkupSpec.byline_open MarkupSpec.byline_close
    (MarkupSpec.og_open "og:site_name") html (Scrape.extractArtist html).
Proof. apply MarkupFacts.element_then_meta_result. Qed.

(** X7: the album title is the trimmed text of the first title heading when
    the page has one; only without a heading is it the content of the
    first title meta tag; with neither it is null. *)
Theorem extractAlbumTitle_heading_first (html : jsstring) :
  MarkupSpec.element_then_meta MarkupSpec.title_open MarkupSpec.title_close
    (MarkupSpec.og_open "og:title") html (Scrape.extractAlbumTitle html).
Proof. apply MarkupFacts.element_then_meta_result. Qed.

(** X8: the thumbnail is the content of the first image meta tag of the
    page, a non-empty text without a double quote, and null when the page
    has no such tag. *)
Theorem extractThumbnail_first_meta (html : jsstring) :
  (MarkupSpec.has_meta (MarkupSpec.og_open "og:image") html ->
     exists content,
       Scrape.extractThumbnail html = Some content
       /\ MarkupSpec.first_meta (MarkupSpec.og_open "og:image") html content
       /\ content <> [] /\ ~ In dquote content)
  /\ (~ MarkupSpec.has_meta (MarkupSpec.og_open "og:image") html ->
     Scrape.extractThumbnail html = None).
Proof.
  unfold Scrape.extractThumbnail.
  change (Scrape.og_meta_re "og:image")
    with (MarkupSpec.meta_re (MarkupSpec.og_open "og:image")).
  destruct (Regex.js_match _ html) as [m|] eqn:Hm.
  - split.
    + intros _. exists (Regex.group1 m). split; [reflexivity|].
      pose proof (MarkupFacts.js_match_meta _ _ _ Hm) as Hf.
      split; [exact Hf|].
      destruct Hf as (pre & s & _ & (o & post & _ & _ & Hne & Hq) & _).
      split; [exact Hne|]. intros Hin.
      rewrite forallb_forall in Hq. specialize (Hq _ Hin).
      unfold Regex.is_not in Hq. rewrite Ascii.eqb_refl in Hq. discriminate.
    + intros Hno. destruct Hno. apply MarkupFacts.has_meta_occurs.
      apply RegexFacts.js_match_some in Hm as (pre & Hh & M & _).
      exists pre, (Regex.matched m), (Regex.after m), (Regex.groups m). auto.
  - apply MarkupFacts.js_match_no_meta in Hm. split.
    + intros Hh. contradiction.
    + reflexivity.
Qed.

Module MarkupFound.
Import Regex RegexFacts MarkupSpec.

Lemma has_element_found opening closing html m :
  js_match (element_re opening closing) html = Some m ->
  has_element opening closing html.
Proof.
  intros Hm. apply MarkupFacts.has_element_occurs.
  apply js_match_some in Hm as (pre & Hh & M & _).
  exists pre, (matched m), (after m), (groups m). auto.
Qed.

Lemma has_meta_found opening html m :
  js_match (meta_re opening) html = Some m -> has_meta opening html.
Proof.
  intros Hm. apply MarkupFacts.has_meta_occurs.
  apply js_match_some in Hm as (pre & Hh & M & _).
  exists pre, (matched m), (after m), (groups m). auto.
Qed.

End MarkupFound.

Lemma extractArtist_byline_first_witness :
  Scrape.extractArtist SampleMarkup.full_page = Some (str "The Band")
  /\ (exists text,
        Scrape.extractArtist SampleMarkup.full_page = Some (trim text)
        /\ MarkupSpec.first_element MarkupSpec.byline_open MarkupSpec.byline_close
             SampleMarkup.full_page text)
  /\ (exists content,
        Scrape.extractArtist SampleMarkup.meta_page = Some content
        /\ MarkupSpec.first_meta (MarkupSpec.og_open "og:site_name")
             SampleMarkup.meta_page content)
  /\ Scrape.extractArtist SampleMarkup.bare_page = None.
Proof.
  split; [reflexivity|]. split; [|split].
  - apply (proj1 (extractArtist_byline_first SampleMarkup.full_page)).
    eapply MarkupFound.has_element_found. vm_compute. reflexivity.
  - apply (proj1 (proj2 (extractArtist_byline_first SampleMarkup.meta_page))).
    + apply MarkupFacts.js_match_no_element. reflexivity.
    + eapply MarkupFound.has_meta_found. vm_compute. reflexivity.
  - apply (proj2 (proj2 (extractArtist_byline_first SampleMarkup.bare_page))).
    + apply MarkupFacts.js_match_no_element. reflexivity.
    + apply MarkupFacts.js_match_no_meta. reflexivity.
Defined.

Lemma extractAlbumTitle_heading_first_witness :
  Scrape.extractAlbumTitle SampleMarkup.full_page = Some (str "First Songs")
  /\ (exists text,
        Scrape.extractAlbumTitle SampleMarkup.full_page = Some (trim text)
        /\ MarkupSpec.first_element MarkupSpec.title_open MarkupSpec.title_close
             SampleMarkup.full_page text)
  /\ (exists content,
        Scrape.extractAlbumTitle SampleMarkup.meta_page = Some content
        /\ MarkupSpec.first_meta (MarkupSpec.og_open "og:title")
             SampleMarkup.meta_page content)
  /\ Scrape.extractAlbumTitle SampleMarkup.bare_page = None.
Proof.
  split; [reflexivity|]. split; [|split].
  - apply (proj1 (extractAlbumTitle_heading_first SampleMarkup.full_page)).
    eapply MarkupFound.has_element_found. vm_compute. reflexivity.
  - apply (proj1 (proj2 (extractAlbumTitle_heading_first SampleMarkup.meta_page))).
    + apply MarkupFacts.js_match_no_element. reflexivity.
    + eapply MarkupFound.has_meta_found. vm_compute. reflexivity.
  - apply (proj2 (proj2 (extractAlbumTitle_heading_first SampleMarkup.bare_page))).
    + apply MarkupFacts.js_match_no_element. reflexivity.
    + apply MarkupFacts.js_match_no_meta. reflexivity.
Defined.

Lemma extractThumbnail_first_meta_witness :
  (exists content,
     Scrape.extractThumbnail SampleMarkup.full_page = Some content
     /\ MarkupSpec.first_meta (MarkupSpec.og_open "og:image")
          SampleMarkup.full_page content
     /\ content <> [] /\ ~ In dquote content)
  /\ Scrape.extractThumbnail SampleMarkup.bare_page = None.
Proof.
  split.
  - apply (proj1 (extractThumbnail_first_meta SampleMarkup.full_page)).
    eapply MarkupFound.has_meta_found. vm_compute. reflexivity.
  - apply (proj2 (extractThumbnail_first_meta SampleMarkup.bare_page)).
    apply MarkupFacts.js_match_no_meta. reflexivity.
Defined.

(** ** buildEmbedHtml *)

Module EmbedMarkupFacts.
Import Regex RegexSpec RegexFacts Scrape EmbedSpec EmbedMarkupSpec.

Lemma build_shape (e : embedInfo) :
  buildEmbedHtml e
  = embed_prefix ++ type_name (type e) ++ "="%char :: id e ++ embed_suffix.
Proof.
  unfold buildEmbedHtml, embed_prefix, embed_suffix. cbn [join].
  rewrite <- !app_assoc. reflexivity.
Qed.

Lemma clash_starts keyword : forall suf s,
  clash keyword suf = true -> starts_with keyword (suf ++ s) = false.
Proof.
  induction keyword as [|a keyword IH]; intros [|b suf] s Hc; simpl in Hc;
    try discriminate.
  cbn [app starts_with]. destruct (Ascii.eqb a b); [|reflexivity].
  cbn [andb]. apply IH, Hc.
Qed.

Lemma match_here_no_keyword keyword s :
  starts_with keyword s = false -> match_here (id_re keyword) s = None.
Proof.
  intros Hs. unfold match_here, id_re. cbn [seqs exec].
  rewrite EmbedFacts.exec_lit, Hs. reflexivity.
Qed.

(** A stretch of text whose every tail clashes with the keyword holds no
    start of a match. *)
Lemma js_match_skip keyword pre : forall s,
  tails_clash keyword pre = true ->
  js_match (id_re keyword) (pre ++ s) = js_match (id_re keyword) s.
Proof.
  induction pre as [|c pre IH]; intros s Ht; [reflexivity|].
  cbn [tails_clash] in Ht. apply andb_prop in Ht as [Hc Ht].
  unfold js_match in *. cbn [app search].
  change (c :: pre ++ s) with ((c :: pre) ++ s).
  rewrite (match_here_no_keyword keyword ((c :: pre) ++ s))
    by (apply clash_starts, Hc).
  specialize (IH s Ht).
  destruct (search (id_re keyword) (pre ++ s)) as [[p m]|];
    destruct (search (id_re keyword) s) as [[p' m']|]; simpl in *; congruence.
Qed.

Lemma digit_not_letter (keyword : jsstring) (a d : ascii) :
  is_digit a = false -> is_digit d = true -> Ascii.eqb a d = false.
Proof.
  intros Ha Hd. apply Ascii.eqb_neq. intros ->. congruence.
Qed.

Lemma digits_clash (a : ascii) keyword idv :
  is_digit a = false ->
  forallb is_digit idv = true ->
  tails_clash (a :: keyword) idv = true.
Proof.
  intros Ha. induction idv as [|d idv IH]; intros Hd; [reflexivity|].
  simpl in Hd. apply andb_prop in Hd as [Hd Hds].
  cbn [tails_clash clash]. rewrite (digit_not_letter keyword a d Ha Hd).
  apply IH, Hds.
Qed.

(** Two runs of digits, each followed by something that is not a digit,
    are the same run when the texts are the same. *)
Lemma digit_run_unique (a : jsstring) : forall b x y,
  forallb is_digit a = true -> forallb is_digit b = true ->
  no_digit_next x -> no_digit_next y ->
  a ++ x = b ++ y -> a = b.
Proof.
  induction a as [|c a IH]; intros [|d b] x y Ha Hb Hx Hy Heq; simpl in *.
  - reflexivity.
  - subst x. simpl in Hx. apply andb_prop in Hb as [Hd _]. congruence.
  - subst y. simpl in Hy. apply andb_prop in Ha as [Hc _]. congruence.
  - injection Heq as -> Heq.
    apply andb_prop in Ha as [_ Ha]. apply andb_prop in Hb as [_ Hb].
    f_equal. apply (IH b x y); assumption.
Qed.

(** At the keyword, its separator and an identifier, the match captures
    the identifier. *)
Lemma js_match_at_id keyword idv post :
  digits idv -> no_digit_next post ->
  exists m,
    js_match (id_re keyword) (keyword ++ "="%char :: idv ++ post) = Some m
    /\ group1 m = idv.
Proof.
  intros [Hne Hd] Hpost.
  destruct idv as [|d ds]; [congruence|].
  assert (Hstart : matches_at_start (id_re keyword)
                     (keyword ++ "="%char :: (d :: ds) ++ post)).
  { apply EmbedFacts.matches_id_start. exists "="%char, d, (ds ++ post).
    simpl in Hd. apply andb_prop in Hd as [Hd _]. auto. }
  apply match_here_complete in Hstart as [m Hm].
  exists m. split.
  - unfold js_match.
    destruct (keyword ++ "="%char :: (d :: ds) ++ post) as [|c s] eqn:Hs;
      cbn [search]; rewrite Hm; reflexivity.
  - apply EmbedFacts.match_here_id in Hm
      as (sep & post' & Heq & _ & _ & Hg & Hpost').
    apply app_inv_head in Heq. injection Heq as _ Heq.
    symmetry. apply (digit_run_unique (d :: ds) (group1 m) post post');
      assumption.
Qed.

End EmbedMarkupFacts.

(** X9: the player markup tells the kind and the identifier apart: two
    different embed identifiers never give the same markup. *)
Theorem buildEmbedHtml_injective (e1 e2 : Scrape.embedInfo) :
  e1 <> e2 -> Scrape.buildEmbedHtml e1 <> Scrape.buildEmbedHtml e2.
Proof.
  intros Hne Heq. apply Hne. revert Heq.
  rewrite !EmbedMarkupFacts.build_shape. intros Heq.
  apply app_inv_head in Heq.
  destruct e1 as [t1 id1], e2 as [t2 id2]. cbn [Scrape.type Scrape.id] in Heq.
  destruct t1, t2; try discriminate Heq;
    cbn [Scrape.type_name str list_ascii_of_string app] in Heq;
    injection Heq as Heq; apply app_inv_tail in Heq; subst; reflexivity.
Qed.

Lemma buildEmbedHtml_injective_witness :
  Scrape.buildEmbedHtml (Scrape.mkEmbedInfo Scrape.album (str "12"))
  <> Scrape.buildEmbedHtml (Scrape.mkEmbedInfo Scrape.track (str "12")).
Proof.
  apply (buildEmbedHtml_injective (Scrape.mkEmbedInfo Scrape.album (str "12"))
           (Scrape.mkEmbedInfo Scrape.track (str "12"))).
  discriminate.
Defined.

(** X10: the identifier is read back from the player markup built for it:
    for an identifier of one or more digits, extracting the embed
    identifier from the markup gives the kind and the identifier the
    markup was built from. *)
Theorem extractEmbedInfo_of_buildEmbedHtml (e : Scrape.embedInfo) :
  EmbedMarkupSpec.digits (Scrape.id e) ->
  Scrape.extractEmbedInfo (Scrape.buildEmbedHtml e) = Some e.
Proof.
  intros Hd. rewrite EmbedMarkupFacts.build_shape.
  destruct e as [t idv]. cbn [Scrape.type Scrape.id] in *.
  assert (Hsuffix : EmbedSpec.no_digit_next EmbedMarkupSpec.embed_suffix)
    by reflexivity.
  unfold Scrape.extractEmbedInfo, Scrape.album_id_re, Scrape.track_id_re.
  destruct t; cbn [Scrape.type_name].
  - rewrite EmbedMarkupFacts.js_match_skip by (vm_compute; reflexivity).
    destruct (EmbedMarkupFacts.js_match_at_id (str "album") idv
                EmbedMarkupSpec.embed_suffix Hd Hsuffix) as (m & -> & ->).
    reflexivity.
  - replace (Regex.js_match (Scrape.id_re (str "album"))
               (EmbedMarkupSpec.embed_prefix
                  ++ str "track" ++ "="%char :: idv ++ EmbedMarkupSpec.embed_suffix))
      with (@None Regex.result).
    + rewrite EmbedMarkupFacts.js_match_skip by (vm_compute; reflexivity).
      destruct (EmbedMarkupFacts.js_match_at_id (str "track") idv
                  EmbedMarkupSpec.embed_suffix Hd Hsuffix) as (m & -> & ->).
      reflexivity.
    + symmetry.
      change (EmbedMarkupSpec.embed_prefix
                ++ str "track" ++ "="%char :: idv ++ EmbedMarkupSpec.embed_suffix)
        with (EmbedMarkupSpec.embed_prefix
                ++ (str "track=" ++ idv ++ EmbedMarkupSpec.embed_suffix)).
      rewrite app_assoc.
      rewrite EmbedMarkupFacts.js_match_skip by (vm_compute; reflexivity).
      rewrite EmbedMarkupFacts.js_match_skip
        by (apply EmbedMarkupFacts.digits_clash; [reflexivity | apply Hd]).
      vm_compute. reflexivity.
Qed.

Lemma extractEmbedInfo_of_buildEmbedHtml_witness :
  Scrape.extractEmbedInfo
    (Scrape.buildEmbedHtml (Scrape.mkEmbedInfo Scrape.track (str "77")))
  = Some (Scrape.mkEmbedInfo Scrape.track (str "77")).
Proof.
  apply (extractEmbedInfo_of_buildEmbedHtml (Scrape.mkEmbedInfo Scrape.track (str "77"))).
  split; [discriminate | reflexivity].
Defined.

(** ** The tags of a page *)

Module TagListFacts.
Import Regex Scrape TagsSpec TagListSpec.

Section WithHost.
Context `{Host}.

Lemma texts_of_app (a b : list (json number)) :
  texts_of (a ++ b) = texts_of a ++ texts_of b.
Proof.
  induction a as [|[| | |s| |] a IH]; simpl; try exact IH; [reflexivity|].
  rewrite IH. reflexivity.
Qed.

Lemma texts_of_sublist (a b : list (json number)) :
  sublist a b -> sublist (texts_of a) (texts_of b).
Proof.
  induction 1 as [|x a b Hs IH|x a b Hs IH].
  - constructor.
  - destruct x; simpl; try exact IH. constructor. exact IH.
  - destruct x; simpl; try exact IH. constructor. exact IH.
Qed.

Lemma not_included_text (s : jsstring) (acc : list (json number)) :
  tags_include (JStr s) acc = false -> s ∉ texts_of acc.
Proof.
  unfold tags_include.
  induction acc as [|y acc IH]; simpl; [intros _; apply not_elem_of_nil|].
  intros Hf. apply orb_false_iff in Hf as [Hy Hacc].
  destruct y; simpl in *; try (apply IH, Hacc).
  rewrite not_elem_of_cons. split; [|apply IH, Hacc].
  intros ->. unfold jsstring_eqb in Hy.
  rewrite bool_decide_eq_false in Hy. congruence.
Qed.

Lemma add_new_texts (acc : list (json number)) (x : json number) :
  NoDup (texts_of acc) -> NoDup (texts_of (add_new acc x)).
Proof.
  intros Hnd. unfold add_new.
  destruct (tags_include x acc) eqn:Hin; [exact Hnd|].
  rewrite texts_of_app. destruct x; simpl; rewrite ?app_nil_r; try exact Hnd.
  apply NoDup_app. split; [exact Hnd|]. split.
  - intros t Ht Ht'. apply list_elem_of_singleton in Ht' as ->.
    revert Ht. apply not_included_text, Hin.
  - apply NoDup_singleton.
Qed.

Lemma fold_add_new_keeps (P : list (json number) -> Prop) cands :
  (forall acc x, x ∈ cands -> P acc -> P (add_new acc x)) ->
  forall acc, P acc -> P (fold_left add_new cands acc).
Proof.
  induction cands as [|x cands IH]; intros Hstep acc Hacc; [exact Hacc|].
  simpl. apply IH.
  - intros acc' y Hy. apply Hstep. right. exact Hy.
  - apply Hstep; [left | exact Hacc].
Qed.

Lemma merged_no_text_twice html : NoDup (texts_of (merged_tags html)).
Proof.
  unfold merged_tags, dedup.
  apply (fold_add_new_keeps (fun acc => NoDup (texts_of acc))).
  - intros acc x _. apply add_new_texts.
  - constructor.
Qed.

Lemma tag_names_truthy items : Forall truthy_value (tag_names items).
Proof.
  induction items as [|tag items IH]; cbn [tag_names]; [constructor|].
  destruct (get_prop tag (str "name")) as [[v|]|]; [|exact IH|constructor].
  destruct (truthy (Some v)) eqn:Hv; [|exact IH].
  constructor; [exact Hv | exact IH].
Qed.

Lemma link_tags_truthy links : Forall truthy_value (link_tags links).
Proof.
  unfold link_tags. apply List.Forall_forall. intros v Hv.
  apply in_map_iff in Hv as (s & <- & Hs).
  apply filter_In in Hs as [_ Hs]. exact Hs.
Qed.

Lemma candidates_truthy html : Forall truthy_value (candidates html).
Proof.
  unfold candidates. rewrite !Forall_app. repeat split.
  - unfold container_tags.
    destruct (js_match tralbum_tags_re html) as [m|]; [|constructor].
    destruct (js_match_all anchor_re (group1 m)); [|constructor].
    apply link_tags_truthy.
  - unfold blob_tags.
    destruct (js_match data_tralbum_re html) as [m|]; [|constructor].
    destruct (JSON_parse _) as [[| | | | |props]|]; try constructor.
    destruct (lookup_prop (str "tags") props) as [[| | | |items|]|];
      try constructor.
    apply tag_names_truthy.
  - unfold standalone_tags.
    destruct (js_match_all tag_link_re html); [|constructor].
    apply link_tags_truthy.
Qed.

Lemma merged_truthy html : Forall truthy_value (merged_tags html).
Proof.
  unfold merged_tags, dedup.
  pose proof (candidates_truthy html) as Hc.
  apply (fold_add_new_keeps (fun acc => Forall truthy_value acc)).
  - intros acc x Hx Hacc. unfold add_new.
    destruct (tags_include x acc); [exact Hacc|].
    apply Forall_app. split; [exact Hacc|]. constructor; [|constructor].
    rewrite Forall_forall in Hc. apply Hc, Hx.
  - constructor.
Qed.

(** The tags of the result are tags of the merged list, in its order. *)
Lemma tags_of_sublist html :
  sublist (tags_of (extractGenresAndLocation html)) (merged_tags html).
Proof.
  unfold extractGenresAndLocation. rewrite TagsFacts.allTags_merged.
  unfold tags_of. cbn [genres location].
  destruct (merged_tags html) as [|x l] eqn:Hm; [constructor|].
  rewrite <- Hm.
  assert (Hne : merged_tags html <> []) by (rewrite Hm; discriminate).
  replace (0 <? length (merged_tags html))%nat with true
    by (rewrite Hm; reflexivity).
  destruct (exists_last Hne) as (front & z & Hfz).
  rewrite Hfz, removelast_last, last_snoc.
  apply sublist_app; [apply sublist_take | reflexivity].
Qed.

End WithHost.
End TagListFacts.

(** X11: among the genres and the location of a page no text appears
    twice, none of them is an empty text or another falsy value, and the
    genres are four at most. *)
Theorem tags_distinct_and_truthy `{Host} (html : jsstring) :
  let result := Scrape.extractGenresAndLocation html in
  NoDup (TagListSpec.texts_of (TagListSpec.tags_of result))
  /\ Forall TagListSpec.truthy_value (TagListSpec.tags_of result)
  /\ length (Scrape.genres result) <= 4.
Proof.
  intros result.
  pose proof (TagListFacts.tags_of_sublist html) as Hsub. fold result in Hsub.
  split; [|split].
  - apply (sublist_NoDup _ (TagListSpec.texts_of (TagsSpec.merged_tags html))).
    + apply TagListFacts.merged_no_text_twice.
    + apply TagListFacts.texts_of_sublist, Hsub.
  - pose proof (TagListFacts.merged_truthy html) as Ht.
    rewrite Forall_forall in Ht |- *. intros v Hv. apply Ht.
    eapply sublist_submseteq, elem_of_submseteq in Hsub; eassumption.
  - unfold result, Scrape.extractGenresAndLocation. cbn [Scrape.genres].
    rewrite length_take. lia.
Qed.

(** ** The requests and the records of fetchBandcampData *)

Module RequestFacts.
Import Regex Scrape Fetch RecordSpec.

Lemma latest_release_not_empty html baseUrl target :
  extractLatestRelease html baseUrl = Some target -> target <> [].
Proof.
  unfold extractLatestRelease.
  assert (Hpath : forall kind m,
    js_match (release_link_re kind) html = Some m -> group1 m <> []).
  { intros kind m Hm. apply ReleaseFacts.js_match_link in Hm
      as (pre & post & _ & (slug & -> & _) & _). discriminate. }
  destruct (js_match (release_link_re "album") html) as [m|] eqn:Hm.
  - intros [= <-] Happ. apply app_eq_nil in Happ as [_ Hg].
    exact (Hpath _ _ Hm Hg).
  - destruct (js_match (release_link_re "track") html) as [m|] eqn:Hm';
      [|discriminate].
    intros [= <-] Happ. apply app_eq_nil in Happ as [_ Hg].
    exact (Hpath _ _ Hm' Hg).
Qed.

Lemma includes_nil_false (p : jsstring) : p <> [] -> includes p [] = false.
Proof. destruct p; [congruence | reflexivity]. Qed.

Section WithHost.
Context `{Host}.

Lemma guard_passes url :
  includes (str "bandcamp.com") url = true ->
  negb (truthy_str url) || negb (includes (str "bandcamp.com") url) = false.
Proof.
  intros Hin. rewrite Hin. destruct url; [discriminate Hin | reflexivity].
Qed.

End WithHost.
End RequestFacts.

(** X12: a URL that does not hold the host name is answered null with no
    request. Any other URL is requested first itself and at most one
    further request follows; none follows for a URL that names an album or
    a track. *)
Theorem fetchBandcampData_requests `{Host} (url : jsstring) (n : Fetch.net) :
  (includes (str "bandcamp.com") url = false ->
     Fetch.fetchBandcampData url n = (None, n))
  /\ (includes (str "bandcamp.com") url = true ->
     exists more,
       Fetch.requests (snd (Fetch.fetchBandcampData url n))
         = Fetch.requests n ++ url :: more
       /\ length more <= 1
       /\ (RecordSpec.is_release_url url = true -> more = [])).
Proof.
  split.
  - intros Hno. unfold Fetch.fetchBandcampData. rewrite Hno, orb_true_r.
    reflexivity.
  - intros Hin. unfold Fetch.fetchBandcampData, RecordSpec.is_release_url.
    rewrite (RequestFacts.guard_passes url Hin).
    unfold Fetch.fetch_body, Fetch.fetch.
    destruct (fetchUrl url (Fetch.world n)) as [[page|] w1].
    + destruct (includes (str "/album/") url), (includes (str "/track/") url);
        cbn [negb andb orb];
        try (exists []; simpl; repeat split; auto; lia).
      destruct (Scrape.extractLatestRelease page url) as [latest|];
        [|exists []; simpl; repeat split; auto; discriminate].
      destruct (truthy_str latest);
        [|exists []; simpl; repeat split; auto; discriminate].
      cbn [Fetch.world Fetch.requests].
      destruct (fetchUrl latest w1) as [[page2|] w2];
        exists [latest]; simpl; rewrite <- app_assoc;
        repeat split; auto; discriminate.
    + exists []. simpl. repeat split; auto.
Qed.

Lemma fetchBandcampData_requests_witness :
  @Fetch.fetchBandcampData Sample.host (str "https://example.org/album/x") Sample.fresh_net
    = (None, Sample.fresh_net)
  /\ (exists more,
        Fetch.requests (snd (@Fetch.fetchBandcampData Sample.host Sample.artist_url
                               Sample.fresh_net))
          = Fetch.requests Sample.fresh_net ++ Sample.artist_url :: more
        /\ length more <= 1
        /\ (RecordSpec.is_release_url Sample.artist_url = true -> more = []))
  /\ Fetch.requests (snd (@Fetch.fetchBandcampData Sample.host Sample.artist_url
                            Sample.fresh_net))
     = [Sample.artist_url; Sample.album_url].
Proof.
  split; [|split].
  - apply (proj1 (@fetchBandcampData_requests Sample.host
                    (str "https://example.org/album/x") Sample.fresh_net)).
    reflexivity.
  - apply (proj2 (@fetchBandcampData_requests Sample.host Sample.artist_url
                    Sample.fresh_net)).
    reflexivity.
  - vm_compute. reflexivity.
Defined.

(** X13: for an artist page, a URL that names neither album nor track and
    whose page links to a release, the release is requested next, at the
    artist URL less one trailing slash followed by the link's path, and
    the record is that of the release page; when that second request
    fails the result is null, though the artist page was read. *)
Theorem fetchBandcampData_follows_release `{Host}
    (url page target : jsstring) (n : Fetch.net) (w1 : World) :
  includes (str "bandcamp.com") url = true ->
  RecordSpec.is_release_url url = false ->
  fetchUrl url (Fetch.world n) = (Some page, w1) ->
  Scrape.extractLatestRelease page url = Some target ->
  Fetch.fetchBandcampData url n
  = (Fetch.page_data <$> fst (fetchUrl target w1),
     Fetch.mkNet (snd (fetchUrl target w1)) (Fetch.requests n ++ [url; target])).
Proof.
  intros Hin Hrel Hpage Htarget.
  unfold RecordSpec.is_release_url in Hrel.
  apply orb_false_iff in Hrel as [Ha Ht].
  unfold Fetch.fetchBandcampData.
  rewrite (RequestFacts.guard_passes url Hin).
  unfold Fetch.fetch_body, Fetch.fetch. rewrite Hpage, Ha, Ht, Htarget.
  cbn [negb andb].
  pose proof (RequestFacts.latest_release_not_empty _ _ _ Htarget) as Hne.
  destruct target as [|c target]; [congruence|]. cbn [truthy_str].
  cbn [Fetch.world Fetch.requests].
  destruct (fetchUrl (c :: target) w1) as [[page2|] w2]; simpl;
    rewrite <- app_assoc; reflexivity.
Qed.

Lemma fetchBandcampData_follows_release_witness :
  @Fetch.fetchBandcampData Sample.host Sample.artist_url Sample.fresh_net
  = (Some (@Fetch.page_data Sample.host Sample.album_page),
     @Fetch.mkNet Sample.host 2%nat [Sample.artist_url; Sample.album_url]).
Proof.
  apply (@fetchBandcampData_follows_release Sample.host Sample.artist_url
           Sample.artist_page Sample.album_url Sample.fresh_net 1%nat);
    reflexivity.
Defined.

(** X14: a record either has no player, and then no embed markup, no track
    title, no artist and no thumbnail, or has a player built from an
    identifier of digits, and then its track title is its album title and
    artist and thumbnail are written; its genres are four at most. *)
Theorem fetchBandcampData_record_shape `{Host}
    (url : jsstring) (n n' : Fetch.net) (data : Fetch.BandcampData) :
  Fetch.fetchBandcampData url n = (Some data, n') ->
  (RecordSpec.without_player data \/ RecordSpec.with_player data)
  /\ length (Fetch.genres data) <= 4.
Proof.
  intros Hf.
  destruct (FetchFacts.fetchBandcampData_some _ _ _ _ Hf)
    as (target & pageHtml & w & _ & _ & ->).
  unfold Fetch.page_data, Scrape.extractEmbedInfo.
  assert (Hdigits : forall kind m,
    Regex.js_match (Scrape.id_re kind) pageHtml = Some m ->
    EmbedMarkupSpec.digits (Regex.group1 m)).
  { intros kind m Hm. apply EmbedFacts.js_match_id in Hm
      as (pre & sep & post & _ & _ & Hne & Hd & _). split; assumption. }
  assert (Hlen : length (Scrape.genres (Scrape.extractGenresAndLocation pageHtml)) <= 4).
  { unfold Scrape.extractGenresAndLocation. cbn [Scrape.genres].
    rewrite length_take. lia. }
  unfold Scrape.album_id_re, Scrape.track_id_re.
  destruct (Regex.js_match (Scrape.id_re (str "album")) pageHtml) as [m|] eqn:Hm.
  - split; [|exact Hlen]. right. split; [|split; [|split]].
    + exists (Scrape.mkEmbedInfo Scrape.album (Regex.group1 m)).
      split; [reflexivity | apply (Hdigits _ _ Hm)].
    + reflexivity.
    + eexists. reflexivity.
    + eexists. reflexivity.
  - destruct (Regex.js_match (Scrape.id_re (str "track")) pageHtml) as [m|] eqn:Hm'.
    + split; [|exact Hlen]. right. split; [|split; [|split]].
      * exists (Scrape.mkEmbedInfo Scrape.track (Regex.group1 m)).
        split; [reflexivity | apply (Hdigits _ _ Hm')].
      * reflexivity.
      * eexists. reflexivity.
      * eexists. reflexivity.
    + split; [|exact Hlen]. left. repeat split.
Qed.

Lemma fetchBandcampData_record_shape_witness :
  exists data n',
    @Fetch.fetchBandcampData Sample.host Sample.album_url Sample.fresh_net
      = (Some data, n')
    /\ (RecordSpec.without_player data \/ RecordSpec.with_player data)
    /\ length (Fetch.genres data) <= 4.
Proof.
  eexists. eexists. split; [vm_compute; reflexivity|].
  eapply (@fetchBandcampData_record_shape Sample.host Sample.album_url
            Sample.fresh_net).
  vm_compute. reflexivity.
Defined.

(** ** The counters, the cache and the shows of build *)

Module LedgerFacts.
Import Fetch Build PipelineSpec LedgerSpec.

Section WithHost.
Context `{Host}.

(** One URL: the counters together go up by the records added, the misses
    by the entries added to the cache. *)
Lemma url_step_ledger url bd st :
  let bd' := fst (url_step url bd st) in
  let st' := snd (url_step url bd st) in
  cacheHits st' + cacheMisses st' + length bd
    = cacheHits st + cacheMisses st + length bd'
  /\ size (bandcampCache st') + cacheMisses st
     = size (bandcampCache st) + cacheMisses st'
  /\ cacheHits st <= cacheHits st'.
Proof.
  unfold url_step.
  destruct (bandcampCache st !! toLowerCase url) as [cached|] eqn:Hc.
  - simpl. rewrite length_app. simpl. lia.
  - destruct (fetchBandcampData url (network st)) as [[data|] n]; simpl.
    + rewrite length_app, (map_size_insert_None _ _ _ Hc). simpl. lia.
    + lia.
Qed.

Lemma url_loop_ledger urls : forall bd st,
  let bd' := fst (url_loop urls bd st) in
  let st' := snd (url_loop urls bd st) in
  cacheHits st' + cacheMisses st' + length bd
    = cacheHits st + cacheMisses st + length bd'
  /\ size (bandcampCache st') + cacheMisses st
     = size (bandcampCache st) + cacheMisses st'
  /\ cacheHits st <= cacheHits st'.
Proof.
  induction urls as [|url rest IH]; intros bd st; cbn [url_loop].
  - simpl. lia.
  - pose proof (url_step_ledger url bd st) as Hs.
    destruct (url_step url bd st) as [bd1 st1]. cbn [fst snd] in Hs.
    specialize (IH bd1 st1). cbv zeta in IH |- *. lia.
Qed.

(** The records of a list are cached once the loop is through. *)
Lemma url_loop_cached urls : forall bd st,
  Forall (in_cache (bandcampCache st)) bd ->
  Forall (in_cache (bandcampCache (snd (url_loop urls bd st))))
         (fst (url_loop urls bd st)).
Proof.
  induction urls as [|url rest IH]; intros bd st Hbd; cbn [url_loop]; [exact Hbd|].
  pose proof (PipelineFacts.url_step_cache url bd st) as Hgrow.
  assert (Hstep : Forall (in_cache (bandcampCache (snd (url_step url bd st))))
                         (fst (url_step url bd st))).
  { assert (Hold : Forall (in_cache (bandcampCache (snd (url_step url bd st)))) bd).
    { eapply Forall_impl; [exact Hbd|]. intros r [k Hk]. exists k.
      eapply lookup_weaken; eassumption. }
    revert Hold. unfold url_step.
    destruct (bandcampCache st !! toLowerCase url) as [cached|] eqn:Hc.
    - simpl. intros Hold. apply Forall_app. split; [exact Hold|].
      constructor; [|constructor]. exists (toLowerCase url). exact Hc.
    - destruct (fetchBandcampData url (network st)) as [[data|] n]; simpl.
      + intros Hold. apply Forall_app. split; [exact Hold|].
        constructor; [|constructor]. exists (toLowerCase url).
        apply lookup_insert_eq.
      + intros Hold. exact Hold. }
  destruct (url_step url bd st) as [bd1 st1]. apply IH, Hstep.
Qed.

Lemma show_step_ledger show st :
  fresh show ->
  let show' := fst (show_step show st) in
  let st' := snd (show_step show st) in
  cacheHits st' + cacheMisses st'
    = cacheHits st + cacheMisses st + length (media show')
  /\ size (bandcampCache st') + cacheMisses st
     = size (bandcampCache st) + cacheMisses st'
  /\ cacheHits st <= cacheHits st'
  /\ finished (bandcampCache st') show'.
Proof.
  intros Hfresh. unfold fresh in Hfresh.
  assert (Hsame : forall s : Show,
    bandcamp s = Absent ->
    cacheHits st + cacheMisses st
      = cacheHits st + cacheMisses st + length (media (delete_bandcampUrl s))
    /\ size (bandcampCache st) + cacheMisses st
       = size (bandcampCache st) + cacheMisses st
    /\ cacheHits st <= cacheHits st
    /\ finished (bandcampCache st) (delete_bandcampUrl s)).
  { intros s Hs. unfold finished, media. cbn [delete_bandcampUrl bandcamp bandcampUrl].
    rewrite Hs. simpl. repeat split; lia. }
  unfold show_step.
  destruct (bandcampUrl show) as [|u]; [exact (Hsame show Hfresh)|].
  destruct (truthy_str u); [|exact (Hsame show Hfresh)].
  pose proof (url_loop_ledger (media_urls u) [] st) as Hl.
  pose proof (url_loop_cached (media_urls u) [] st (List.Forall_nil _)) as Hc.
  destruct (url_loop (media_urls u) [] st) as [bd st']. cbn [fst snd] in Hl, Hc.
  cbv zeta in Hl. simpl in Hl. destruct Hl as (H1 & H2 & H3).
  destruct bd as [|d bd].
  - cbn [length Nat.ltb Nat.leb fst snd]. unfold finished, media.
    cbn [delete_bandcampUrl bandcamp bandcampUrl]. rewrite Hfresh.
    simpl in *. repeat split; lia.
  - cbn [length Nat.ltb Nat.leb fst snd]. unfold finished, media.
    cbn [delete_bandcampUrl set_bandcamp bandcamp bandcampUrl].
    simpl in *. repeat split; try lia; try discriminate. exact Hc.
Qed.

Lemma finished_grows (c c' : gmap jsstring BandcampData) (s : Show) :
  c ⊆ c' -> finished c s -> finished c' s.
Proof.
  intros Hsub [Hu Hb]. split; [exact Hu|].
  destruct (bandcamp s) as [|l]; [exact I|].
  destruct Hb as [Hne Hall]. split; [exact Hne|].
  eapply Forall_impl; [exact Hall|]. intros r [k Hk]. exists k.
  eapply lookup_weaken; eassumption.
Qed.

Lemma media_count_app (a b : list Show) :
  media_count (a ++ b) = media_count a + media_count b.
Proof. induction a as [|s a IH]; simpl; [reflexivity | rewrite IH; lia]. Qed.

Lemma show_loop_ledger raw : forall acc st,
  Forall fresh raw ->
  Forall (finished (bandcampCache st)) acc ->
  let acc' := fst (show_loop raw acc st) in
  let st' := snd (show_loop raw acc st) in
  cacheHits st' + cacheMisses st' + media_count acc
    = cacheHits st + cacheMisses st + media_count acc'
  /\ size (bandcampCache st') + cacheMisses st
     = size (bandcampCache st) + cacheMisses st'
  /\ cacheHits st <= cacheHits st'
  /\ Forall (finished (bandcampCache st')) acc'.
Proof.
  induction raw as [|show rest IH]; intros acc st Hraw Hacc; cbn [show_loop].
  - simpl. repeat split; try lia. exact Hacc.
  - apply Forall_cons_1 in Hraw as [Hshow Hraw].
    pose proof (show_step_ledger show st Hshow) as Hs.
    pose proof (BuildFacts.show_step_cache show st) as Hgrow.
    destruct (show_step show st) as [show' st1]. cbn [fst snd] in Hs, Hgrow.
    cbv zeta in Hs. destruct Hs as (H1 & H2 & H3 & H4).
    assert (Hacc1 : Forall (finished (bandcampCache st1)) (acc ++ [show'])).
    { apply Forall_app. split.
      - eapply Forall_impl; [exact Hacc|]. intros s. apply finished_grows, Hgrow.
      - constructor; [exact H4 | constructor]. }
    specialize (IH (acc ++ [show']) st1 Hraw Hacc1). cbv zeta in IH |- *.
    destruct IH as (I1 & I2 & I3 & I4).
    rewrite media_count_app in I1. simpl in I1.
    repeat split; try lia. exact I4.
Qed.

Lemma showsRaw_fresh venues rows : Forall fresh (showsRaw venues rows).
Proof.
  unfold showsRaw. apply List.Forall_forall. intros s Hs.
  apply in_map_iff in Hs as (row & <- & _). reflexivity.
Qed.

Lemma media_count_perm (a b : list Show) :
  Permutation a b -> media_count a = media_count b.
Proof.
  induction 1; simpl; lia.
Qed.

Lemma build_state venuesCsv showsCsv st :
  snd (build venuesCsv showsCsv st)
  = snd (show_loop (showsRaw (build_venues (csv_rows venuesCsv)) (csv_rows showsCsv)) [] st).
Proof.
  unfold build. destruct (show_loop _ [] st) as [l st']. reflexivity.
Qed.

End WithHost.
End LedgerFacts.

(** X15: over a whole build the two counters together go up by the number
    of media records the document holds, the count of new fetches by the
    number of entries added to the cache, and neither counter goes down. *)
Theorem build_counters `{Host} (venuesCsv showsCsv : jsstring) (st : Build.state) :
  let out := fst (Build.build venuesCsv showsCsv st) in
  let st' := snd (Build.build venuesCsv showsCsv st) in
  Build.cacheHits st' + Build.cacheMisses st'
    = Build.cacheHits st + Build.cacheMisses st
      + LedgerSpec.media_count (Build.shows out)
  /\ size (Build.bandcampCache st') + Build.cacheMisses st
     = size (Build.bandcampCache st) + Build.cacheMisses st'
  /\ Build.cacheHits st <= Build.cacheHits st'
  /\ Build.cacheMisses st <= Build.cacheMisses st'.
Proof.
  intros out st'. unfold out, st'.
  rewrite ShowsFacts.build_shows, LedgerFacts.build_state.
  rewrite (LedgerFacts.media_count_perm _ _ (SortFacts.sort_perm _ _)).
  unfold ShowsSpec.emitted_shows.
  set (raw := Build.showsRaw (Build.build_venues (Build.csv_rows venuesCsv))
                (Build.csv_rows showsCsv)).
  pose proof (LedgerFacts.show_loop_ledger raw [] st
                (LedgerFacts.showsRaw_fresh _ _) (List.Forall_nil _)) as Hl.
  cbv zeta in Hl. destruct Hl as (H1 & H2 & H3 & _). simpl in H1.
  pose proof (map_subseteq_size _ _ (BuildFacts.show_loop_cache raw [] st)) as Hsize.
  repeat split; lia.
Qed.

(** X16: every show of the document has lost its raw URL field, and its
    media property is either left out or a non-empty list of records each
    of which is in the cache the build leaves. *)
Theorem build_shows_finished `{Host} (venuesCsv showsCsv : jsstring) (st : Build.state) :
  let out := fst (Build.build venuesCsv showsCsv st) in
  let st' := snd (Build.build venuesCsv showsCsv st) in
  Forall (LedgerSpec.finished (Build.bandcampCache st')) (Build.shows out).
Proof.
  intros out st'. unfold out, st'.
  rewrite ShowsFacts.build_shows, LedgerFacts.build_state.
  rewrite (SortFacts.sort_perm _ _). unfold ShowsSpec.emitted_shows.
  set (raw := Build.showsRaw (Build.build_venues (Build.csv_rows venuesCsv))
                (Build.csv_rows showsCsv)).
  pose proof (LedgerFacts.show_loop_ledger raw [] st
                (LedgerFacts.showsRaw_fresh _ _) (List.Forall_nil _)) as Hl.
  cbv zeta in Hl. destruct Hl as (_ & _ & _ & H4). exact H4.
Qed.

(** ** The venues table *)

Module VenueFacts.
Import Scrape Build LedgerSpec ShowsSpec.













End VenueFacts.



(** ** The URLs of a show *)

Module UrlFacts.
Import Regex RegexSpec RegexFacts Build UrlSpec.

Lemma plus_matches_head (p : ascii -> bool) c s :
  p c = true -> is_Some (match_here (plus p) (c :: s)).
Proof.
  intros Hp. apply match_here_complete. exists [c], s, [].
  split; [reflexivity|]. apply ReleaseFacts.matches_plus.
  simpl. rewrite Hp. repeat split. discriminate.
Qed.

Lemma scan_plain p s : forall skip, Forall (plain_ok p) (scan (plus p) s skip).
Proof.
  induction s as [|c s IH]; intros skip; cbn [scan].
  - destruct skip; [|constructor].
    destruct (match_here (plus p) []); repeat constructor.
  - destruct skip as [|n]; [|apply IH].
    destruct (match_here (plus p) (c :: s)) as [m|] eqn:Hm.
    + destruct (length (matched m)) eqn:Hlen.
      * constructor; [exact I|]. constructor; [|apply IH].
        exfalso. apply match_here_sound in Hm as [_ M].
        apply ReleaseFacts.matches_plus in M as (Hne & _ & _).
        destruct (matched m); [congruence | discriminate].
      * constructor; [exact I | apply IH].
    + constructor; [|apply IH]. simpl.
      destruct (p c) eqn:Hp; [|reflexivity].
      destruct (plus_matches_head p c s Hp) as [m Hm']. congruence.
Qed.

Lemma split_pieces_plain p ps : forall cur,
  Forall (plain_ok p) ps ->
  forallb (fun c => negb (p c)) cur = true ->
  Forall (fun piece => forallb (fun c => negb (p c)) piece = true)
         (split_pieces ps cur).
Proof.
  induction ps as [|[m|c] ps IH]; intros cur Hps Hcur; cbn [split_pieces].
  - repeat constructor. exact Hcur.
  - apply Forall_cons_1 in Hps as [_ Hps].
    constructor; [exact Hcur | apply IH; [exact Hps | reflexivity]].
  - apply Forall_cons_1 in Hps as [Hc Hps]. simpl in Hc.
    apply IH; [exact Hps|]. rewrite forallb_app, Hcur. simpl. rewrite Hc. reflexivity.
Qed.

(** No piece of a split holds a character of the separator class. *)
Lemma js_split_no_separator p s :
  Forall (fun piece => forallb (fun c => negb (p c)) piece = true)
         (js_split (plus p) s).
Proof.
  unfold js_split. apply split_pieces_plain; [apply scan_plain | reflexivity].
Qed.

Lemma trim_start_split s :
  exists sp, s = sp ++ trim_start s /\ forallb is_space sp = true.
Proof.
  induction s as [|c s IH]; [exists []; auto|].
  cbn [trim_start]. destruct (is_space c) eqn:Hc.
  - destruct IH as (sp & Hs & Hsp). exists (c :: sp). simpl.
    rewrite Hc, Hsp, <- Hs. auto.
  - exists []. auto.
Qed.

Lemma trim_start_solid s : starts_solid (trim_start s).
Proof.
  induction s as [|c s IH]; [exact I|].
  cbn [trim_start]. destruct (is_space c) eqn:Hc; [exact IH | exact Hc].
Qed.

Lemma trim_start_of_solid s : starts_solid s -> trim_start s = s.
Proof.
  destruct s as [|c s]; [reflexivity|]. simpl. intros ->. reflexivity.
Qed.

Lemma trim_start_forallb (q : ascii -> bool) s :
  forallb q s = true -> forallb q (trim_start s) = true.
Proof.
  destruct (trim_start_split s) as (sp & Hs & _). intros Hq.
  rewrite Hs, forallb_app in Hq. apply andb_prop in Hq as [_ Hq]. exact Hq.
Qed.

Lemma forallb_rev (q : ascii -> bool) s : forallb q (rev s) = forallb q s.
Proof.
  induction s as [|c s IH]; [reflexivity|].
  simpl. rewrite forallb_app, IH. simpl. rewrite andb_true_r. apply andb_comm.
Qed.

Lemma trim_forallb (q : ascii -> bool) s :
  forallb q s = true -> forallb q (trim s) = true.
Proof.
  intros Hq. unfold trim. rewrite forallb_rev.
  apply trim_start_forallb. rewrite forallb_rev.
  apply trim_start_forallb, Hq.
Qed.

(** Trimming a trimmed text changes nothing. *)
Lemma trim_trim s : trim (trim s) = trim s.
Proof.
  unfold trim.
  set (a := trim_start s). set (b := trim_start (rev a)).
  assert (Hb : starts_solid b) by apply trim_start_solid.
  assert (Hrb : starts_solid (rev b)).
  { destruct (trim_start_split (rev a)) as (sp & Hs & _). fold b in Hs.
    assert (Ha : a = rev b ++ rev sp).
    { rewrite <- (rev_involutive a), Hs, rev_app_distr. reflexivity. }
    pose proof (trim_start_solid s) as Hsolid. fold a in Hsolid.
    rewrite Ha in Hsolid. destruct (rev b); [exact I | exact Hsolid]. }
  rewrite (trim_start_of_solid (rev b) Hrb), rev_involutive.
  rewrite (trim_start_of_solid b Hb). reflexivity.
Qed.

Lemma not_in_forallb (x : ascii) (q : ascii -> bool) s :
  q x = false -> forallb q s = true -> ~ In x s.
Proof.
  intros Hx Hq Hin. rewrite forallb_forall in Hq. rewrite (Hq x Hin) in Hx.
  discriminate.
Qed.

End UrlFacts.

(** X18: every URL the loop takes from the field of a show is non-empty,
    holds the host name, holds neither comma nor line feed, and has no
    white space at either end. *)
Theorem media_urls_clean (bandcampUrl : jsstring) :
  Forall UrlSpec.clean_url (Build.media_urls bandcampUrl).
Proof.
  unfold Build.media_urls. apply List.Forall_forall. intros u Hu.
  apply filter_In in Hu as [Hu Hkeep].
  apply andb_prop in Hkeep as [Hne Hhost].
  apply in_map_iff in Hu as (piece & <- & Hpiece).
  pose proof (UrlFacts.js_split_no_separator Build.is_comma_or_newline bandcampUrl)
    as Hsplit.
  rewrite List.Forall_forall in Hsplit. specialize (Hsplit piece Hpiece).
  apply UrlFacts.trim_forallb in Hsplit.
  split; [destruct (trim piece); [discriminate | discriminate]|].
  split; [exact Hhost|]. split; [|apply UrlFacts.trim_trim].
  split; eapply UrlFacts.not_in_forallb; try exact Hsplit; reflexivity.
Qed.

(** ** Keys and requests of the loop over the URLs *)

Module KeyFacts.
Import Fetch Build PipelineSpec.

Section WithHost.
Context `{Host}.

Lemma fetch_guard url n data n' :
  fetchBandcampData url n = (Some data, n') ->
  includes (str "bandcamp.com") url = true.
Proof.
  unfold fetchBandcampData.
  destruct (includes (str "bandcamp.com") url); [reflexivity|].
  rewrite orb_true_r. discriminate.
Qed.

Lemma fetch_at_most_two url n :
  length (requests (snd (fetchBandcampData url n))) <= length (requests n) + 2.
Proof.
  unfold fetchBandcampData.
  destruct (negb (truthy_str url) || negb (includes (str "bandcamp.com") url));
    [cbn [snd]; lia|].
  unfold fetch_body, fetch.
  destruct (fetchUrl url (world n)) as [[page|] w1];
    [|cbn [snd requests]; rewrite length_app; cbn [length]; lia].
  destruct (negb (includes (str "/album/") url)
            && negb (includes (str "/track/") url));
    [|cbn [snd requests]; rewrite length_app; cbn [length]; lia].
  destruct (Scrape.extractLatestRelease page url) as [latest|];
    [|cbn [snd requests]; rewrite length_app; cbn [length]; lia].
  destruct (truthy_str latest);
    [|cbn [snd requests]; rewrite length_app; cbn [length]; lia].
  cbn [world requests].
  destruct (fetchUrl latest w1) as [[page2|] w2];
    cbn [snd requests]; rewrite !length_app; cbn [length]; lia.
Qed.

(** The keys one URL can add, and the requests it can cost. *)
Lemma url_step_keys url bd st k :
  is_Some (bandcampCache (snd (url_step url bd st)) !! k) ->
  is_Some (bandcampCache st !! k)
  \/ (k = toLowerCase url /\ includes (str "bandcamp.com") url = true).
Proof.
  unfold url_step.
  destruct (bandcampCache st !! toLowerCase url) as [cached|] eqn:Hc; [auto|].
  destruct (fetchBandcampData url (network st)) as [[data|] n] eqn:Hf; simpl; [|auto].
  destruct (decide (toLowerCase url = k)) as [<-|Hne].
  - intros _. right. split; [reflexivity|]. eapply fetch_guard, Hf.
  - rewrite lookup_insert_ne by exact Hne. auto.
Qed.

Lemma url_step_requests url bd st :
  length (requests (network (snd (url_step url bd st))))
  <= length (requests (network st)) + 2.
Proof.
  unfold url_step.
  destruct (bandcampCache st !! toLowerCase url) as [cached|]; [simpl; lia|].
  pose proof (fetch_at_most_two url (network st)) as Hb.
  destruct (fetchBandcampData url (network st)) as [[data|] n]; simpl in *; exact Hb.
Qed.

End WithHost.
End KeyFacts.

(** X19: URLs that differ only in the case of their letters share one
    cache entry: once one of them has yielded a record, the other is
    answered with that record and no request. *)
Theorem urls_sharing_a_key `{Host}
    (u1 u2 : jsstring) (st : Build.state)
    (bd : list Fetch.BandcampData) (r : Fetch.BandcampData) :
  toLowerCase u1 = toLowerCase u2 ->
  PipelineSpec.emitted u1 st = Some r ->
  Build.url_step u2 bd (PipelineSpec.after_url u1 st)
  = (bd ++ [r], PipelineSpec.with_hits 1 (PipelineSpec.after_url u1 st)).
Proof.
  intros Hkey Hr. apply PipelineFacts.url_step_hit.
  rewrite <- Hkey. apply PipelineFacts.emitted_cached, Hr.
Qed.

Lemma urls_sharing_a_key_witness :
  let shouting := str "HTTPS://Band.Bandcamp.com/album/FIRST-songs" in
  let st := SampleSheet.start in
  exists r,
    @PipelineSpec.emitted Sample.host Sample.album_url st = Some r
    /\ @Build.url_step Sample.host shouting []
         (@PipelineSpec.after_url Sample.host Sample.album_url st)
       = ([r], PipelineSpec.with_hits 1
                 (@PipelineSpec.after_url Sample.host Sample.album_url st)).
Proof.
  intros shouting st. eexists. split; [vm_compute; reflexivity|].
  apply (@urls_sharing_a_key Sample.host Sample.album_url shouting st []).
  - reflexivity.
  - vm_compute. reflexivity.
Defined.

(** X20: a pass over the URLs of a show adds cache entries only under the
    lower-cased forms of those of its URLs that hold the host name, and
    makes at most two requests for each URL. *)
Theorem url_loop_keys_and_requests `{Host}
    (urls : list jsstring) (bd : list Fetch.BandcampData) (st : Build.state) :
  let st' := snd (Build.url_loop urls bd st) in
  (forall k,
     is_Some (Build.bandcampCache st' !! k) ->
     is_Some (Build.bandcampCache st !! k)
     \/ exists u, In u urls /\ k = toLowerCase u
                  /\ includes (str "bandcamp.com") u = true)
  /\ length (Fetch.requests (Build.network st'))
     <= length (Fetch.requests (Build.network st)) + 2 * length urls.
Proof.
  revert bd st. induction urls as [|url rest IH]; intros bd st; cbn [Build.url_loop].
  - simpl. split; [auto | lia].
  - pose proof (KeyFacts.url_step_keys url bd st) as Hk.
    pose proof (KeyFacts.url_step_requests url bd st) as Hr.
    destruct (Build.url_step url bd st) as [bd1 st1]. cbn [snd] in Hk, Hr.
    specialize (IH bd1 st1). cbv zeta in IH |- *. destruct IH as [IHk IHr].
    split.
    + intros k Hsome. destruct (IHk k Hsome) as [Hin | (u & Hu & Hku & Hhost)].
      * destruct (Hk k Hin) as [Hold | [-> Hhost]]; [auto|].
        right. exists url. split; [left; reflexivity | auto].
      * right. exists u. split; [right; exact Hu | auto].
    + simpl. lia.
Qed.

Lemma url_loop_keys_and_requests_witness :
  let urls := [Sample.artist_url; Sample.down_url] in
  let st' := snd (@Build.url_loop Sample.host urls [] SampleSheet.start) in
  (is_Some (Build.bandcampCache SampleSheet.start !! toLowerCase Sample.artist_url)
   \/ exists u, In u urls /\ toLowerCase Sample.artist_url = toLowerCase u
                /\ includes (str "bandcamp.com") u = true)
  /\ Fetch.requests (Build.network st')
     = [Sample.artist_url; Sample.album_url; Sample.down_url]
  /\ length (Fetch.requests (Build.network st'))
     <= length (Fetch.requests (Build.network SampleSheet.start)) + 2 * length urls.
Proof.
  intros urls st'.
  destruct (@url_loop_keys_and_requests Sample.host urls [] SampleSheet.start)
    as [Hkeys Hreq].
  split; [|split; [vm_compute; reflexivity | exact Hreq]].
  apply Hkeys. vm_compute. eauto.
Defined.

(** ** The tags of the structured data *)

(** X21: once a tag of the structured data is null, reading its name
    throws and the tags after it are never read: the tag list is what the
    tags before the null one left. *)
Theorem forEach_tag_stops_at_null `{Host}
    (before after : list (json number)) (allTags : list (json number)) :
  Scrape.forEach_tag (before ++ JNull :: after) allTags
  = (Scrape.Throw, snd (Scrape.forEach_tag before allTags)).
Proof.
  revert allTags. induction before as [|tag before IH]; intros allTags.
  - reflexivity.
  - cbn [app Scrape.forEach_tag].
    destruct (Scrape.get_prop tag (str "name")) as [[v|]|].
    + destruct (Scrape.truthy (Some v) && negb (Scrape.tags_include v allTags));
        apply IH.
    + apply IH.
    + reflexivity.
Qed.

(** ** The filters of the page *)

Module ScriptFacts.
Import Scrape Script.

Lemma toLowerCase_never_N (c : ascii) : toLowerCase_char c <> "N"%char.
Proof.
  destruct c as [[] [] [] [] [] [] [] []]; vm_compute; discriminate.
Qed.

Lemma toLowerCase_not_NOTA (s : jsstring) : toLowerCase s <> str "NOTA".
Proof.
  destruct s as [|c s]; [discriminate|].
  cbn [toLowerCase map]. intros Heq. injection Heq as Hc _.
  exact (toLowerCase_never_N c Hc).
Qed.

Lemma toLowerCase_empty (s : jsstring) : truthy_str (toLowerCase s) = truthy_str s.
Proof. destruct s; reflexivity. Qed.

End ScriptFacts.

(** X22: a cost counts as free exactly when its lower-cased form holds
    the word free or is $0 or 0; the comparison with NOTA never
    succeeds, so a cost of NOTA is not free. *)
Theorem isFree_without_NOTA (cost : jsstring) :
  Script.isFree cost
  = (includes (str "free") (toLowerCase cost)
     || Scrape.jsstring_eqb (toLowerCase cost) (str "$0")
     || Scrape.jsstring_eqb (toLowerCase cost) (str "0"))
  /\ Script.isFree (str "NOTA") = false.
Proof.
  split; [|reflexivity]. unfold Script.isFree.
  replace (Scrape.jsstring_eqb (toLowerCase cost) (str "NOTA")) with false.
  - rewrite orb_false_r. destruct cost; reflexivity.
  - symmetry. unfold Scrape.jsstring_eqb. apply bool_decide_eq_false.
    apply ScriptFacts.toLowerCase_not_NOTA.
Qed.

(** X23: the two filters do not tell letter case: costs, or ages, that are
    alike but for the case of their letters get the same verdict. *)
Theorem filters_ignore_case (a b : jsstring) :
  toLowerCase a = toLowerCase b ->
  Script.isFree a = Script.isFree b /\ Script.isAllAges a = Script.isAllAges b.
Proof.
  intros Heq. unfold Script.isFree, Script.isAllAges.
  rewrite <- (ScriptFacts.toLowerCase_empty a), <- (ScriptFacts.toLowerCase_empty b).
  rewrite Heq. split; reflexivity.
Qed.

Lemma filters_ignore_case_witness :
  Script.isFree (str "FREE w/ RSVP") = Script.isFree (str "free w/ rsvp")
  /\ Script.isAllAges (str "All Ages") = Script.isAllAges (str "all ages").
Proof.
  split.
  - apply (filters_ignore_case (str "FREE w/ RSVP") (str "free w/ rsvp")).
    reflexivity.
  - apply (filters_ignore_case (str "All Ages") (str "all ages")).
    reflexivity.
Defined.

(** ** The second run *)

Module RetryFacts.
Import Fetch Build PipelineSpec.

Section WithHost.
Context `{Host}.

(** A URL that holds the host name is requested first itself. *)
Lemma fetch_first_request url n :
  includes (str "bandcamp.com") url = true ->
  exists more,
    requests (snd (fetchBandcampData url n)) = requests n ++ url :: more.
Proof.
  intros Hin. unfold fetchBandcampData.
  rewrite (RequestFacts.guard_passes url Hin).
  unfold fetch_body, fetch.
  destruct (fetchUrl url (world n)) as [[page|] w1]; [|exists []; reflexivity].
  destruct (negb (includes (str "/album/") url)
            && negb (includes (str "/track/") url)); [|exists []; reflexivity].
  destruct (Scrape.extractLatestRelease page url) as [latest|];
    [|exists []; reflexivity].
  destruct (truthy_str latest); [|exists []; reflexivity].
  cbn [world requests].
  destruct (fetchUrl latest w1) as [[page2|] w2];
    exists [latest]; cbn [snd requests]; rewrite <- app_assoc; reflexivity.
Qed.

(** A URL with no entry under its key is fetched. *)
Lemma url_step_miss url bd st :
  bandcampCache st !! toLowerCase url = None ->
  includes (str "bandcamp.com") url = true ->
  exists more,
    requests (network (snd (url_step url bd st)))
    = requests (network st) ++ url :: more.
Proof.
  intros Hc Hin. unfold url_step. rewrite Hc.
  destruct (fetch_first_request url (network st) Hin) as [more Hm].
  exists more.
  destruct (fetchBandcampData url (network st)) as [[data|] n]; exact Hm.
Qed.

(** A URL that yields no record adds nothing to the media and nothing to
    the cache. *)
Lemma url_step_nothing url bd st :
  emitted url st = None ->
  fst (url_step url bd st) = bd
  /\ bandcampCache (snd (url_step url bd st)) = bandcampCache st.
Proof.
  unfold emitted, url_step.
  destruct (bandcampCache st !! toLowerCase url) as [cached|]; [discriminate|].
  destruct (fetchBandcampData url (network st)) as [[data|] n]; [discriminate|].
  intros _. split; reflexivity.
Qed.

(** A URL leaves the entries under other keys as they are. *)
Lemma url_step_other url bd st k :
  toLowerCase url <> k ->
  bandcampCache (snd (url_step url bd st)) !! k = bandcampCache st !! k.
Proof.
  intros Hk. unfold url_step.
  destruct (bandcampCache st !! toLowerCase url) as [cached|]; [reflexivity|].
  destruct (fetchBandcampData url (network st)) as [[data|] n]; [|reflexivity].
  cbn [snd bandcampCache]. apply lookup_insert_ne, Hk.
Qed.

(** No entry stands under a key after a pass in which no URL of that key
    yielded a record, when none stood there before. *)
Lemma url_loop_no_entry urls : forall st k,
  bandcampCache st !! k = None ->
  (forall before url after,
     urls = before ++ url :: after -> toLowerCase url = k ->
     emitted url (snd (url_loop before [] st)) = None) ->
  bandcampCache (snd (url_loop urls [] st)) !! k = None.
Proof.
  induction urls as [|u rest IH]; intros st k Hc Hall; [exact Hc|].
  cbn [url_loop].
  destruct (url_step u [] st) as [bd' st'] eqn:Hs.
  assert (Hst' : st' = snd (url_step u [] st)) by (rewrite Hs; reflexivity).
  rewrite (PipelineFacts.url_loop_state rest bd' []).
  apply IH.
  - rewrite Hst'. destruct (decide (toLowerCase u = k)) as [Hk|Hk].
    + rewrite (proj2 (url_step_nothing u [] st (Hall [] u rest eq_refl Hk))).
      exact Hc.
    + rewrite url_step_other by exact Hk. exact Hc.
  - intros before url after Hrest Hk.
    specialize (Hall (u :: before) url after).
    cbn [app url_loop] in Hall. rewrite Hs in Hall.
    rewrite (PipelineFacts.url_loop_state before bd' []) in Hall.
    apply Hall; [rewrite Hrest; reflexivity | exact Hk].
Qed.

(** The record a URL yields at its turn stands under its key when the
    pass is over. *)
Lemma url_loop_entry before url after st r :
  emitted url (snd (url_loop before [] st)) = Some r ->
  bandcampCache (snd (url_loop (before ++ url :: after) [] st)) !! toLowerCase url
  = Some r.
Proof.
  intros He. rewrite PipelineFacts.url_loop_app. cbn [url_loop].
  destruct (url_step url _ _) as [bd' st'] eqn:Hs.
  eapply lookup_weaken; [|apply PipelineFacts.url_loop_cache].
  replace st' with (after_url url (snd (url_loop before [] st))).
  - apply PipelineFacts.emitted_cached, He.
  - unfold after_url.
    rewrite (PipelineFacts.url_step_emitted url []).
    rewrite PipelineFacts.url_step_emitted in Hs.
    injection Hs as _ <-. reflexivity.
Qed.

End WithHost.
End RetryFacts.

(** C6 (amended): a URL whose lower-cased form is in the cache when a run
    starts is, at its turn, answered with exactly the cached record, with
    no request to the network, for the cache only grows during a run and
    its entries do not change. A record a URL yields is in the cache
    afterwards under that URL's key. Hence a second run over URLs that
    each yielded a record in the first, begun with the cache the first run
    produced, yields the same records and makes no request. A URL that
    yields no record adds nothing to the cache, and a URL that finds no
    entry under its lower-cased form at its turn is requested. After a
    pass no entry stands under a lower-cased form when none stood there
    before and no URL of that form yielded a record; the record a URL of
    that form did yield stands there, and answers every URL of that form
    in the second run. *)
Theorem cache_hit_no_fetch `{Host} :
  (forall (st0 st : Build.state) (url : jsstring) cached bd,
     Build.bandcampCache st0 !! toLowerCase url = Some cached ->
     Build.bandcampCache st0 ⊆ Build.bandcampCache st ->
     Build.url_step url bd st = (bd ++ [cached], PipelineSpec.with_hits 1 st))
  /\ (forall urls bd st,
        Build.bandcampCache st ⊆ Build.bandcampCache (snd (Build.url_loop urls bd st)))
  /\ (forall raw shows st,
        Build.bandcampCache st ⊆ Build.bandcampCache (snd (Build.show_loop raw shows st)))
  /\ (forall url st r,
        PipelineSpec.emitted url st = Some r ->
        Build.bandcampCache (PipelineSpec.after_url url st) !! toLowerCase url = Some r)
  /\ (forall urls (st1 st2 : Build.state),
        length (fst (Build.url_loop urls [] st1)) = length urls ->
        Build.bandcampCache st2 = Build.bandcampCache (snd (Build.url_loop urls [] st1)) ->
        Build.url_loop urls [] st2
        = (fst (Build.url_loop urls [] st1), PipelineSpec.with_hits (length urls) st2))
  /\ (forall url bd st,
        PipelineSpec.emitted url st = None ->
        fst (Build.url_step url bd st) = bd
        /\ Build.bandcampCache (snd (Build.url_step url bd st)) = Build.bandcampCache st)
  /\ (forall url bd st,
        Build.bandcampCache st !! toLowerCase url = None ->
        includes (str "bandcamp.com") url = true ->
        exists more,
          Fetch.requests (Build.network (snd (Build.url_step url bd st)))
          = Fetch.requests (Build.network st) ++ url :: more)
  /\ (forall urls st k,
        Build.bandcampCache st !! k = None ->
        (forall before url after,
           urls = before ++ url :: after -> toLowerCase url = k ->
           PipelineSpec.emitted url (snd (Build.url_loop before [] st)) = None) ->
        Build.bandcampCache (snd (Build.url_loop urls [] st)) !! k = None)
  /\ (forall before url after st r,
        PipelineSpec.emitted url (snd (Build.url_loop before [] st)) = Some r ->
        Build.bandcampCache (snd (Build.url_loop (before ++ url :: after) [] st))
          !! toLowerCase url
        = Some r).
Proof.
  split; [|split; [|split; [|split; [|split; [|split; [|split; [|split]]]]]]].
  - intros st0 st url cached bd Hc Hsub.
    apply PipelineFacts.url_step_hit. eapply lookup_weaken; eassumption.
  - apply PipelineFacts.url_loop_cache.
  - apply BuildFacts.show_loop_cache.
  - apply PipelineFacts.emitted_cached.
  - intros urls st1 st2 Hlen Hc.
    rewrite PipelineFacts.url_loop_outcomes in Hlen |- *. simpl in Hlen |- *.
    rewrite (PipelineFacts.url_loop_again urls st1 st2 []).
    + reflexivity.
    + exact Hlen.
    + rewrite Hc. reflexivity.
  - apply RetryFacts.url_step_nothing.
  - apply RetryFacts.url_step_miss.
  - intros urls. apply RetryFacts.url_loop_no_entry.
  - apply RetryFacts.url_loop_entry.
Qed.

Lemma cache_hit_no_fetch_witness :
  let st0 := @Build.mkState Sample.host Sample.fresh_net ∅ 0 0 in
  let urls := [Sample.album_url; Sample.plain_url] in
  let run1 := @Build.url_loop Sample.host urls [] st0 in
  let st2 := @Build.mkState Sample.host Sample.fresh_net
               (Build.bandcampCache (snd run1)) 0 0 in
  let shouting := str "HTTPS://band.bandcamp.com/album/first-songs" in
  let mixed := [shouting; Sample.down_url; Sample.album_url] in
  let pass1 := @Build.url_loop Sample.host mixed [] st0 in
  let st3 := @Build.mkState Sample.host Sample.fresh_net
               (Build.bandcampCache (snd pass1)) 0 0 in
  Fetch.requests (Build.network (snd run1)) = urls
  /\ @Build.url_loop Sample.host urls [] st2
     = (fst run1, PipelineSpec.with_hits 2 st2)
  /\ Fetch.requests (Build.network (snd (@Build.url_loop Sample.host urls [] st2))) = []
  /\ @PipelineSpec.emitted Sample.host shouting st0 = None
  /\ @PipelineSpec.emitted Sample.host Sample.down_url
       (snd (@Build.url_loop Sample.host [shouting] [] st0)) = None
  /\ Build.bandcampCache (snd pass1) !! toLowerCase Sample.down_url = None
  /\ (exists more,
        Fetch.requests (Build.network (snd (@Build.url_step Sample.host Sample.down_url [] st3)))
        = Fetch.requests (Build.network st3) ++ Sample.down_url :: more)
  /\ (exists r,
        Build.bandcampCache (snd pass1) !! toLowerCase shouting = Some r
        /\ @Build.url_step Sample.host shouting [] st3
           = ([r], PipelineSpec.with_hits 1 st3)).
Proof.
  intros st0 urls run1 st2 shouting mixed pass1 st3.
  pose proof (@cache_hit_no_fetch Sample.host)
    as (Hhit & _ & _ & _ & Hagain & _ & Hmiss & Hnone & Hentry).
  assert (Hrun : @Build.url_loop Sample.host urls [] st2
                 = (fst run1, PipelineSpec.with_hits 2 st2)).
  { apply (Hagain urls st0 st2).
    - vm_compute. reflexivity.
    - reflexivity. }
  assert (Hdown : Build.bandcampCache (snd pass1) !! toLowerCase Sample.down_url = None).
  { apply (Hnone mixed st0); [vm_compute; reflexivity|].
    intros [|a [|b [|c before]]] url after Hm Hk.
    - injection Hm as <- <-. vm_compute in Hk. discriminate Hk.
    - injection Hm as <- <- <-. vm_compute. reflexivity.
    - injection Hm as <- <- <- <-. vm_compute in Hk. discriminate Hk.
    - exfalso. apply (f_equal (@length _)) in Hm.
      simpl in Hm. rewrite length_app in Hm. simpl in Hm. lia. }
  split; [vm_compute; reflexivity|]. split; [exact Hrun|].
  split; [rewrite Hrun; reflexivity|].
  split; [vm_compute; reflexivity|]. split; [vm_compute; reflexivity|].
  split; [exact Hdown|]. split.
  - apply (Hmiss Sample.down_url [] st3); [exact Hdown | reflexivity].
  - destruct (@PipelineSpec.emitted Sample.host Sample.album_url
                (snd (@Build.url_loop Sample.host [shouting; Sample.down_url] [] st0)))
      as [r|] eqn:Hem; [|vm_compute in Hem; discriminate Hem].
    pose proof (Hentry [shouting; Sample.down_url] Sample.album_url [] st0 r Hem)
      as Hr.
    exists r. split; [exact Hr|].
    apply (Hhit st3 st3 shouting r []); [exact Hr | reflexivity].
Defined.
